(** * peculiar-orm: connection leasing and transaction lifecycle

    A shallow embedding of [src/connection/TransactionManager.ts] and
    [src/connection/ConnectionPoolManager.ts], and of what is built on
    them: the clause builders and [executeQuery] of
    [src/repository/BaseRepository.ts], the decorators of
    [src/decorators/index.ts] and [src/schema/SchemaSync.ts].

    JavaScript objects become records, [number] counters become [Z],
    [Date] values become milliseconds in [Z], [Map<string, _>] becomes a
    [gmap string _], and an [async] method that throws becomes a
    computation in a state-and-exception monad.  Everything the code
    obtains from outside (the clock, [Math.random], the outcome of a
    statement sent to the server) is an explicit argument. *)

From Stdlib Require Import ZArith Lia.
From stdpp Require Import base option strings pretty list gmap.

Local Open Scope string_scope.

(** ** Values shared by both managers *)

(** [src/types/index.ts], [enum DatabaseIsolationLevel]; the text of a
    member is the string the enum assigns to it. *)
Inductive DatabaseIsolationLevel :=
  | READ_UNCOMMITTED
  | READ_COMMITTED
  | REPEATABLE_READ
  | SERIALIZABLE.

Definition isolation_text (l : DatabaseIsolationLevel) : string :=
  match l with
  | READ_UNCOMMITTED => "READ UNCOMMITTED"
  | READ_COMMITTED => "READ COMMITTED"
  | REPEATABLE_READ => "REPEATABLE_READ"
  | SERIALIZABLE => "SERIALIZABLE"
  end.

(** [src/errors/OrmError.ts] and the driver's own errors.  Only the class
    and the message are observed by the managers. *)
Inductive JsError :=
  | OrmError (msg : string)
  | DatabaseConnectionError (msg : string)
  | Error (msg : string).

Definition message (e : JsError) : string :=
  match e with
  | OrmError m | DatabaseConnectionError m | Error m => m
  end.

(** How a call ends: it returns, or it throws. *)
Inductive completion (A : Type) :=
  | Return (a : A)
  | Throw (e : JsError).
Arguments Return {A} a.
Arguments Throw {A} e.

(** [arr.slice(-n)]: the last [n] elements, the whole array when it is
    shorter. *)
Definition slice_last {A} (n : nat) (l : list A) : list A :=
  drop (length l - n) l.

(** [arr.find(p)] followed by assignments to the fields of the object
    found: the first match is changed in place, the rest is shared. *)
Fixpoint update_first {A} (p : A → bool) (f : A → A) (l : list A) : list A :=
  match l with
  | [] => []
  | x :: l' => if p x then f x :: l' else x :: update_first p f l'
  end.

(** ** The monad of a method body

    A method runs from a state of type [S] to a completion and a state:
    what it assigned before it threw stays assigned. *)

Definition M (S A : Type) : Type := S → completion A * S.

#[global] Instance M_ret {S} : MRet (M S) := λ A a s, (Return a, s).
#[global] Instance M_bind {S} : MBind (M S) := λ A B f m s,
  match m s with
  | (Return a, s') => f a s'
  | (Throw e, s') => (Throw e, s')
  end.

Definition throw {S A} (e : JsError) : M S A := λ s, (Throw e, s).

Definition get {S} : M S S := λ s, (Return s, s).

Definition modify {S} (f : S → S) : M S unit := λ s, (Return tt, f s).

(** [try { body } catch (error) { handler }] *)
Definition try_catch {S A} (body : M S A) (handler : JsError → M S A) : M S A := λ s,
  match body s with
  | (Return a, s') => (Return a, s')
  | (Throw e, s') => handler e s'
  end.

(** [try { body } finally { fin }]: [fin] runs on both exits and keeps
    the completion of [body] unless it throws itself. *)
Definition try_finally {S A} (body : M S A) (fin : M S unit) : M S A := λ s,
  match body s with
  | (r, s') =>
      match fin s' with
      | (Return _, s'') => (r, s'')
      | (Throw e, s'') => (Throw e, s'')
      end
  end.

(** [await x] where the environment decides how [x] settles. *)
Definition await {S A} (outcome : completion A) : M S A := λ s, (outcome, s).

(** ** TransactionManager *)

Module Txn.

(** [interface TransactionOptions] *)
Record TransactionOptions := {
  isolationLevel : option DatabaseIsolationLevel;
  readOnly : option bool;
}.

Inductive TxStatus := active | committed | rolled_back | failed.

(** An element of [TransactionMetrics.transactionHistory]. *)
Record HistoryEntry := {
  transactionId : string;
  startTime : Z;
  endTime : option Z;
  duration : option Z;
  status : TxStatus;
  entryIsolationLevel : option DatabaseIsolationLevel;
  entryReadOnly : option bool;
  error : option string;
}.

(** [interface TransactionMetrics] *)
Record TransactionMetrics := {
  totalTransactions : Z;
  activeTransactions : Z;
  completedTransactions : Z;
  committedTransactions : Z;
  rolledBackTransactions : Z;
  failedTransactions : Z;
  transactionDurations : list Z;
  lastMetricsResetTime : Z;
  transactionHistory : list HistoryEntry;
}.

(** A leased [PoolClient] is an object reference. *)
Definition PoolClient := nat.

(** The private fields of [class TransactionManager]. *)
Record TransactionManager := {
  client : option PoolClient;
  isTransactionActive : bool;
  requestId : string;
  metrics : TransactionMetrics;
  transactionStartTime : option Z;
  currentTransactionOptions : option TransactionOptions;
}.

(** What the manager asks of its collaborators, in order. *)
Inductive Call :=
  | GetConnection (options : option TransactionOptions)
  | Query (c : PoolClient) (sql : string)
  | Release (c : PoolClient).

Record World := {
  tm : TransactionManager;
  calls : list Call;
}.

Definition this : M World TransactionManager := λ w, (Return (tm w), w).

Definition assign (f : TransactionManager → TransactionManager) : M World unit :=
  modify (λ w, {| tm := f (tm w); calls := calls w |}).

Definition call (c : Call) : M World unit :=
  modify (λ w, {| tm := tm w; calls := (calls w ++ [c])%list |}).

(** *** Field assignments *)

Definition set_client (c : option PoolClient) (t : TransactionManager) :=
  {| client := c; isTransactionActive := isTransactionActive t;
     requestId := requestId t; metrics := metrics t;
     transactionStartTime := transactionStartTime t;
     currentTransactionOptions := currentTransactionOptions t |}.

Definition set_isTransactionActive (b : bool) (t : TransactionManager) :=
  {| client := client t; isTransactionActive := b;
     requestId := requestId t; metrics := metrics t;
     transactionStartTime := transactionStartTime t;
     currentTransactionOptions := currentTransactionOptions t |}.

Definition set_requestId (i : string) (t : TransactionManager) :=
  {| client := client t; isTransactionActive := isTransactionActive t;
     requestId := i; metrics := metrics t;
     transactionStartTime := transactionStartTime t;
     currentTransactionOptions := currentTransactionOptions t |}.

Definition set_metrics (m : TransactionMetrics) (t : TransactionManager) :=
  {| client := client t; isTransactionActive := isTransactionActive t;
     requestId := requestId t; metrics := m;
     transactionStartTime := transactionStartTime t;
     currentTransactionOptions := currentTransactionOptions t |}.

Definition set_transactionStartTime (d : option Z) (t : TransactionManager) :=
  {| client := client t; isTransactionActive := isTransactionActive t;
     requestId := requestId t; metrics := metrics t;
     transactionStartTime := d;
     currentTransactionOptions := currentTransactionOptions t |}.

Definition set_currentTransactionOptions (o : option TransactionOptions)
    (t : TransactionManager) :=
  {| client := client t; isTransactionActive := isTransactionActive t;
     requestId := requestId t; metrics := metrics t;
     transactionStartTime := transactionStartTime t;
     currentTransactionOptions := o |}.

Definition modify_metrics (f : TransactionMetrics → TransactionMetrics) : M World unit :=
  assign (λ t, set_metrics (f (metrics t)) t).

Definition set_totalTransactions (n : Z) (m : TransactionMetrics) :=
  {| totalTransactions := n; activeTransactions := activeTransactions m;
     completedTransactions := completedTransactions m;
     committedTransactions := committedTransactions m;
     rolledBackTransactions := rolledBackTransactions m;
     failedTransactions := failedTransactions m;
     transactionDurations := transactionDurations m;
     lastMetricsResetTime := lastMetricsResetTime m;
     transactionHistory := transactionHistory m |}.

Definition set_activeTransactions (n : Z) (m : TransactionMetrics) :=
  {| totalTransactions := totalTransactions m; activeTransactions := n;
     completedTransactions := completedTransactions m;
     committedTransactions := committedTransactions m;
     rolledBackTransactions := rolledBackTransactions m;
     failedTransactions := failedTransactions m;
     transactionDurations := transactionDurations m;
     lastMetricsResetTime := lastMetricsResetTime m;
     transactionHistory := transactionHistory m |}.

Definition set_completedTransactions (n : Z) (m : TransactionMetrics) :=
  {| totalTransactions := totalTransactions m;
     activeTransactions := activeTransactions m;
     completedTransactions := n;
     committedTransactions := committedTransactions m;
     rolledBackTransactions := rolledBackTransactions m;
     failedTransactions := failedTransactions m;
     transactionDurations := transactionDurations m;
     lastMetricsResetTime := lastMetricsResetTime m;
     transactionHistory := transactionHistory m |}.

Definition set_committedTransactions (n : Z) (m : TransactionMetrics) :=
  {| totalTransactions := totalTransactions m;
     activeTransactions := activeTransactions m;
     completedTransactions := completedTransactions m;
     committedTransactions := n;
     rolledBackTransactions := rolledBackTransactions m;
     failedTransactions := failedTransactions m;
     transactionDurations := transactionDurations m;
     lastMetricsResetTime := lastMetricsResetTime m;
     transactionHistory := transactionHistory m |}.

Definition set_rolledBackTransactions (n : Z) (m : TransactionMetrics) :=
  {| totalTransactions := totalTransactions m;
     activeTransactions := activeTransactions m;
     completedTransactions := completedTransactions m;
     committedTransactions := committedTransactions m;
     rolledBackTransactions := n;
     failedTransactions := failedTransactions m;
     transactionDurations := transactionDurations m;
     lastMetricsResetTime := lastMetricsResetTime m;
     transactionHistory := transactionHistory m |}.

Definition set_failedTransactions (n : Z) (m : TransactionMetrics) :=
  {| totalTransactions := totalTransactions m;
     activeTransactions := activeTransactions m;
     completedTransactions := completedTransactions m;
     committedTransactions := committedTransactions m;
     rolledBackTransactions := rolledBackTransactions m;
     failedTransactions := n;
     transactionDurations := transactionDurations m;
     lastMetricsResetTime := lastMetricsResetTime m;
     transactionHistory := transactionHistory m |}.

Definition set_transactionDurations (l : list Z) (m : TransactionMetrics) :=
  {| totalTransactions := totalTransactions m;
     activeTransactions := activeTransactions m;
     completedTransactions := completedTransactions m;
     committedTransactions := committedTransactions m;
     rolledBackTransactions := rolledBackTransactions m;
     failedTransactions := failedTransactions m;
     transactionDurations := l;
     lastMetricsResetTime := lastMetricsResetTime m;
     transactionHistory := transactionHistory m |}.

Definition set_transactionHistory (h : list HistoryEntry) (m : TransactionMetrics) :=
  {| totalTransactions := totalTransactions m;
     activeTransactions := activeTransactions m;
     completedTransactions := completedTransactions m;
     committedTransactions := committedTransactions m;
     rolledBackTransactions := rolledBackTransactions m;
     failedTransactions := failedTransactions m;
     transactionDurations := transactionDurations m;
     lastMetricsResetTime := lastMetricsResetTime m;
     transactionHistory := h |}.

(** [historyEntry.status = st; historyEntry.endTime = new Date();
     historyEntry.duration = ...; historyEntry.error = ...] where a field
    is assigned only when the argument is [Some]. *)
Definition settle_entry (st : TxStatus) (ended : Z) (with_duration : bool)
    (err : option string) (h : HistoryEntry) : HistoryEntry :=
  {| transactionId := transactionId h;
     startTime := startTime h;
     endTime := Some ended;
     duration := if with_duration then Some (ended - startTime h)%Z else duration h;
     status := st;
     entryIsolationLevel := entryIsolationLevel h;
     entryReadOnly := entryReadOnly h;
     error := match err with Some e => Some e | None => error h end |}.

Definition has_id (i : string) (h : HistoryEntry) : bool :=
  String.eqb (transactionId h) i.

(** [this.metrics.transactionHistory.find(t => t.transactionId === i)] *)
Definition find_entry (i : string) (m : TransactionMetrics) : option HistoryEntry :=
  List.find (has_id i) (transactionHistory m).

(** [this.metrics.transactionHistory.push(h); if (length > 100) slice(-100)] *)
Definition push_history (h : HistoryEntry) (m : TransactionMetrics) :=
  let pushed := (transactionHistory m ++ [h])%list in
  set_transactionHistory
    (if decide (100 < length pushed)%nat then slice_last 100 pushed else pushed) m.

(** *** Methods *)

(** [private releaseClient(): void].  [this.client.release()] is the
    lease manager's [performClientRelease], which has no throwing path. *)
Definition releaseClient : M World unit :=
  t ← this;
  match client t with
  | Some c =>
      (if isTransactionActive t
       then modify_metrics (λ m,
              set_activeTransactions (Z.max 0 (activeTransactions m - 1)) m)
       else mret tt);;
      call (Release c);;
      assign (set_client None);;
      assign (set_isTransactionActive false);;
      assign (set_transactionStartTime None)
  | None => mret tt
  end.

(** What [beginTransaction] reads from outside: the generated id, the
    clock at each [new Date()], and how each awaited call settles. *)
Record BeginEnv := {
  fresh_id : string;
  now : Z;
  connect : completion PoolClient;
  q_begin : completion unit;
  q_isolation : completion unit;
  q_readonly : completion unit;
  now_catch : Z;
}.

Definition opt_isolation (o : option TransactionOptions) :=
  o ≫= isolationLevel.
Definition opt_readOnly (o : option TransactionOptions) :=
  o ≫= readOnly.

(** [await this.client.query(sql)] *)
Definition query (c : PoolClient) (sql : string) (outcome : completion unit) : M World unit :=
  call (Query c sql);; await outcome.

(** [public async beginTransaction(options?)] *)
Definition beginTransaction (env : BeginEnv) (options : option TransactionOptions)
    : M World unit :=
  let transactionId := fresh_id env in
  assign (set_requestId transactionId);;
  assign (set_currentTransactionOptions options);;
  t ← this;
  if isTransactionActive t then
    let err := OrmError "Transaction already in progress" in
    modify_metrics (λ m, set_failedTransactions (failedTransactions m + 1) m);;
    modify_metrics (push_history
      {| transactionId := transactionId; startTime := now env;
         endTime := None; duration := None; status := failed;
         entryIsolationLevel := opt_isolation options;
         entryReadOnly := opt_readOnly options;
         error := Some "Transaction already in progress" |});;
    throw err
  else
    assign (set_transactionStartTime (Some (now env)));;
    modify_metrics (λ m, set_totalTransactions (totalTransactions m + 1) m);;
    try_catch
      (call (GetConnection options);;
       c ← await (connect env);
       assign (set_client (Some c));;
       query c "BEGIN" (q_begin env);;
       match opt_isolation options with
       | Some l =>
           query c ("SET TRANSACTION ISOLATION LEVEL " ++ isolation_text l)
             (q_isolation env)
       | None => mret tt
       end;;
       match opt_readOnly options with
       | Some ro =>
           query c (if ro then "SET TRANSACTION READ ONLY"
                    else "SET TRANSACTION READ WRITE") (q_readonly env)
       | None => mret tt
       end;;
       assign (set_isTransactionActive true);;
       modify_metrics (λ m, set_activeTransactions (activeTransactions m + 1) m);;
       modify_metrics (push_history
         {| transactionId := transactionId; startTime := now env;
            endTime := None; duration := None; status := active;
            entryIsolationLevel := opt_isolation options;
            entryReadOnly := opt_readOnly options;
            error := None |}))
      (λ error,
         modify_metrics (λ m, set_failedTransactions (failedTransactions m + 1) m);;
         modify_metrics (λ m, set_transactionHistory
           (update_first (has_id transactionId)
              (settle_entry failed (now_catch env) true (Some (message error)))
              (transactionHistory m)) m);;
         t' ← this;
         (if client t' is Some _
          then try_catch releaseClient (λ _, mret tt)
          else mret tt);;
         throw error).

(** What [commit] and [rollback] read from outside. *)
Record EndEnv := {
  q_end : completion unit;
  now_end : Z;
}.

(** The [if (historyEntry) { ... }] block of the success paths of
    [commit] and [rollback]; [cap] is [Some 1000] where [commit] trims
    [transactionDurations] and [None] where [rollback] does not. *)
Definition record_completion (st : TxStatus) (i : string) (ended : Z)
    (started : option Z) (cap : option nat) (m : TransactionMetrics) :=
  match find_entry i m with
  | Some h =>
      let m1 := set_transactionHistory
        (update_first (has_id i) (settle_entry st ended (bool_decide (is_Some started)) None)
           (transactionHistory m)) m in
      if started is Some _ then
        let pushed := (transactionDurations m1 ++ [(ended - startTime h)%Z])%list in
        set_transactionDurations
          (match cap with
           | Some n => if decide (n < length pushed)%nat then slice_last n pushed else pushed
           | None => pushed
           end) m1
      else m1
  | None => m
  end.

(** The [if (historyEntry) { ... }] block of the [catch] clauses. *)
Definition record_failure (prefix : string) (i : string) (ended : Z)
    (started : option Z) (e : JsError) (m : TransactionMetrics) :=
  set_transactionHistory
    (update_first (has_id i)
       (settle_entry failed ended (bool_decide (is_Some started))
          (Some (prefix ++ message e)))
       (transactionHistory m)) m.

(** [public async commit()] *)
Definition commit (env : EndEnv) : M World unit :=
  t ← this;
  match isTransactionActive t, client t with
  | true, Some c =>
      try_finally
        (try_catch
           (query c "COMMIT" (q_end env);;
            modify_metrics (λ m, set_committedTransactions (committedTransactions m + 1) m);;
            modify_metrics (λ m, set_completedTransactions (completedTransactions m + 1) m);;
            t' ← this;
            modify_metrics (record_completion committed (requestId t') (now_end env)
                              (transactionStartTime t') (Some 1000%nat)))
           (λ error,
              t' ← this;
              modify_metrics (record_failure "Commit failed: " (requestId t')
                                (now_end env) (transactionStartTime t') error);;
              throw error))
        releaseClient
  | _, _ =>
      let err := OrmError "No active transaction to commit" in
      modify_metrics (λ m, set_failedTransactions (failedTransactions m + 1) m);;
      throw err
  end.

(** [public async rollback()] *)
Definition rollback (env : EndEnv) : M World unit :=
  t ← this;
  match isTransactionActive t, client t with
  | true, Some c =>
      try_finally
        (try_catch
           (query c "ROLLBACK" (q_end env);;
            modify_metrics (λ m, set_rolledBackTransactions (rolledBackTransactions m + 1) m);;
            modify_metrics (λ m, set_completedTransactions (completedTransactions m + 1) m);;
            t' ← this;
            modify_metrics (record_completion rolled_back (requestId t') (now_end env)
                              (transactionStartTime t') None))
           (λ error,
              t' ← this;
              modify_metrics (record_failure "Rollback failed: " (requestId t')
                                (now_end env) (transactionStartTime t') error);;
              throw error))
        releaseClient
  | _, _ => mret tt
  end.

(** The field initialisers and the constructor; [id] is the generated
    [requestId] and [created] the clock at construction. *)
Definition new_metrics (created : Z) : TransactionMetrics :=
  {| totalTransactions := 0; activeTransactions := 0;
     completedTransactions := 0; committedTransactions := 0;
     rolledBackTransactions := 0; failedTransactions := 0;
     transactionDurations := []; lastMetricsResetTime := created;
     transactionHistory := [] |}.

Definition new_manager (id : string) (created : Z) : World :=
  {| tm := {| client := None; isTransactionActive := false; requestId := id;
              metrics := new_metrics created; transactionStartTime := None;
              currentTransactionOptions := None |};
     calls := [] |}.

Definition is_active (h : HistoryEntry) : bool :=
  match status h with active => true | _ => false end.

(** [public resetMetrics(): void] *)
Definition resetMetrics (reset_at : Z) : M World unit :=
  modify_metrics (λ m,
    {| totalTransactions := 0;
       activeTransactions := activeTransactions m;
       completedTransactions := 0; committedTransactions := 0;
       rolledBackTransactions := 0; failedTransactions := 0;
       transactionDurations := []; lastMetricsResetTime := reset_at;
       transactionHistory := List.filter is_active (transactionHistory m) |}).

(** The object [getMetricsSummary()] returns, without
    [avgTransactionDurationMs] (a floating-point quotient) and
    [longRunningTransactions] (a function of the clock). *)
Record MetricsSummary := {
  sum_totalTransactions : Z;
  sum_activeTransactions : Z;
  sum_committedTransactions : Z;
  sum_rolledBackTransactions : Z;
  sum_failedTransactions : Z;
  sum_completedTransactions : Z;
  maxTransactionDurationMs : Z;
  minTransactionDurationMs : Z;
  transactionCount : nat;
}.

Definition getMetricsSummary (t : TransactionManager) : MetricsSummary :=
  let m := metrics t in
  let durations := transactionDurations m in
  {| sum_totalTransactions := totalTransactions m;
     sum_activeTransactions := activeTransactions m;
     sum_committedTransactions := committedTransactions m;
     sum_rolledBackTransactions := rolledBackTransactions m;
     sum_failedTransactions := failedTransactions m;
     sum_completedTransactions := completedTransactions m;
     maxTransactionDurationMs :=
       match durations with [] => 0 | d :: ds => foldr Z.max d ds end;
     minTransactionDurationMs :=
       match durations with [] => 0 | d :: ds => foldr Z.min d ds end;
     transactionCount := length durations |}.

(** *** Sequences of calls

    A caller that catches what a call throws goes on with the manager as
    the call left it, so a sequence of calls is a fold over the states.
    The calls are made one after the other, each settled before the next
    is made; calls made while an earlier one is pending are not
    modelled. *)
Inductive Op :=
  | Begin (env : BeginEnv) (options : option TransactionOptions)
  | Commit (env : EndEnv)
  | Rollback (env : EndEnv)
  | ResetMetrics (reset_at : Z).

Definition perform (op : Op) : M World unit :=
  match op with
  | Begin env options => beginTransaction env options
  | Commit env => commit env
  | Rollback env => rollback env
  | ResetMetrics reset_at => resetMetrics reset_at
  end.

Definition after (w : World) (op : Op) : World := (perform op w).2.

Definition run (ops : list Op) (w : World) : World := foldl after w ops.

(** *** Properties as the specification words them *)

(** "the second attempt leaves the first transaction's state untouched" *)
Definition first_transaction_untouched (w w' : World) : Prop :=
  requestId (tm w') = requestId (tm w) ∧
  transactionStartTime (tm w') = transactionStartTime (tm w) ∧
  currentTransactionOptions (tm w') = currentTransactionOptions (tm w) ∧
  isTransactionActive (tm w') = isTransactionActive (tm w) ∧
  client (tm w') = client (tm w) ∧
  find_entry (requestId (tm w)) (metrics (tm w'))
    = find_entry (requestId (tm w)) (metrics (tm w)).

(** "committed + rolled_back + failed == completed transactions" *)
Definition counts_add_up (s : MetricsSummary) : Prop :=
  (sum_committedTransactions s + sum_rolledBackTransactions s
   + sum_failedTransactions s = sum_completedTransactions s)%Z.

(** The manager holds no handle and no transaction. *)
Definition idle (t : TransactionManager) : Prop :=
  client t = None ∧ isTransactionActive t = false.

(** The calls a method added to the trace. *)
Definition is_release (c : Call) : bool :=
  match c with Release _ => true | _ => false end.

Definition releases (cs : list Call) : nat := length (List.filter is_release cs).

(** Some concrete environments. *)
Definition all_ok (id : string) (t : Z) (c : PoolClient) : BeginEnv :=
  {| fresh_id := id; now := t; connect := Return c; q_begin := Return tt;
     q_isolation := Return tt; q_readonly := Return tt; now_catch := t |}.

Definition no_connection (id : string) (t : Z) : BeginEnv :=
  {| fresh_id := id; now := t;
     connect := Throw (DatabaseConnectionError "Failed to acquire connection: timeout");
     q_begin := Return tt; q_isolation := Return tt; q_readonly := Return tt;
     now_catch := t |}.

Definition begin_rejected (id : string) (t : Z) (c : PoolClient) : BeginEnv :=
  {| fresh_id := id; now := t; connect := Return c;
     q_begin := Throw (Error "connection terminated");
     q_isolation := Return tt; q_readonly := Return tt; now_catch := (t + 1)%Z |}.

Definition statement_ok (t : Z) : EndEnv := {| q_end := Return tt; now_end := t |}.

Definition statement_fails (t : Z) : EndEnv :=
  {| q_end := Throw (Error "server closed the connection"); now_end := t |}.

(** A manager with one transaction in progress, and the same manager
    after 99 further [beginTransaction] calls, all rejected. *)
Definition serializable : TransactionOptions :=
  {| isolationLevel := Some SERIALIZABLE; readOnly := Some false |}.

Definition in_progress : World :=
  run [Begin (all_ok "txn_1" 10 7) (Some serializable)] (new_manager "txn_0" 0).

Definition crowded : World :=
  Nat.iter 99 (λ w, after w (Begin (all_ok "txn_2" 20 8) None)) in_progress.

(** The difference of the counters that the completed count balances. *)
Definition balance (w : World) : Z :=
  (committedTransactions (metrics (tm w)) + rolledBackTransactions (metrics (tm w))
   - completedTransactions (metrics (tm w)))%Z.

End Txn.

(** ** ConnectionPoolManager

    The manager is event driven: between two [await]s a method runs
    without interruption, and whatever happens at an [await] (the pool
    hands out a client, a statement settles, a timer fires, another
    caller releases its handle) happens between two such runs.  Each
    uninterrupted run is a computation in [M State]; an [Event] names
    what starts it.

    Left out: [dispose()], after which the pool hands out nothing; the
    interval that logs the metrics, which refreshes the three pool gauges
    and otherwise only reads; and the read-only reports
    [getMetricsSummary()] and [getConnectionAges()]. *)

Module Pool.

(** [src/types/index.ts], [interface ConnectionOptions] *)
Record ConnectionOptions := {
  isolationLevel : option string;
  readOnly : option bool;
}.

Inductive HistoryType := acquired | released | failed_acquire | client_error_released.

(** An element of [ConnectionPoolMetrics.connectionHistory]. *)
Record HistoryEvent := {
  type : HistoryType;
  timestamp : Z;
  connectionId : option string;
  durationMs : option Z;
  error : option string;
}.

(** [interface ConnectionPoolMetrics] *)
Record ConnectionPoolMetrics := {
  totalConnectionsCreated : Z;
  acquiredConnections : Z;
  releasedConnections : Z;
  failedAcquisitions : Z;
  activeLeasedConnections : Z;
  maxConcurrentLeasedConnections : Z;
  connectionDurations : list Z;
  connectionHistory : list HistoryEvent;
  lastMetricsResetTime : option Z;
  poolTotalCount : option Z;
  poolIdleCount : option Z;
  poolWaitingCount : option Z;
}.

(** References to a driver client object, to a timer made by
    [setTimeout], and to a statement in flight. *)
Definition ClientRef := nat.
Definition TimerId := nat.
Definition QueryId := nat.

(** [interface ConnectionTimestamp] *)
Record ConnectionTimestamp := {
  acquiredAt : Z;
  options : option ConnectionOptions;
  processID : option nat;
  queryTimeoutTimer : option TimerId;
}.

Inductive LogLevel := DEBUG | INFO | WARNING | ERROR.

(** Who awaits a promise of the pool or of the driver: a [getConnection]
    call, named by its [internalConnectionId], or the callback of a
    timer. *)
Inductive Caller :=
  | Acquiring (id : string)
  | Cancelling (t : TimerId).

(** What the manager does to the outside, in order. *)
Inductive Output :=
  | Log (level : LogLevel) (msg : string)
  | EmitError (e : JsError)
  | EmitConnectionStatus (n : Z)
  | PoolConnect (who : Caller)
  | DriverQuery (c : ClientRef) (sql : string) (who : option Caller)
  | DriverRelease (c : ClientRef) (destroy : bool)
  | Settled (id : string) (r : completion ClientRef)
  | Unhandled (e : JsError).

(** The locals of one [getConnection] call, which its closures (the
    wrapped [query], the timer callbacks) go on sharing after the call
    has returned, and the [await] the call is suspended at ([Running]:
    at none). *)
Inductive Stage := Connecting | SettingIsolation | SettingReadOnly | Running.

Record Acquisition := {
  acquisitionStartTime : Z;
  requested : option ConnectionOptions;
  stage : Stage;
  leased : option ClientRef;
  currentQueryTimeoutTimer : option TimerId;
}.

(** The closure [setTimeout] was given by the wrapper of [timerLease]. *)
Record TimerCallback := {
  timerLease : string;
  currentClientProcessID : option nat;
}.

(** A timer callback suspended at one of its two [await]s. *)
Inductive CancelStage :=
  | CancelConnecting
  | CancelQuerying (cancelClient : ClientRef).

Record Cancellation := {
  cancelLease : string;
  cancelPID : nat;
  cancelStage : CancelStage;
}.

(** A statement the driver has not settled yet: the wrapper whose
    [then]/[catch] callbacks hang on its promise, and who awaits it. *)
Record InFlight := {
  viaWrapper : option string;
  awaitedBy : option Caller;
}.

(** Listeners of a client's ['error'] event: the one [getConnection]
    adds with [client.on], and the one a wrapper adds with [client.once]
    when the driver's [query] returned no promise. *)
Inductive ErrorListener :=
  | ForcedRelease
  | ClearTimer (id : string).

(** The properties of a driver client object that the manager reads or
    patches.  [queryWrapper = Some id] says that [client.query] is the
    wrapper installed by the [getConnection] call [id]; [None] says that
    it is the driver's own method, which is what [_originalQuery] saves
    and restores. *)
Record Client := {
  clientProcessID : option nat;
  connectionIdSymbol : option string;
  queryWrapper : option string;
  hasOriginalQuery : bool;
  releasePatched : bool;
  hasOriginalRelease : bool;
  errorHandlers : list ErrorListener;
  endHandlers : list string;
}.

Record State := {
  errorListeners : nat;
  metrics : ConnectionPoolMetrics;
  connectionTimestamps : gmap string ConnectionTimestamp;
  acquisitions : gmap string Acquisition;
  clients : gmap ClientRef Client;
  checkedOut : gset ClientRef;
  destroyed : gset ClientRef;
  timers : gmap TimerId TimerCallback;
  cancellations : gmap TimerId Cancellation;
  queries : gmap QueryId InFlight;
  next : nat;
  out : list Output;
}.

(** *** Field assignments *)

Definition set_errorListeners (x : nat) (s : State) :=
  {| errorListeners := x; metrics := metrics s;
     connectionTimestamps := connectionTimestamps s;
     acquisitions := acquisitions s; clients := clients s;
     checkedOut := checkedOut s; destroyed := destroyed s; timers := timers s;
     cancellations := cancellations s; queries := queries s; next := next s;
     out := out s |}.

Definition set_metrics (x : ConnectionPoolMetrics) (s : State) :=
  {| errorListeners := errorListeners s; metrics := x;
     connectionTimestamps := connectionTimestamps s;
     acquisitions := acquisitions s; clients := clients s;
     checkedOut := checkedOut s; destroyed := destroyed s; timers := timers s;
     cancellations := cancellations s; queries := queries s; next := next s;
     out := out s |}.

Definition set_connectionTimestamps (x : gmap string ConnectionTimestamp) (s : State) :=
  {| errorListeners := errorListeners s; metrics := metrics s;
     connectionTimestamps := x;
     acquisitions := acquisitions s; clients := clients s;
     checkedOut := checkedOut s; destroyed := destroyed s; timers := timers s;
     cancellations := cancellations s; queries := queries s; next := next s;
     out := out s |}.

Definition set_acquisitions (x : gmap string Acquisition) (s : State) :=
  {| errorListeners := errorListeners s; metrics := metrics s;
     connectionTimestamps := connectionTimestamps s;
     acquisitions := x; clients := clients s;
     checkedOut := checkedOut s; destroyed := destroyed s; timers := timers s;
     cancellations := cancellations s; queries := queries s; next := next s;
     out := out s |}.

Definition set_clients (x : gmap ClientRef Client) (s : State) :=
  {| errorListeners := errorListeners s; metrics := metrics s;
     connectionTimestamps := connectionTimestamps s;
     acquisitions := acquisitions s; clients := x;
     checkedOut := checkedOut s; destroyed := destroyed s; timers := timers s;
     cancellations := cancellations s; queries := queries s; next := next s;
     out := out s |}.

Definition set_checkedOut (x : gset ClientRef) (s : State) :=
  {| errorListeners := errorListeners s; metrics := metrics s;
     connectionTimestamps := connectionTimestamps s;
     acquisitions := acquisitions s; clients := clients s;
     checkedOut := x; destroyed := destroyed s; timers := timers s;
     cancellations := cancellations s; queries := queries s; next := next s;
     out := out s |}.

Definition set_destroyed (x : gset ClientRef) (s : State) :=
  {| errorListeners := errorListeners s; metrics := metrics s;
     connectionTimestamps := connectionTimestamps s;
     acquisitions := acquisitions s; clients := clients s;
     checkedOut := checkedOut s; destroyed := x; timers := timers s;
     cancellations := cancellations s; queries := queries s; next := next s;
     out := out s |}.

Definition set_timers (x : gmap TimerId TimerCallback) (s : State) :=
  {| errorListeners := errorListeners s; metrics := metrics s;
     connectionTimestamps := connectionTimestamps s;
     acquisitions := acquisitions s; clients := clients s;
     checkedOut := checkedOut s; destroyed := destroyed s; timers := x;
     cancellations := cancellations s; queries := queries s; next := next s;
     out := out s |}.

Definition set_cancellations (x : gmap TimerId Cancellation) (s : State) :=
  {| errorListeners := errorListeners s; metrics := metrics s;
     connectionTimestamps := connectionTimestamps s;
     acquisitions := acquisitions s; clients := clients s;
     checkedOut := checkedOut s; destroyed := destroyed s; timers := timers s;
     cancellations := x; queries := queries s; next := next s;
     out := out s |}.

Definition set_queries (x : gmap QueryId InFlight) (s : State) :=
  {| errorListeners := errorListeners s; metrics := metrics s;
     connectionTimestamps := connectionTimestamps s;
     acquisitions := acquisitions s; clients := clients s;
     checkedOut := checkedOut s; destroyed := destroyed s; timers := timers s;
     cancellations := cancellations s; queries := x; next := next s;
     out := out s |}.

Definition set_next (x : nat) (s : State) :=
  {| errorListeners := errorListeners s; metrics := metrics s;
     connectionTimestamps := connectionTimestamps s;
     acquisitions := acquisitions s; clients := clients s;
     checkedOut := checkedOut s; destroyed := destroyed s; timers := timers s;
     cancellations := cancellations s; queries := queries s; next := x;
     out := out s |}.

Definition set_out (x : list Output) (s : State) :=
  {| errorListeners := errorListeners s; metrics := metrics s;
     connectionTimestamps := connectionTimestamps s;
     acquisitions := acquisitions s; clients := clients s;
     checkedOut := checkedOut s; destroyed := destroyed s; timers := timers s;
     cancellations := cancellations s; queries := queries s; next := next s;
     out := x |}.

Definition set_totalConnectionsCreated (x : Z) (m : ConnectionPoolMetrics) :=
  {| totalConnectionsCreated := x; acquiredConnections := acquiredConnections m;
     releasedConnections := releasedConnections m;
     failedAcquisitions := failedAcquisitions m;
     activeLeasedConnections := activeLeasedConnections m;
     maxConcurrentLeasedConnections := maxConcurrentLeasedConnections m;
     connectionDurations := connectionDurations m;
     connectionHistory := connectionHistory m;
     lastMetricsResetTime := lastMetricsResetTime m;
     poolTotalCount := poolTotalCount m; poolIdleCount := poolIdleCount m;
     poolWaitingCount := poolWaitingCount m |}.

Definition set_acquiredConnections (x : Z) (m : ConnectionPoolMetrics) :=
  {| totalConnectionsCreated := totalConnectionsCreated m; acquiredConnections := x;
     releasedConnections := releasedConnections m;
     failedAcquisitions := failedAcquisitions m;
     activeLeasedConnections := activeLeasedConnections m;
     maxConcurrentLeasedConnections := maxConcurrentLeasedConnections m;
     connectionDurations := connectionDurations m;
     connectionHistory := connectionHistory m;
     lastMetricsResetTime := lastMetricsResetTime m;
     poolTotalCount := poolTotalCount m; poolIdleCount := poolIdleCount m;
     poolWaitingCount := poolWaitingCount m |}.

Definition set_releasedConnections (x : Z) (m : ConnectionPoolMetrics) :=
  {| totalConnectionsCreated := totalConnectionsCreated m;
     acquiredConnections := acquiredConnections m;
     releasedConnections := x;
     failedAcquisitions := failedAcquisitions m;
     activeLeasedConnections := activeLeasedConnections m;
     maxConcurrentLeasedConnections := maxConcurrentLeasedConnections m;
     connectionDurations := connectionDurations m;
     connectionHistory := connectionHistory m;
     lastMetricsResetTime := lastMetricsResetTime m;
     poolTotalCount := poolTotalCount m; poolIdleCount := poolIdleCount m;
     poolWaitingCount := poolWaitingCount m |}.

Definition set_failedAcquisitions (x : Z) (m : ConnectionPoolMetrics) :=
  {| totalConnectionsCreated := totalConnectionsCreated m;
     acquiredConnections := acquiredConnections m;
     releasedConnections := releasedConnections m;
     failedAcquisitions := x;
     activeLeasedConnections := activeLeasedConnections m;
     maxConcurrentLeasedConnections := maxConcurrentLeasedConnections m;
     connectionDurations := connectionDurations m;
     connectionHistory := connectionHistory m;
     lastMetricsResetTime := lastMetricsResetTime m;
     poolTotalCount := poolTotalCount m; poolIdleCount := poolIdleCount m;
     poolWaitingCount := poolWaitingCount m |}.

Definition set_activeLeasedConnections (x : Z) (m : ConnectionPoolMetrics) :=
  {| totalConnectionsCreated := totalConnectionsCreated m;
     acquiredConnections := acquiredConnections m;
     releasedConnections := releasedConnections m;
     failedAcquisitions := failedAcquisitions m;
     activeLeasedConnections := x;
     maxConcurrentLeasedConnections := maxConcurrentLeasedConnections m;
     connectionDurations := connectionDurations m;
     connectionHistory := connectionHistory m;
     lastMetricsResetTime := lastMetricsResetTime m;
     poolTotalCount := poolTotalCount m; poolIdleCount := poolIdleCount m;
     poolWaitingCount := poolWaitingCount m |}.

Definition set_maxConcurrentLeasedConnections (x : Z) (m : ConnectionPoolMetrics) :=
  {| totalConnectionsCreated := totalConnectionsCreated m;
     acquiredConnections := acquiredConnections m;
     releasedConnections := releasedConnections m;
     failedAcquisitions := failedAcquisitions m;
     activeLeasedConnections := activeLeasedConnections m;
     maxConcurrentLeasedConnections := x;
     connectionDurations := connectionDurations m;
     connectionHistory := connectionHistory m;
     lastMetricsResetTime := lastMetricsResetTime m;
     poolTotalCount := poolTotalCount m; poolIdleCount := poolIdleCount m;
     poolWaitingCount := poolWaitingCount m |}.

Definition set_connectionDurations (x : list Z) (m : ConnectionPoolMetrics) :=
  {| totalConnectionsCreated := totalConnectionsCreated m;
     acquiredConnections := acquiredConnections m;
     releasedConnections := releasedConnections m;
     failedAcquisitions := failedAcquisitions m;
     activeLeasedConnections := activeLeasedConnections m;
     maxConcurrentLeasedConnections := maxConcurrentLeasedConnections m;
     connectionDurations := x;
     connectionHistory := connectionHistory m;
     lastMetricsResetTime := lastMetricsResetTime m;
     poolTotalCount := poolTotalCount m; poolIdleCount := poolIdleCount m;
     poolWaitingCount := poolWaitingCount m |}.

Definition set_connectionHistory (x : list HistoryEvent) (m : ConnectionPoolMetrics) :=
  {| totalConnectionsCreated := totalConnectionsCreated m;
     acquiredConnections := acquiredConnections m;
     releasedConnections := releasedConnections m;
     failedAcquisitions := failedAcquisitions m;
     activeLeasedConnections := activeLeasedConnections m;
     maxConcurrentLeasedConnections := maxConcurrentLeasedConnections m;
     connectionDurations := connectionDurations m;
     connectionHistory := x;
     lastMetricsResetTime := lastMetricsResetTime m;
     poolTotalCount := poolTotalCount m; poolIdleCount := poolIdleCount m;
     poolWaitingCount := poolWaitingCount m |}.

Definition set_lastMetricsResetTime (x : option Z) (m : ConnectionPoolMetrics) :=
  {| totalConnectionsCreated := totalConnectionsCreated m;
     acquiredConnections := acquiredConnections m;
     releasedConnections := releasedConnections m;
     failedAcquisitions := failedAcquisitions m;
     activeLeasedConnections := activeLeasedConnections m;
     maxConcurrentLeasedConnections := maxConcurrentLeasedConnections m;
     connectionDurations := connectionDurations m;
     connectionHistory := connectionHistory m;
     lastMetricsResetTime := x;
     poolTotalCount := poolTotalCount m; poolIdleCount := poolIdleCount m;
     poolWaitingCount := poolWaitingCount m |}.

Definition set_queryTimeoutTimer (x : option TimerId) (d : ConnectionTimestamp) :=
  {| acquiredAt := acquiredAt d; options := options d; processID := processID d;
     queryTimeoutTimer := x |}.

Definition set_stage (x : Stage) (a : Acquisition) :=
  {| acquisitionStartTime := acquisitionStartTime a; requested := requested a;
     stage := x; leased := leased a;
     currentQueryTimeoutTimer := currentQueryTimeoutTimer a |}.

Definition set_leased (x : option ClientRef) (a : Acquisition) :=
  {| acquisitionStartTime := acquisitionStartTime a; requested := requested a;
     stage := stage a; leased := x;
     currentQueryTimeoutTimer := currentQueryTimeoutTimer a |}.

Definition set_currentQueryTimeoutTimer (x : option TimerId) (a : Acquisition) :=
  {| acquisitionStartTime := acquisitionStartTime a; requested := requested a;
     stage := stage a; leased := leased a;
     currentQueryTimeoutTimer := x |}.

Definition set_connectionIdSymbol (x : option string) (c : Client) :=
  {| clientProcessID := clientProcessID c; connectionIdSymbol := x;
     queryWrapper := queryWrapper c; hasOriginalQuery := hasOriginalQuery c;
     releasePatched := releasePatched c; hasOriginalRelease := hasOriginalRelease c;
     errorHandlers := errorHandlers c; endHandlers := endHandlers c |}.

Definition set_query (wrapper : option string) (saved : bool) (c : Client) :=
  {| clientProcessID := clientProcessID c; connectionIdSymbol := connectionIdSymbol c;
     queryWrapper := wrapper; hasOriginalQuery := saved;
     releasePatched := releasePatched c; hasOriginalRelease := hasOriginalRelease c;
     errorHandlers := errorHandlers c; endHandlers := endHandlers c |}.

Definition set_releasePatched (x : bool) (c : Client) :=
  {| clientProcessID := clientProcessID c; connectionIdSymbol := connectionIdSymbol c;
     queryWrapper := queryWrapper c; hasOriginalQuery := hasOriginalQuery c;
     releasePatched := x; hasOriginalRelease := hasOriginalRelease c;
     errorHandlers := errorHandlers c; endHandlers := endHandlers c |}.

Definition set_hasOriginalRelease (x : bool) (c : Client) :=
  {| clientProcessID := clientProcessID c; connectionIdSymbol := connectionIdSymbol c;
     queryWrapper := queryWrapper c; hasOriginalQuery := hasOriginalQuery c;
     releasePatched := releasePatched c; hasOriginalRelease := x;
     errorHandlers := errorHandlers c; endHandlers := endHandlers c |}.

Definition set_errorHandlers (x : list ErrorListener) (c : Client) :=
  {| clientProcessID := clientProcessID c; connectionIdSymbol := connectionIdSymbol c;
     queryWrapper := queryWrapper c; hasOriginalQuery := hasOriginalQuery c;
     releasePatched := releasePatched c; hasOriginalRelease := hasOriginalRelease c;
     errorHandlers := x; endHandlers := endHandlers c |}.

Definition set_endHandlers (x : list string) (c : Client) :=
  {| clientProcessID := clientProcessID c; connectionIdSymbol := connectionIdSymbol c;
     queryWrapper := queryWrapper c; hasOriginalQuery := hasOriginalQuery c;
     releasePatched := releasePatched c; hasOriginalRelease := hasOriginalRelease c;
     errorHandlers := errorHandlers c; endHandlers := x |}.


(** *** What the manager stands on *)

Definition output (o : Output) : M State unit :=
  modify (λ s, set_out (out s ++ [o])%list s).

(** [Logger.write(message, level, metadata)] *)
Definition log (level : LogLevel) (msg : string) : M State unit :=
  output (Log level msg).

(** [this.emit('error', e)].  The manager extends Node's [EventEmitter],
    whose [emit] throws the error itself when nobody listens for
    ['error']. *)
Definition emit_error (e : JsError) : M State unit :=
  s ← get;
  if errorListeners s is O then throw e else output (EmitError e).

Definition modify_metrics (f : ConnectionPoolMetrics → ConnectionPoolMetrics)
    : M State unit :=
  modify (λ s, set_metrics (f (metrics s)) s).

(** Reading and assigning properties of a client object. *)
Definition blank (pid : option nat) : Client :=
  {| clientProcessID := pid; connectionIdSymbol := None; queryWrapper := None;
     hasOriginalQuery := false; releasePatched := false;
     hasOriginalRelease := false; errorHandlers := []; endHandlers := [] |}.

Definition read_client (c : ClientRef) : M State Client :=
  s ← get; mret (default (blank None) (clients s !! c)).

Definition update_client (c : ClientRef) (f : Client → Client) : M State unit :=
  modify (λ s, set_clients (alter f c (clients s)) s).

Definition update_acquisition (id : string) (f : Acquisition → Acquisition)
    : M State unit :=
  modify (λ s, set_acquisitions (alter f id (acquisitions s)) s).

(** A fresh reference for a timer or a statement. *)
Definition fresh : M State nat :=
  s ← get; modify (set_next (S (next s)));; mret (next s).

(** [setTimeout(callback, this.QUERY_TIMEOUT_MS)] and
    [if (timer) clearTimeout(timer)].  When a pending timer fires is for
    the environment to say. *)
Definition setTimeout (callback : TimerCallback) : M State TimerId :=
  t ← fresh;
  modify (λ s, set_timers (<[t := callback]> (timers s)) s);;
  mret t.

Definition clearTimeout (timer : option TimerId) : M State unit :=
  match timer with
  | Some t => modify (λ s, set_timers (delete t (timers s)) s)
  | None => mret tt
  end.

(** The driver's pool: the clients it has handed out and not got back,
    and the clients it has destroyed.  [checkout] is what resolving
    [pool.connect()] does to a client (the pool assigns [client.release]
    anew each time); [driver_release] is the [release] the pool assigned,
    which destroys the client when its argument is truthy. *)
Definition checkout (c : ClientRef) : M State unit :=
  modify (λ s, set_checkedOut (checkedOut s ∪ {[c]}) s);;
  update_client c (set_releasePatched false).

Definition driver_release (c : ClientRef) (destroy : bool) : M State unit :=
  modify (λ s, set_checkedOut (checkedOut s ∖ {[c]}) s);;
  (if destroy then modify (λ s, set_destroyed (destroyed s ∪ {[c]}) s) else mret tt);;
  output (DriverRelease c destroy).

(** The driver's own [query]: the statement is sent and stays in flight
    until the environment settles it. *)
Definition driver_query (c : ClientRef) (sql : string) (wrapper : option string)
    (who : option Caller) : M State unit :=
  output (DriverQuery c sql who);;
  q ← fresh;
  modify (λ s, set_queries (<[q := {| viaWrapper := wrapper; awaitedBy := who |}]>
                              (queries s)) s).

(** The rest is about a manager made with [poolConfig.max = max].
    [capacity], which is [poolOptions.max || 10], is the number of
    clients the driver's pool hands out at most. *)
Section Configured.
Variable max : option nat.

Definition capacity : nat :=
  match max with
  | Some (S n) => S n
  | _ => 10
  end.

(** *** Methods *)

Definition MAX_HISTORY_SIZE : nat := 200.
Definition QUERY_TIMEOUT_MS : Z := 10000.

(** [private initializeMetrics()] *)
Definition initializeMetrics (created : Z) : ConnectionPoolMetrics :=
  {| totalConnectionsCreated := 0; acquiredConnections := 0;
     releasedConnections := 0; failedAcquisitions := 0;
     activeLeasedConnections := 0; maxConcurrentLeasedConnections := 0;
     connectionDurations := []; connectionHistory := [];
     lastMetricsResetTime := Some created;
     poolTotalCount := Some 0%Z; poolIdleCount := Some 0%Z;
     poolWaitingCount := Some 0%Z |}.

(** The constructor. *)
Definition new_pool (created : Z) : State :=
  {| errorListeners := 0; metrics := initializeMetrics created;
     connectionTimestamps := ∅; acquisitions := ∅; clients := ∅;
     checkedOut := ∅; destroyed := ∅; timers := ∅; cancellations := ∅;
     queries := ∅; next := 0;
     out := [Log INFO "Connection pool created"] |}.

(** [this.metrics.connectionHistory.push(x)] and then [shift()] when the
    array is longer than [MAX_HISTORY_SIZE]. *)
Definition pushed (h : list HistoryEvent) (x : HistoryEvent) : list HistoryEvent :=
  if decide (MAX_HISTORY_SIZE < length (h ++ [x]))%nat then tail (h ++ [x])%list
  else (h ++ [x])%list.
Arguments pushed : simpl never.

(** [private addHistory(type, connectionId?, durationMs?, error?)] *)
Definition addHistory (ty : HistoryType) (now : Z) (id : option string)
    (dur : option Z) (err : option string) : M State unit :=
  modify_metrics (λ m,
    set_connectionHistory
      (pushed (connectionHistory m)
         {| type := ty; timestamp := now; connectionId := id;
            durationMs := dur; error := err |}) m).

(** [private emitConnectionStatus()] *)
Definition emitConnectionStatus : M State unit :=
  s ← get; output (EmitConnectionStatus (activeLeasedConnections (metrics s))).

(** [private performClientRelease(client, errorIndication?, forceDiscardOption?)] *)
Definition performClientRelease (c : ClientRef) (errorIndication : option JsError)
    (forceDiscardOption : option bool) (now : Z) : M State unit :=
  cl ← read_client c;
  let internalConnectionId := connectionIdSymbol cl in
  (if hasOriginalQuery cl then update_client c (set_query None false) else mret tt);;
  s ← get;
  match internalConnectionId ≫= λ id, (id,.) <$> connectionTimestamps s !! id with
  | None =>
      log INFO "performClientRelease called on an untracked or already processed client.";;
      if hasOriginalRelease cl then
        driver_release c
          (bool_decide (is_Some errorIndication)
           || bool_decide (forceDiscardOption = Some true));;
        update_client c (set_hasOriginalRelease false)
      else mret tt
  | Some (id, connectionDetails) =>
      match queryTimeoutTimer connectionDetails with
      | Some t =>
          clearTimeout (Some t);;
          modify (λ s, set_connectionTimestamps
                         (alter (set_queryTimeoutTimer None) id (connectionTimestamps s)) s)
      | None => mret tt
      end;;
      let durationMs := (now - acquiredAt connectionDetails)%Z in
      modify_metrics (λ m, set_releasedConnections (releasedConnections m + 1) m);;
      modify_metrics (λ m, set_activeLeasedConnections
                             (Z.max 0 (activeLeasedConnections m - 1)) m);;
      modify_metrics (λ m, set_connectionDurations
                             (connectionDurations m ++ [durationMs])%list m);;
      addHistory (if errorIndication is Some _ then client_error_released else released)
        now (Some id) (Some durationMs) (message <$> errorIndication);;
      modify (λ s, set_connectionTimestamps (delete id (connectionTimestamps s)) s);;
      update_client c (set_connectionIdSymbol None);;
      log INFO "Performing client release.";;
      (if hasOriginalRelease cl then
         let shouldDiscard :=
           bool_decide (is_Some errorIndication)
           || bool_decide (forceDiscardOption = Some true) in
         driver_release c shouldDiscard;;
         update_client c (set_hasOriginalRelease false)
       else
         log ERROR "CRITICAL: Original release function not found on client during performClientRelease.");;
      emitConnectionStatus
  end.

(** [public async releaseConnection(client, options?)] *)
Definition releaseConnection (c : ClientRef) (err : option JsError)
    (forceDiscard : option bool) (now : Z) : M State unit :=
  log DEBUG "Explicit public releaseConnection called.";;
  performClientRelease c err forceDiscard now.

(** [public resetMetrics()] *)
Definition resetMetrics (now : Z) : M State unit :=
  s ← get;
  let oldMaxConcurrent := maxConcurrentLeasedConnections (metrics s) in
  modify (set_metrics (initializeMetrics now));;
  modify_metrics (set_maxConcurrentLeasedConnections oldMaxConcurrent);;
  modify_metrics (set_lastMetricsResetTime (Some now));;
  log INFO "Connection pool metrics reset.".


(** The function [getConnection] assigns to [client.query], as the
    closure of the call [id] runs it: [leased a] is the closure's
    [client], [currentQueryTimeoutTimer a] its mutable local, and the
    closure's [connectionDetails] is the object stored under [id] in
    [connectionTimestamps].  [thenable] says whether the driver's [query]
    returns a promise for these arguments (it does unless it is given a
    callback). *)
Definition arm_timer (id : string) (a : Acquisition) (c : ClientRef) : M State unit :=
  clearTimeout (currentQueryTimeoutTimer a);;
  cl ← read_client c;
  t ← setTimeout {| timerLease := id;
                    currentClientProcessID := clientProcessID cl |};
  update_acquisition id (set_currentQueryTimeoutTimer (Some t));;
  modify (λ s, set_connectionTimestamps
                 (alter (set_queryTimeoutTimer (Some t)) id (connectionTimestamps s)) s).

Definition wrapped_query (id : string) (sql : string) (thenable : bool)
    (who : option Caller) : M State unit :=
  s ← get;
  match acquisitions s !! id, acquisitions s !! id ≫= leased with
  | Some a, Some c =>
      arm_timer id a c;;
      driver_query c sql (if thenable then Some id else None) who;;
      if thenable then mret tt
      else
        update_client c (λ cl, set_endHandlers (endHandlers cl ++ [id])%list cl);;
        update_client c (λ cl, set_errorHandlers
                                 (errorHandlers cl ++ [ClearTimer id])%list cl)
  | _, _ => mret tt
  end.

(** [client.query(...)], whichever function the property holds. *)
Definition client_query (c : ClientRef) (sql : string) (thenable : bool)
    (who : option Caller) : M State unit :=
  cl ← read_client c;
  match queryWrapper cl with
  | Some id => wrapped_query id sql thenable who
  | None => driver_query c sql None who
  end.

(** [client.release(errOrBool)], whichever function the property holds. *)
Inductive ReleaseArg :=
  | NoArg
  | WithError (e : JsError)
  | WithFlag (b : bool).

Definition client_release (c : ClientRef) (arg : ReleaseArg) (now : Z) : M State unit :=
  cl ← read_client c;
  if releasePatched cl then
    performClientRelease c
      (if arg is WithError e then Some e else None)
      (if arg is WithFlag b then Some b else None) now
  else
    driver_release c
      (match arg with NoArg => false | WithError _ => true | WithFlag b => b end).

(** The [then] and [catch] callbacks a wrapper hangs on the promise of
    its statement, and the [once] listeners it adds otherwise. *)
Definition clear_current_timer (id : string) : M State unit :=
  s ← get;
  match acquisitions s !! id with
  | Some a => clearTimeout (currentQueryTimeoutTimer a)
  | None => mret tt
  end.

(** *** The timer callback *)

Definition timeout_error : JsError :=
  Error ("Query timed out after " ++ pretty QUERY_TIMEOUT_MS
         ++ "ms. Cancellation attempted.").

(** The last statement of the callback. *)
Definition release_timed_out (id : string) (now : Z) : M State unit :=
  s ← get;
  match acquisitions s !! id ≫= leased with
  | Some c => performClientRelease c (Some timeout_error) None now
  | None => mret tt
  end.

(** From the start of the callback to its first [await], or to its end
    when [client.processID] was not available. *)
Definition timer_callback (t : TimerId) (callback : TimerCallback) (now : Z)
    : M State unit :=
  log WARNING "Query timeout detected. Attempting pg_cancel_backend...";;
  emit_error (DatabaseConnectionError "Query timeout detected");;
  match currentClientProcessID callback with
  | Some (S n) =>
      log INFO ("Attempting to acquire separate client to cancel PID: " ++ pretty (S n));;
      output (PoolConnect (Cancelling t));;
      modify (λ s, set_cancellations
                     (<[t := {| cancelLease := timerLease callback; cancelPID := S n;
                                cancelStage := CancelConnecting |}]> (cancellations s)) s)
  | _ =>
      log WARNING "Cannot attempt pg_cancel_backend: client.processID is not available.";;
      release_timed_out (timerLease callback) now
  end.

(** From [await this.pool.connect()] to the next [await], or through
    [catch] and [finally] to the end. *)
Definition cancel_connected (t : TimerId) (k : Cancellation)
    (r : completion ClientRef) (now : Z) : M State unit :=
  match r with
  | Return cancelClient =>
      checkout cancelClient;;
      client_query cancelClient "SELECT pg_cancel_backend($1)" true (Some (Cancelling t));;
      modify (λ s, set_cancellations
                     (<[t := {| cancelLease := cancelLease k; cancelPID := cancelPID k;
                                cancelStage := CancelQuerying cancelClient |}]>
                        (cancellations s)) s)
  | Throw cancelError =>
      log ERROR ("Failed to execute pg_cancel_backend for PID "
                 ++ pretty (cancelPID k) ++ ".");;
      modify (λ s, set_cancellations (delete t (cancellations s)) s);;
      release_timed_out (cancelLease k) now
  end.

(** From [await cancelClient.query(...)] to the end. *)
Definition cancel_queried (t : TimerId) (k : Cancellation) (cancelClient : ClientRef)
    (r : completion unit) (now : Z) : M State unit :=
  match r with
  | Return _ => log INFO ("pg_cancel_backend for PID " ++ pretty (cancelPID k) ++ " sent.")
  | Throw cancelError =>
      log ERROR ("Failed to execute pg_cancel_backend for PID "
                 ++ pretty (cancelPID k) ++ ".")
  end;;
  client_release cancelClient NoArg now;;
  modify (λ s, set_cancellations (delete t (cancellations s)) s);;
  release_timed_out (cancelLease k) now.

(** *** [public async getConnection(options?)] *)

(** The promise the call returned settles. *)
Definition settle (id : string) (r : completion ClientRef) : M State unit :=
  output (Settled id r).

(** The [catch] clause. *)
Definition getConnection_catch (id : string) (a : Acquisition) (now : Z)
    (error : JsError) : M State (option ClientRef) :=
  let acquisitionDurationMs := (now - acquisitionStartTime a)%Z in
  modify_metrics (λ m, set_failedAcquisitions (failedAcquisitions m + 1) m);;
  addHistory failed_acquire now (Some id) (Some acquisitionDurationMs)
    (Some (message error));;
  log ERROR "Failed to acquire database connection.";;
  emit_error error;;
  throw (DatabaseConnectionError ("Failed to acquire connection: " ++ message error)).

(** The two setup statements; [None] is returned at an [await]. *)
Definition setup_readOnly (id : string) (a : Acquisition) (c : ClientRef)
    : M State (option ClientRef) :=
  match requested a ≫= readOnly with
  | Some ro =>
      client_query c (if ro : bool then "SET TRANSACTION READ ONLY"
                      else "SET TRANSACTION READ WRITE") true (Some (Acquiring id));;
      update_acquisition id (set_stage SettingReadOnly);;
      mret None
  | None => mret (Some c)
  end.

Definition setup_isolation (id : string) (a : Acquisition) (c : ClientRef)
    : M State (option ClientRef) :=
  match requested a ≫= isolationLevel with
  | Some level =>
      if String.eqb level EmptyString then setup_readOnly id a c
      else
        client_query c ("SET TRANSACTION ISOLATION LEVEL " ++ level) true
          (Some (Acquiring id));;
        update_acquisition id (set_stage SettingIsolation);;
        mret None
  | None => setup_readOnly id a c
  end.

(** From the call to [await this.pool.connect()]. *)
Definition getConnection_called (id : string) (opts : option ConnectionOptions)
    (now : Z) : M State unit :=
  modify (λ s, set_acquisitions
                 (<[id := {| acquisitionStartTime := now; requested := opts;
                             stage := Connecting; leased := None;
                             currentQueryTimeoutTimer := None |}]> (acquisitions s)) s);;
  log DEBUG "Attempting to acquire database connection...";;
  output (PoolConnect (Acquiring id)).

(** From the client [pool.connect()] resolved with to the statement
    that assigns [client.query]. *)
Definition lease (id : string) (a : Acquisition) (c : ClientRef) (now : Z)
    : M State unit :=
  checkout c;;
  update_acquisition id (set_leased (Some c));;
  let acquisitionDurationMs := (now - acquisitionStartTime a)%Z in
  cl ← read_client c;
  let backendPID := clientProcessID cl in
  update_client c (set_connectionIdSymbol (Some id));;
  modify_metrics (λ m, set_acquiredConnections (acquiredConnections m + 1) m);;
  modify_metrics (λ m, set_activeLeasedConnections (activeLeasedConnections m + 1) m);;
  modify_metrics (λ m,
    if decide (maxConcurrentLeasedConnections m < activeLeasedConnections m)%Z
    then set_maxConcurrentLeasedConnections (activeLeasedConnections m) m else m);;
  addHistory acquired now (Some id) (Some acquisitionDurationMs) None;;
  modify (λ s, set_connectionTimestamps
                 (<[id := {| acquiredAt := acquisitionStartTime a;
                             options := requested a; processID := backendPID;
                             queryTimeoutTimer := None |}]> (connectionTimestamps s)) s);;
  log INFO "Database connection acquired successfully.";;
  update_client c (λ cl, set_errorHandlers (errorHandlers cl ++ [ForcedRelease])%list cl);;
  update_client c (set_hasOriginalRelease true);;
  update_client c (set_releasePatched true);;
  update_client c (set_query (Some id) true).

(** From there to the first setup statement, or to [return client]. *)
Definition getConnection_connected (id : string) (a : Acquisition) (c : ClientRef)
    (now : Z) : M State (option ClientRef) :=
  lease id a c now;;
  setup_isolation id a c.

(** One uninterrupted stretch of the [try] block, with the [catch]
    clause around it. *)
Definition getConnection_run (id : string) (a : Acquisition) (now : Z)
    (body : M State (option ClientRef)) : M State unit :=
  update_acquisition id (set_stage Running);;
  ((λ s,
     match try_catch body (getConnection_catch id a now) s with
     | (Return (Some c), s') => settle id (Return c) s'
     | (Return None, s') => (Return tt, s')
     | (Throw e, s') => settle id (Throw e) s'
     end) : M State unit).

(** A setup statement settled. *)
Definition getConnection_resumed (id : string) (a : Acquisition)
    (r : completion unit) (now : Z) : M State unit :=
  match leased a, stage a with
  | Some c, SettingIsolation =>
      getConnection_run id a now
        (match r with Return _ => setup_readOnly id a c | Throw e => throw e end)
  | Some c, SettingReadOnly =>
      getConnection_run id a now
        (match r with Return _ => mret (Some c) | Throw e => throw e end)
  | _, _ => mret tt
  end.

(** *** Listeners *)

(** [private setupPoolEvents()]: the listeners of ['connect'],
    ['acquire'], ['remove'] and ['error'] on the driver's pool. *)
Definition pool_on_connect : M State unit :=
  modify_metrics (λ m, set_totalConnectionsCreated (totalConnectionsCreated m + 1) m);;
  log DEBUG "A new client has connected to the DB & joined the pool.".

Definition pool_on_acquire : M State unit :=
  log DEBUG "Client acquired from pg-pool internals.".

Definition pool_on_remove : M State unit :=
  log DEBUG "Client removed from pg-pool (returned to idle or destroyed).".

Definition pool_on_error (err : JsError) : M State unit :=
  log ERROR "Idle client in pool encountered an error.";;
  emit_error err.

(** One listener of a client's ['error'] event. *)
Definition on_client_error (c : ClientRef) (err : JsError) (now : Z)
    (l : ErrorListener) : M State unit :=
  match l with
  | ForcedRelease =>
      log ERROR "Error on active client. Connection will be forcibly released.";;
      performClientRelease c (Some err) None now
  | ClearTimer id => clear_current_timer id
  end.

Fixpoint each {A} (f : A → M State unit) (l : list A) : M State unit :=
  match l with
  | [] => mret tt
  | x :: l' => f x;; each f l'
  end.

Definition persistent (l : ErrorListener) : bool :=
  match l with ForcedRelease => true | ClearTimer _ => false end.

Definition client_emits_error (c : ClientRef) (err : JsError) (now : Z) : M State unit :=
  cl ← read_client c;
  update_client c (λ cl, set_errorHandlers (List.filter persistent (errorHandlers cl)) cl);;
  each (on_client_error c err now) (errorHandlers cl).

Definition client_emits_end (c : ClientRef) : M State unit :=
  cl ← read_client c;
  update_client c (set_endHandlers []);;
  each clear_current_timer (endHandlers cl).


(** A statement settled: the callbacks of the wrapper it went through,
    and whoever awaits it.  (When the statement fails, the wrapper's
    [catch] callback runs one microtask after the code that awaits, not
    before it; the order is immaterial, since that code reads no timer and
    the two only ever delete timers.) *)
Definition query_settled (q : QueryId) (info : InFlight) (r : completion unit)
    (now : Z) : M State unit :=
  modify (λ s, set_queries (delete q (queries s)) s);;
  match viaWrapper info with
  | Some id => clear_current_timer id
  | None => mret tt
  end;;
  s ← get;
  match awaitedBy info with
  | Some (Acquiring id) =>
      match acquisitions s !! id with
      | Some a => getConnection_resumed id a r now
      | None => mret tt
      end
  | Some (Cancelling t) =>
      match cancellations s !! t with
      | Some k =>
          match cancelStage k with
          | CancelQuerying cancelClient => cancel_queried t k cancelClient r now
          | CancelConnecting => mret tt
          end
      | None => mret tt
      end
  | None => mret tt
  end.

(** *** Events

    What the environment can do to the manager, one uninterrupted run of
    the manager's code each.  [now] is the clock as that run reads it. *)
Inductive Event :=
  | ManagerOnError
  | PoolCreatesClient (c : ClientRef) (pid : option nat)
  | GetConnection (suffix : string) (opts : option ConnectionOptions) (now : Z)
  | ConnectSettles (who : Caller) (r : completion ClientRef) (now : Z)
  | ClientQuery (c : ClientRef) (sql : string) (thenable : bool)
  | QuerySettles (q : QueryId) (r : completion unit) (now : Z)
  | TimerFires (t : TimerId) (now : Z)
  | ClientRelease (c : ClientRef) (arg : ReleaseArg) (now : Z)
  | ReleaseConnection (c : ClientRef) (err : option JsError)
      (forceDiscard : option bool) (now : Z)
  | ClientError (c : ClientRef) (e : JsError) (now : Z)
  | ClientEnd (c : ClientRef)
  | ResetMetrics (now : Z)
  | PoolAcquire
  | PoolRemove
  | PoolError (e : JsError).

(** The driver's pool resolves [connect()] only with a client it has,
    has not handed out and has not destroyed, and only while fewer than
    [capacity] clients are out. *)
Definition can_settle (s : State) (r : completion ClientRef) : bool :=
  match r with
  | Return c =>
      bool_decide (is_Some (clients s !! c))
      && bool_decide (c ∉ checkedOut s)
      && bool_decide (c ∉ destroyed s)
      && bool_decide (size (checkedOut s) < capacity)%nat
  | Throw _ => true
  end.

(** The code an event runs, when the event can happen in [s].  An
    [internalConnectionId] is ["conn_"] followed by the clock and a random
    string; the two are taken to make an id that no earlier call had. *)
Definition handler (ev : Event) (s : State) : option (M State unit) :=
  match ev with
  | ManagerOnError =>
      Some (modify (λ s, set_errorListeners (S (errorListeners s)) s))
  | PoolCreatesClient c pid =>
      match clients s !! c with
      | None => Some (modify (λ s, set_clients (<[c := blank pid]> (clients s)) s);;
                      pool_on_connect)
      | Some _ => None
      end
  | GetConnection suffix opts now =>
      match acquisitions s !! ("conn_" ++ suffix) with
      | None => Some (getConnection_called ("conn_" ++ suffix) opts now)
      | Some _ => None
      end
  | ConnectSettles (Acquiring id) r now =>
      match acquisitions s !! id with
      | Some a =>
          match stage a with
          | Connecting =>
              if can_settle s r then
                Some (getConnection_run id a now
                        (match r with
                         | Return c => getConnection_connected id a c now
                         | Throw e => throw e
                         end))
              else None
          | _ => None
          end
      | None => None
      end
  | ConnectSettles (Cancelling t) r now =>
      match cancellations s !! t with
      | Some k =>
          match cancelStage k with
          | CancelConnecting =>
              if can_settle s r then Some (cancel_connected t k r now) else None
          | CancelQuerying _ => None
          end
      | None => None
      end
  | ClientQuery c sql thenable =>
      if clients s !! c is Some _ then Some (client_query c sql thenable None) else None
  | QuerySettles q r now =>
      info ← queries s !! q; Some (query_settled q info r now)
  | TimerFires t now =>
      callback ← timers s !! t;
      Some (modify (λ s, set_timers (delete t (timers s)) s);;
            timer_callback t callback now)
  | ClientRelease c arg now =>
      if clients s !! c is Some _ then Some (client_release c arg now) else None
  | ReleaseConnection c err forceDiscard now =>
      if clients s !! c is Some _ then Some (releaseConnection c err forceDiscard now)
      else None
  | ClientError c e now =>
      if clients s !! c is Some _ then Some (client_emits_error c e now) else None
  | ClientEnd c =>
      if clients s !! c is Some _ then Some (client_emits_end c) else None
  | ResetMetrics now => Some (resetMetrics now)
  | PoolAcquire => Some pool_on_acquire
  | PoolRemove => Some pool_on_remove
  | PoolError e => Some (pool_on_error e)
  end.

(** An exception nobody catches (in a timer callback: a rejected promise
    nobody handles) ends the run and leaves the state as it is. *)
Definition exec (m : M State unit) (s : State) : State :=
  match m s with
  | (Return _, s') => s'
  | (Throw e, s') => set_out (out s' ++ [Unhandled e])%list s'
  end.

Definition fire (ev : Event) (s : State) : option State :=
  m ← handler ev s; Some (exec m s).

Fixpoint run (evs : list Event) (s : State) : option State :=
  match evs with
  | [] => Some s
  | ev :: evs' => s' ← fire ev s; run evs' s'
  end.


(** *** Notions the properties are stated with *)

(** A client object once [performClientRelease] has gone over it, with
    [symbol] for its [CONNECTION_ID_SYMBOL] property. *)
Definition reset_client (symbol : option string) (cl : Client) : Client :=
  {| clientProcessID := clientProcessID cl; connectionIdSymbol := symbol;
     queryWrapper := if hasOriginalQuery cl then None else queryWrapper cl;
     hasOriginalQuery := false; releasePatched := releasePatched cl;
     hasOriginalRelease := false;
     errorHandlers := errorHandlers cl; endHandlers := endHandlers cl |}.

(** The lease the manager tracks for a client object, if any: the id in
    its [CONNECTION_ID_SYMBOL] property, when [connectionTimestamps] has
    that id. *)
Definition tracked (s : State) (cl : Client) : option (string * ConnectionTimestamp) :=
  connectionIdSymbol cl ≫= λ id, (id,.) <$> connectionTimestamps s !! id.

(** Whether [performClientRelease] asks the driver to destroy the
    client: [!!errorIndication || forceDiscardOption === true]. *)
Definition shouldDiscard (e : option JsError) (f : option bool) : bool :=
  bool_decide (is_Some e) || bool_decide (f = Some true).

(** The history entry a release of lease [id] pushes. *)
Definition release_entry (id : string) (d : ConnectionTimestamp)
    (e : option JsError) (now : Z) : HistoryEvent :=
  {| type := if e is Some _ then client_error_released else released;
     timestamp := now; connectionId := Some id;
     durationMs := Some (now - acquiredAt d)%Z; error := message <$> e |}.

(** *** The invariant

    What holds of the manager between two events.  [activeLeased] never
    counts more leases than the table tracks; a tracked lease belongs to a
    client object that the driver's pool has handed out and that carries
    the patched [release], the saved original and the lease's id; an
    object without an id carries no patch; the pool has handed out no
    more clients than its capacity; a call still waiting for
    [pool.connect()] is not tracked yet; and a pending timer is the one
    its lease records, both in the table and in the wrapper's closure. *)
Definition activeLeased (s : State) : Z := activeLeasedConnections (metrics s).

Record wf (s : State) : Prop := {
  wf_nonneg : (0 ≤ activeLeased s)%Z;
  wf_count : (activeLeased s ≤ Z.of_nat (size (connectionTimestamps s)))%Z;
  wf_owner : ∀ id, is_Some (connectionTimestamps s !! id) →
    ∃ c cl, clients s !! c = Some cl ∧ connectionIdSymbol cl = Some id;
  wf_lease : ∀ c cl id,
    clients s !! c = Some cl → connectionIdSymbol cl = Some id →
    is_Some (connectionTimestamps s !! id) ∧ c ∈ checkedOut s ∧
    releasePatched cl = true ∧ hasOriginalRelease cl = true ∧
    acquisitions s !! id ≫= leased = Some c;
  wf_patched : ∀ c cl,
    clients s !! c = Some cl → connectionIdSymbol cl = None →
    hasOriginalQuery cl = false ∧ hasOriginalRelease cl = false ∧
    queryWrapper cl = None;
  wf_wrapper : ∀ c cl id,
    clients s !! c = Some cl → queryWrapper cl = Some id →
    connectionIdSymbol cl = Some id ∧ hasOriginalQuery cl = true;
  wf_capacity : (size (checkedOut s) ≤ capacity)%nat;
  wf_pending : ∀ id a,
    acquisitions s !! id = Some a → stage a = Connecting →
    connectionTimestamps s !! id = None;
  wf_timer : ∀ t cb,
    timers s !! t = Some cb →
    ∃ d a, connectionTimestamps s !! timerLease cb = Some d ∧
           queryTimeoutTimer d = Some t ∧
           acquisitions s !! timerLease cb = Some a ∧
           currentQueryTimeoutTimer a = Some t;
}.

(** A client object as [getConnection] hands it to its caller under the
    lease [id]. *)
Definition leased_client (id : string) (cl : Client) : Client :=
  {| clientProcessID := clientProcessID cl; connectionIdSymbol := Some id;
     queryWrapper := Some id; hasOriginalQuery := true; releasePatched := true;
     hasOriginalRelease := true;
     errorHandlers := (errorHandlers cl ++ [ForcedRelease])%list;
     endHandlers := endHandlers cl |}.

(** The properties of a client object the invariant reads. *)
Definition patches (cl : Client) :=
  (connectionIdSymbol cl, queryWrapper cl, hasOriginalQuery cl,
   releasePatched cl, hasOriginalRelease cl).

(** The part of the state the invariant reads. *)
Definition view (s : State) :=
  (activeLeased s, connectionTimestamps s, acquisitions s, clients s,
   checkedOut s, timers s).

(** The timer whose callback sent a cancellation statement, and how
    many cancellation statements the callback of timer [t] has sent. *)
Definition cancel_of (o : Output) : option TimerId :=
  match o with
  | DriverQuery _ _ (Some (Cancelling t)) => Some t
  | _ => None
  end.

Definition attempts (t : TimerId) (o : list Output) : nat :=
  length (filter (λ t', t' = t) (omap cancel_of o)).

(** What the cancellation bookkeeping obeys between two events: a timer
    not made yet or still pending has sent nothing and has no callback in
    progress; a callback still waiting for its separate client has sent
    nothing; and no callback has sent more than one statement. *)
Record cancel_wf (s : State) : Prop := {
  c_fresh : ∀ t : TimerId, (next s ≤ t)%nat →
    attempts t (out s) = 0%nat ∧ timers s !! t = None ∧ cancellations s !! t = None;
  c_pending : ∀ t : TimerId, is_Some (timers s !! t) →
    attempts t (out s) = 0%nat ∧ cancellations s !! t = None;
  c_connecting : ∀ (t : TimerId) k, cancellations s !! t = Some k →
    cancelStage k = CancelConnecting → attempts t (out s) = 0%nat;
  c_once : ∀ t : TimerId, (attempts t (out s) ≤ 1)%nat;
}.

Definition cancel_view (s : State) :=
  (timers s, cancellations s, next s, omap cancel_of (out s)).

(** Code that keeps the invariant, and code that keeps the cancellation
    bookkeeping. *)
Definition keeps {A} (m : M State A) : Prop := ∀ s, wf s → wf (m s).2.

Definition ckeeps {A} (m : M State A) : Prop :=
  ∀ s, cancel_wf s → cancel_wf (m s).2.

(** The client object [c] carries the tracked lease [id], acquired as
    [d] records. *)
Definition holds (id : string) (c : ClientRef) (d : ConnectionTimestamp)
    (s : State) : Prop :=
  ∃ cl, clients s !! c = Some cl ∧ tracked s cl = Some (id, d).

(** Code that returns normally and leaves the lease [id] of [c] alone. *)
Definition frames (id : string) (c : ClientRef) (d : ConnectionTimestamp)
    {A} (m : M State A) : Prop :=
  ∀ s, wf s → holds id c d s →
       (∃ a, (m s).1 = Return a) ∧ wf (m s).2 ∧ holds id c d (m s).2.

Definition is_driver_release (o : Output) : bool :=
  match o with DriverRelease _ _ => true | _ => false end.

(** The timed-out lease [id] of client [c] has been given up in [s']:
    the last history entry is its error release with the timeout message,
    the last release the driver was asked for destroys [c], [c] is with
    the driver again, marked destroyed, and the lease is off the table. *)
Definition discarded (id : string) (c : ClientRef) (d : ConnectionTimestamp)
    (now : Z) (s' : State) : Prop :=
  last (connectionHistory (metrics s'))
  = Some {| type := client_error_released; timestamp := now;
            connectionId := Some id; durationMs := Some (now - acquiredAt d)%Z;
            error := Some "Query timed out after 10000ms. Cancellation attempted." |} ∧
  last (filter (λ o, is_driver_release o = true) (out s')) = Some (DriverRelease c true) ∧
  c ∈ destroyed s' ∧ (c ∉ checkedOut s') ∧
  connectionTimestamps s' !! id = None.

(** Code that ends with the lease [id] of [c] given up at [now]. *)
Definition discards (id : string) (c : ClientRef) (d : ConnectionTimestamp)
    (now : Z) (m : M State unit) : Prop :=
  ∀ s, wf s → holds id c d s → (m s).1 = Return tt ∧ discarded id c d now (m s).2.

(** Sample runs.  [one_lease]: a manager with an error listener leases
    its first client.  [callback_style]: a statement sent with a callback
    completes, and its timer fires all the same.  [released_meanwhile]: a
    statement's timer fires, and the caller releases the handle while the
    callback waits for its separate client.  [timing_out] and
    [timed_out]: a statement's timer fires, the callback gets its separate
    client and sends the cancellation; then that statement settles.
    [unheard]: the same timer on a manager nobody listens to.
    [setup_fails]: [getConnection] is asked for an isolation level the
    server refuses. *)
Definition one_lease : list Event :=
  [ManagerOnError; PoolCreatesClient 1 (Some 4242%nat);
   GetConnection "a" None 100; ConnectSettles (Acquiring "conn_a") (Return 1%nat) 105].

Definition callback_style : list Event :=
  one_lease ++ [ClientQuery 1 "SELECT 1" false; QuerySettles 1 (Return tt) 200;
                TimerFires 0 10110].

Definition released_meanwhile : list Event :=
  one_lease ++ [ClientQuery 1 "SELECT pg_sleep(11)" true; TimerFires 0 10110;
                QuerySettles 1 (Return tt) 11200; ClientRelease 1 NoArg 11210;
                ConnectSettles (Cancelling 0) (Return 1%nat) 11220;
                QuerySettles 2 (Throw (Error "canceling statement due to user request")) 11230].

Definition timing_out : list Event :=
  one_lease ++ [ClientQuery 1 "SELECT pg_sleep(11)" true; TimerFires 0 10110;
                PoolCreatesClient 2 (Some 4243%nat);
                ConnectSettles (Cancelling 0) (Return 2%nat) 10120].

Definition timed_out : list Event :=
  timing_out ++ [QuerySettles 2 (Return tt) 10130].

Definition in_time : list Event :=
  one_lease ++ [ClientQuery 1 "SELECT 1" true].

Definition unheard : list Event :=
  [PoolCreatesClient 1 (Some 4242%nat); GetConnection "a" None 100;
   ConnectSettles (Acquiring "conn_a") (Return 1%nat) 105;
   ClientQuery 1 "SELECT pg_sleep(11)" true; TimerFires 0 10110].

Definition setup_fails : list Event :=
  [ManagerOnError; PoolCreatesClient 1 (Some 4242%nat);
   GetConnection "a" (Some {| isolationLevel := Some "REPEATABLE_READ"; readOnly := None |}) 100;
   ConnectSettles (Acquiring "conn_a") (Return 1%nat) 105;
   QuerySettles 1 (Throw (Error "syntax error at or near REPEATABLE_READ")) 110].

(** The state a sample run ends in. *)
Definition after (evs : list Event) : State :=
  default (new_pool 0) (run evs (new_pool 0)).

End Configured.

End Pool.

(** ** TransactionManager: the accessors *)

Module TxnAccess.
Import Txn.

(** [public isActive(): boolean] *)
Definition isActive (t : TransactionManager) : bool := isTransactionActive t.

(** [public getTransactionId(): string] *)
Definition getTransactionId (t : TransactionManager) : string := requestId t.

(** [public getClient(): PoolClient] *)
Definition getClient : M World PoolClient :=
  t ← this;
  match client t, isTransactionActive t with
  | Some c, true => mret c
  | _, _ => throw (OrmError "No active transaction client")
  end.

(** [public async getStandaloneClient()]; [connect] is how
    [poolManager.getConnection()] settles. *)
Definition getStandaloneClient (connect : completion PoolClient) : M World PoolClient :=
  try_catch (call (GetConnection None);; await connect)
    (λ _, throw (OrmError "Failed to acquire database client from pool")).

(** What holds of a manager between two calls: it holds a client exactly
    while a transaction is in progress, [activeTransactions] says which,
    and the history has at most 100 entries. *)
Definition coherent (t : TransactionManager) : Prop :=
  match client t with
  | Some _ => isTransactionActive t = true ∧ activeTransactions (metrics t) = 1%Z
  | None => isTransactionActive t = false ∧ activeTransactions (metrics t) = 0%Z
  end.

Definition bounded (t : TransactionManager) : Prop :=
  (length (transactionHistory (metrics t)) ≤ 100)%nat.

(** The counters that [commit] and [rollback] move when their statement
    succeeds, and the one every other failure moves. *)
Definition same_counters (m m' : TransactionMetrics) : Prop :=
  totalTransactions m' = totalTransactions m ∧
  completedTransactions m' = completedTransactions m ∧
  committedTransactions m' = committedTransactions m ∧
  rolledBackTransactions m' = rolledBackTransactions m ∧
  failedTransactions m' = failedTransactions m ∧
  transactionDurations m' = transactionDurations m.

End TxnAccess.

(** ** BaseRepository: the clause builders

    [src/repository/BaseRepository.ts].  The builders read an entity
    through [Object.entries], [Object.keys] and property access only, and
    a value through [=== undefined] and truthiness only.  What
    [Object.entries] and [Object.keys] give is the list of the entity's own
    enumerable properties, in order (keys are distinct): an [Entity].
    Property access reads more than that list: at a key that is not in it,
    it gives what the object has there all the same, a property that is not
    enumerable or one the object inherits ([constructor] and [toString]
    from [Object.prototype], the methods of its class), and [undefined]
    only where there is none.  The builders that access properties take an
    [Instance], which says what that is at every key. *)

Module Repo.

Inductive Value :=
  | Undefined
  | Null
  | Bool (b : bool)
  | Num (n : Z)
  | Str (s : string)
  | Ref (r : nat).

Definition is_undefined (v : Value) : bool :=
  match v with Undefined => true | _ => false end.

Definition is_defined (kv : string * Value) : bool := negb (is_undefined kv.2).

(** What [||] takes for true; [Ref] is an object or a function, by
    reference. *)
Definition truthy (v : Value) : bool :=
  match v with
  | Undefined | Null => false
  | Bool b => b
  | Num n => negb (n =? 0)%Z
  | Str s => match s with EmptyString => false | _ => true end
  | Ref _ => true
  end.

Definition Entity := list (string * Value).

(** An object as property access reads it: its own enumerable
    properties, and at every other key what it has without listing it. *)
Record Instance := {
  own : Entity;
  inherited : string → Value;
}.

(** [(entity as any)[key]] *)
Definition prop (key : string) (entity : Instance) : Value :=
  match List.find (λ kv, String.eqb kv.1 key) (own entity) with
  | Some kv => kv.2
  | None => inherited entity key
  end.

(** An object literal: beyond its own properties it has the members of
    [Object.prototype], functions all but [__proto__], which is the
    prototype itself. *)
Definition Object_prototype : list string :=
  ["constructor"; "hasOwnProperty"; "isPrototypeOf"; "propertyIsEnumerable";
   "toLocaleString"; "toString"; "valueOf"; "__defineGetter__"; "__defineSetter__";
   "__lookupGetter__"; "__lookupSetter__"; "__proto__"].

Definition literal (entries : Entity) : Instance :=
  {| own := entries;
     inherited := λ key,
       match list_find (String.eqb key) Object_prototype with
       | Some (i, _) => Ref i
       | None => Undefined
       end |}.

(** [`$${parameterIndex}`] and [`${key} = $${parameterIndex}`] *)
Definition placeholder (parameterIndex : nat) : string :=
  "$" ++ pretty parameterIndex.

Definition assignment (key : string) (parameterIndex : nat) : string :=
  key ++ " = " ++ placeholder parameterIndex.

(** [arr.join(sep)] on an array of strings. *)
Definition join (sep : string) (l : list string) : string := String.concat sep l.

(** [protected getEntityColumns(entity)] *)
Record EntityColumns := {
  columns : list string;
  values : list Value;
  placeholders : list string;
}.

Definition getEntityColumns (entity : Entity) : EntityColumns :=
  let step (acc : EntityColumns * nat) (kv : string * Value) :=
    let (r, parameterIndex) := acc in
    if is_undefined kv.2 then acc
    else ({| columns := (columns r ++ [kv.1])%list;
             values := (values r ++ [kv.2])%list;
             placeholders := (placeholders r ++ [placeholder parameterIndex])%list |},
          S parameterIndex) in
  (foldl step ({| columns := []; values := []; placeholders := [] |}, 1%nat) entity).1.

(** [protected buildWhereClause(predicate)] *)
Record Where := {
  whereClause : string;
  whereValues : list Value;
}.

Definition buildWhereClause (predicate : Entity) : Where :=
  let step (acc : list string * list Value * nat) (kv : string * Value) :=
    let '(conditions, vals, parameterIndex) := acc in
    ((conditions ++ [assignment kv.1 parameterIndex])%list, (vals ++ [kv.2])%list,
     S parameterIndex) in
  let '(conditions, vals, _) := foldl step ([], [], 1%nat) predicate in
  {| whereClause := if decide (0 < length conditions)%nat
                    then "WHERE " ++ join " AND " conditions else EmptyString;
     whereValues := vals |}.

(** [protected buildUpdateSet(entity)] *)
Record UpdateSet := {
  setClause : string;
  setValues : list Value;
}.

Definition is_update_field (kv : string * Value) : bool :=
  negb (String.eqb kv.1 "id") && negb (String.eqb kv.1 "_id")
  && negb (is_undefined kv.2).

Definition buildUpdateSet (entity : Entity) : UpdateSet :=
  let step (acc : list string * list Value * nat) (kv : string * Value) :=
    let '(updates, vals, parameterIndex) := acc in
    if is_update_field kv
    then ((updates ++ [assignment kv.1 parameterIndex])%list, (vals ++ [kv.2])%list,
          S parameterIndex)
    else acc in
  let '(updates, vals, _) := foldl step ([], [], 1%nat) entity in
  {| setClause := join ", " updates; setValues := vals |}.

(** [protected buildBulkInsertClause(entities)] *)
Record BulkInsert := {
  valuesClause : string;
  insertValues : list Value;
  insertColumns : list string;
}.

Definition buildBulkInsertClause (entities : list Instance) : BulkInsert :=
  match entities with
  | [] => {| valuesClause := EmptyString; insertValues := []; insertColumns := [] |}
  | firstEntity :: _ =>
      let cols := columns (getEntityColumns (own firstEntity)) in
      let step (acc : list Value * list string * nat) (entity : Instance) :=
        let '(vals, valueSets, entityIndex) := acc in
        let entityValues := (λ column, prop column entity) <$> cols in
        let row :=
          join ", " (imap (λ i _, placeholder (entityIndex * length cols + i + 1))
                       entityValues) in
        ((vals ++ entityValues)%list, (valueSets ++ [("(" ++ row ++ ")")%string])%list,
         S entityIndex) in
      let '(vals, valueSets, _) := foldl step ([], [], 0%nat) entities in
      {| valuesClause := join ", " valueSets; insertValues := vals;
         insertColumns := cols |}
  end.

(** [protected buildBulkUpdateClause(entities)]; [None] when
    [Object.keys(entities[0])] throws its [TypeError], the array being
    empty. *)
Record BulkUpdate := {
  updateClause : string;
  updateValues : list Value;
}.

(** [(entity as any)._id || (entity as any).id] *)
Definition identifier (entity : Instance) : Value :=
  if truthy (prop "_id" entity) then prop "_id" entity else prop "id" entity.

Definition is_data_field (key : string) : bool :=
  negb (String.eqb key "id") && negb (String.eqb key "_id").

Definition buildBulkUpdateClause (entities : list Instance) : option BulkUpdate :=
  match entities with
  | [] => None
  | firstEntity :: _ =>
      let updateFields := List.filter is_data_field (own firstEntity).*1 in
      let each_entity (field : string) (acc : list string * list Value * nat)
          (entity : Instance) :=
        let '(caseStatements, vals, parameterIndex) := acc in
        let id := identifier entity in
        if negb (is_undefined id) && negb (is_undefined (prop field entity))
        then ((caseStatements ++ [("WHEN _id = " ++ placeholder parameterIndex
                                   ++ " THEN "
                                   ++ placeholder (parameterIndex + 1))%string])%list,
              (vals ++ [id; prop field entity])%list, (parameterIndex + 2)%nat)
        else acc in
      let each_field (acc : list string * list Value * nat) (field : string) :=
        let '(cases, vals, parameterIndex) := acc in
        let '(caseStatements, vals', parameterIndex') :=
          foldl (each_entity field) ([], vals, parameterIndex) entities in
        (if decide (0 < length caseStatements)%nat
         then (cases ++ [(field ++ " = (CASE " ++ join " " caseStatements
                          ++ " ELSE " ++ field ++ " END)")%string])%list
         else cases,
         vals', parameterIndex') in
      let '(cases, vals, _) := foldl each_field ([], [], 1%nat) updateFields in
      Some {| updateClause := join ", " cases; updateValues := vals |}
  end.

(** What [buildBulkUpdateClause] comes to.  An entity takes part in the
    [CASE] of a field when property access gives it an identifier and a
    value for the field, neither [undefined]; it binds the two.  The [CASE] of a field holds one [WHEN] per such entity, the
    first built from the placeholder [start]; fields without one are left
    out. *)
Definition eligible (field : string) (entity : Instance) : bool :=
  negb (is_undefined (identifier entity)) && negb (is_undefined (prop field entity)).

Definition bound (entities : list Instance) (field : string) : list Value :=
  List.filter (eligible field) entities ≫= λ entity, [identifier entity; prop field entity].

Definition whens (start n : nat) : list string :=
  (λ j, "WHEN _id = " ++ placeholder (start + 2 * j) ++ " THEN "
        ++ placeholder (start + 2 * j + 1)) <$> seq 0 n.

Fixpoint cases_from (entities : list Instance) (start : nat) (fields : list string)
    : list string :=
  match fields with
  | [] => []
  | field :: fields' =>
      let n := length (List.filter (eligible field) entities) in
      ((if decide (0 < n)%nat
        then [(field ++ " = (CASE " ++ join " " (whens start n)
               ++ " ELSE " ++ field ++ " END)")%string]
        else [])
       ++ cases_from entities (start + 2 * n) fields')%list
  end.

(** [protected buildWhereInClause(ids, startIndex = 1)] *)
Record WhereIn := {
  whereInClause : string;
  whereInValues : list string;
}.

Definition buildWhereInClause (ids : list string) (startIndex : nat) : WhereIn :=
  let row := join ", " (imap (λ index _, placeholder (startIndex + index)) ids) in
  {| whereInClause := "WHERE _id IN (" ++ row ++ ")"; whereInValues := ids |}.

(** *** [executeQuery] and [executeRawQuery]

    An error of the driver carries a message and, when the server sent
    them, an SQLSTATE [code] and the name of a [constraint]. *)
Record PgError := {
  pg_message : string;
  pg_code : option string;
  pg_constraint : option string;
}.

(** [src/errors/OrmError.ts]: what the repository throws. *)
Inductive RepoError :=
  | RepoOrmError (msg : string)
  | DatabaseConstraintError (msg : string) (constraint : option string)
  | DatabaseQueryError (msg : string) (query : string) (params : list Value)
  | RepoConnectionError (msg : string) (cause : option string).

Definition repo_message (e : RepoError) : string :=
  match e with
  | RepoOrmError m | DatabaseConstraintError m _ | DatabaseQueryError m _ _
  | RepoConnectionError m _ => m
  end.

(** The [switch (error.code)] of the [catch] clause. *)
Definition code_is (code : option string) (c : string) : bool :=
  match code with Some c' => String.eqb c' c | None => false end.

Definition classify (query : string) (params : list Value) (msg : string)
    (code constraint : option string) : RepoError :=
  if code_is code "23505"
  then DatabaseConstraintError "Unique constraint violation" constraint
  else if code_is code "23503"
  then DatabaseConstraintError "Foreign key constraint violation" constraint
  else if code_is code "23502"
  then DatabaseConstraintError "Not null constraint violation" constraint
  else if code_is code "42P01" || code_is code "42703"
  then DatabaseQueryError "Invalid query structure" query params
  else if code_is code "08006" || code_is code "08001"
  then RepoConnectionError msg code
  else RepoOrmError ("An unexpected database error occurred: " ++ msg).

(** [protected async executeQuery(query, params)] on the manager of the
    world [w]; [outcome] is how [client.query(query, params)] settles.
    What [getClient()] throws has no [code]. *)
Definition executeQuery {R} (query : string) (params : list Value)
    (outcome : PgError + R) (w : Txn.World) : (RepoError + R) * Txn.World :=
  match TxnAccess.getClient w with
  | (Return client, w1) =>
      let w2 := (Txn.call (Txn.Query client query) w1).2 in
      match outcome with
      | inr result => (inr result, w2)
      | inl error =>
          (inl (classify query params (pg_message error) (pg_code error)
                  (pg_constraint error)), w2)
      end
  | (Throw error, w1) => (inl (classify query params (message error) None None), w1)
  end.

(** [async executeRawQuery(query, values)] *)
Definition executeRawQuery {R} (query : string) (values : list Value)
    (outcome : PgError + R) (w : Txn.World) : (RepoError + R) * Txn.World :=
  match executeQuery query values outcome w with
  | (inr result, w') => (inr result, w')
  | (inl error, w') =>
      (inl (DatabaseQueryError ("Failed to execute raw query: " ++ repo_message error)
              query values), w')
  end.

End Repo.

(** ** Entity metadata and the column check of [SchemaSync]

    [src/decorators/index.ts] and [src/schema/SchemaSync.ts].  The
    metadata that the decorators store on a class are the arguments of the
    builders. *)

Module Schema.

(** The space and the double quote, and the latter as a string. *)
Definition space_char : Ascii.ascii := Ascii.ascii_of_nat 32.
Definition quote_char : Ascii.ascii := Ascii.ascii_of_nat 34.
Definition quote : string := String quote_char EmptyString.

(** What [@Column(type)] pushes. *)
Record ColumnMeta := {
  name : string;
  type : string;
}.

(** The [columnDefinitions] of [getEntityMetadata]: the name between
    double quotes, a space, the type. *)
Definition columnDefinition (col : ColumnMeta) : string :=
  quote ++ name col ++ quote ++ " " ++ type col.

(** [column.split(' ')[0]], and [replace] with the global pattern of
    one double quote and the empty replacement. *)
Fixpoint before_space (s : string) : string :=
  match s with
  | EmptyString => EmptyString
  | String c s' => if Ascii.eqb c space_char then EmptyString else String c (before_space s')
  end.

Fixpoint without_quotes (s : string) : string :=
  match s with
  | EmptyString => EmptyString
  | String c s' => if Ascii.eqb c quote_char then without_quotes s'
      else String c (without_quotes s')
  end.

(** [updateTableSchema]: the name it looks for among the current columns,
    and the definitions it adds with [ALTER TABLE ... ADD COLUMN]. *)
Definition columnName (column : string) : string :=
  without_quotes (before_space column).

Definition columns_to_add (definitions currentColumns : list string) : list string :=
  List.filter
    (λ column, negb (existsb (String.eqb (columnName column)) currentColumns))
    definitions.

(** A string with neither a space nor a double quote in it. *)
Fixpoint plain (s : string) : bool :=
  match s with
  | EmptyString => true
  | String c s' => negb (Ascii.eqb c space_char) && negb (Ascii.eqb c quote_char) && plain s'
  end.

End Schema.

(** ** SchemaSync

    [src/schema/SchemaSync.ts] on the transaction manager above, with the
    rest of [src/decorators/index.ts].  The metadata of an entity class
    are the arrays the decorators have pushed to, for a class that extends
    no decorated class; an array never defined reads as the empty one.
    Logging is left out.  Of a statement the text is recorded, not the
    parameter array, which is [[tableName]] at both places that pass
    one. *)

Module SchemaSync.
Import Txn TxnAccess Schema.

Definition newline : string := String (Ascii.ascii_of_nat 10) EmptyString.

(** [a || b] on a string that may be missing. *)
Definition or_else (a : option string) (b : string) : string :=
  match a with
  | Some s => if String.eqb s EmptyString then b else s
  | None => b
  end.

(** [interface ForeignKeyOptions] *)
Record ForeignKeyOptions := {
  table : string;
  field : string;
  onDelete : option string;
  onUpdate : option string;
  constraint : option string;
}.

(** What [@ForeignKey(options)] pushes: [column] and the fields of
    [references]. *)
Record ForeignKeyMeta := {
  fk_column : string;
  ref_table : string;
  ref_field : string;
  ref_onDelete : string;
  ref_onUpdate : string;
  ref_constraint : string;
}.

(** What [@Index(options?)] pushes. *)
Record IndexMeta := {
  ix_column : string;
  ix_unique : bool;
  ix_type : string;
}.

(** The four arrays [Reflect] holds for an entity class. *)
Record EntityMeta := {
  columns : list ColumnMeta;
  foreignKeys : list ForeignKeyMeta;
  indexes : list IndexMeta;
  compositeIndexes : list (list string);
}.

Definition undecorated : EntityMeta :=
  {| columns := []; foreignKeys := []; indexes := []; compositeIndexes := [] |}.

(** The decorators, on the property [propertyKey] (on the class, for
    [CompositeIndex]). *)
Definition Column (type : string) (propertyKey : string) (e : EntityMeta) : EntityMeta :=
  {| columns := columns e ++ [{| name := propertyKey; Schema.type := type |}];
     foreignKeys := foreignKeys e; indexes := indexes e;
     compositeIndexes := compositeIndexes e |}.

Definition ForeignKey (options : ForeignKeyOptions) (propertyKey : string)
    (e : EntityMeta) : EntityMeta :=
  {| columns := columns e;
     foreignKeys := foreignKeys e ++
       [{| fk_column := propertyKey; ref_table := table options;
           ref_field := field options;
           ref_onDelete := or_else (onDelete options) "CASCADE";
           ref_onUpdate := or_else (onUpdate options) "CASCADE";
           ref_constraint := or_else (constraint options)
                               ("fk_" ++ table options ++ "_" ++ propertyKey) |}];
     indexes := indexes e; compositeIndexes := compositeIndexes e |}.

(** [options?.unique || false] and [options?.type || 'BTREE']; the
    members of [enum IndexType] are their own texts. *)
Definition Index (unique : option bool) (type : option string) (propertyKey : string)
    (e : EntityMeta) : EntityMeta :=
  {| columns := columns e; foreignKeys := foreignKeys e;
     indexes := indexes e ++
       [{| ix_column := propertyKey; ix_unique := default false unique;
           ix_type := or_else type "BTREE" |}];
     compositeIndexes := compositeIndexes e |}.

Definition CompositeIndex (cols : list string) (e : EntityMeta) : EntityMeta :=
  {| columns := columns e; foreignKeys := foreignKeys e; indexes := indexes e;
     compositeIndexes := compositeIndexes e ++ [cols] |}.

(** [getEntityMetadata(entity)] *)
Definition constraintDefinition (fk : ForeignKeyMeta) : string :=
  "CONSTRAINT " ++ ref_constraint fk ++ " FOREIGN KEY (" ++ quote ++ fk_column fk
    ++ quote ++ ") "
  ++ "REFERENCES " ++ quote ++ ref_table fk ++ quote ++ " (" ++ quote ++ ref_field fk
    ++ quote ++ ") "
  ++ "ON DELETE " ++ ref_onDelete fk ++ " "
  ++ "ON UPDATE " ++ ref_onUpdate fk.

Record EntityMetadata := {
  columnDefinitions : list string;
  constraints : list string;
}.

Definition getEntityMetadata (e : EntityMeta) : EntityMetadata :=
  {| columnDefinitions := columnDefinition <$> columns e;
     constraints := constraintDefinition <$> foreignKeys e |}.

(** [getIndexMetadata(entity, tableName)] *)
Definition indexStatement (tableName : string) (index : IndexMeta) : string :=
  let unique := if ix_unique index then "UNIQUE " else EmptyString in
  let using_ := if String.eqb (ix_type index) EmptyString then EmptyString
                else "USING " ++ ix_type index ++ " " in
  "CREATE " ++ unique ++ "INDEX IF NOT EXISTS idx_" ++ tableName ++ "_"
    ++ ix_column index ++ " ON " ++ quote ++ tableName ++ quote ++ " " ++ using_
    ++ "(" ++ quote ++ ix_column index ++ quote ++ ");".

Definition compositeStatement (tableName : string) (cols : list string) : string :=
  let columnList := Repo.join ", " ((λ col, quote ++ col ++ quote) <$> cols) in
  "CREATE INDEX IF NOT EXISTS idx_" ++ tableName ++ "_" ++ Repo.join "_" cols
    ++ " ON " ++ quote ++ tableName ++ quote ++ " (" ++ columnList ++ ");".

Definition getIndexMetadata (e : EntityMeta) (tableName : string) : list string :=
  ((indexStatement tableName <$> indexes e)
   ++ (compositeStatement tableName <$> compositeIndexes e))%list.

(** The texts of the statements. *)
Definition checkTableExists_query : string :=
  newline ++
  "                SELECT EXISTS (" ++ newline ++
  "                    SELECT FROM information_schema.tables " ++ newline ++
  "                    WHERE table_schema = 'public' " ++ newline ++
  "                    AND table_name = $1" ++ newline ++
  "                );" ++ newline ++
  "            ".

Definition currentSchemaQuery : string :=
  newline ++
  "                SELECT column_name" ++ newline ++
  "                FROM information_schema.columns " ++ newline ++
  "                WHERE table_name = $1 AND table_schema = 'public';" ++ newline ++
  "            ".

Definition createTableQuery (tableName : string) (metadata : EntityMetadata) : string :=
  let allDefinitions :=
    Repo.join ("," ++ newline) (columnDefinitions metadata ++ constraints metadata)%list in
  newline ++
  "                CREATE TABLE IF NOT EXISTS " ++ quote ++ tableName ++ quote ++ " ("
    ++ newline ++
  "                    " ++ allDefinitions ++ newline ++
  "                );".

Definition addColumnQuery (tableName column : string) : string :=
  "ALTER TABLE " ++ quote ++ tableName ++ quote ++ " ADD COLUMN " ++ column ++ ";".

(** [await this.transactionManager.getClient().query(sql)], where the
    statements of one table are answered in order from [answers]; past
    the end of the list a statement succeeds.  What is left of the
    answers is returned. *)
Definition Answers := list (completion unit).

Definition statement (sql : string) (answers : Answers) : M World Answers :=
  c ← getClient;
  query c sql (hd (Return tt) answers);;
  mret (tl answers).

(** [for (const indexStatement of indexMetaData) await ...query(indexStatement)] *)
Fixpoint statements (sqls : list string) (answers : Answers) : M World Answers :=
  match sqls with
  | [] => mret answers
  | sql :: rest => answers' ← statement sql answers; statements rest answers'
  end.

(** [private async checkTableExists(tableName)]; the server answers the
    statement with one row whose [exists] is a boolean, or the statement
    fails. *)
Definition checkTableExists (tableName : string) (outcome : completion bool)
    : M World bool :=
  try_catch
    (c ← getClient;
     call (Query c checkTableExists_query);;
     await outcome)
    (λ error,
       throw (OrmError ("Failed to check if table " ++ tableName ++ " exists: "
                        ++ message error))).

(** [private async createTable(entity, tableName)] *)
Definition createTable (e : EntityMeta) (tableName : string) (answers : Answers)
    : M World unit :=
  try_catch
    (let metadata := getEntityMetadata e in
     let indexMetaData := getIndexMetadata e tableName in
     answers' ← statement (createTableQuery tableName metadata) answers;
     statements indexMetaData answers';;
     mret tt)
    (λ error,
       throw (OrmError ("Failed to create table " ++ tableName ++ ": "
                        ++ message error))).

(** The loop of [updateTableSchema] over [metadata.columns];
    [currentColumns] are the [column_name]s of the rows. *)
Fixpoint addColumns (tableName : string) (columns currentColumns : list string)
    (answers : Answers) : M World Answers :=
  match columns with
  | [] => mret answers
  | column :: rest =>
      let columnName := columnName column in
      let existingColumn := existsb (String.eqb columnName) currentColumns in
      answers' ← (if negb existingColumn
                  then statement (addColumnQuery tableName column) answers
                  else mret answers);
      addColumns tableName rest currentColumns answers'
  end.

(** [private async updateTableSchema(entity, tableName)] *)
Definition updateTableSchema (e : EntityMeta) (tableName : string)
    (current : completion (list string)) (answers : Answers) : M World unit :=
  try_catch
    (let metadata := getEntityMetadata e in
     let indexMetaData := getIndexMetadata e tableName in
     c ← getClient;
     call (Query c currentSchemaQuery);;
     currentColumns ← await current;
     answers' ← addColumns tableName (columnDefinitions metadata) currentColumns answers;
     statements indexMetaData answers';;
     mret tt)
    (λ error,
       throw (OrmError ("Failed to update schema for " ++ tableName ++ ": "
                        ++ message error))).

(** What the sync of one table reads from outside. *)
Record TableEnv := {
  begin_env : BeginEnv;
  table_exists : completion bool;
  current_columns : completion (list string);
  answers_of : Answers;
  commit_env : EndEnv;
  rollback_env : EndEnv;
}.

(** The body of the loop of [sync]. *)
Definition syncTable (e : EntityMeta) (tableName : string) (env : TableEnv)
    : M World unit :=
  try_catch
    (beginTransaction (begin_env env) None;;
     tableExists ← checkTableExists tableName (table_exists env);
     (if negb tableExists then createTable e tableName (answers_of env)
      else updateTableSchema e tableName (current_columns env) (answers_of env));;
     commit (commit_env env))
    (λ error,
       try_catch (rollback (rollback_env env)) (λ rollbackError, mret tt);;
       throw (OrmError ("Failed to sync table: " ++ tableName ++ ". Reason: "
                        ++ message error))).

(** [async sync(entities)] *)
Fixpoint sync (entities : list (EntityMeta * string * TableEnv)) : M World unit :=
  match entities with
  | [] => mret tt
  | (e, tableName, env) :: rest => syncTable e tableName env;; sync rest
  end.

(** A sample entity and a sample environment: the pool hands out the
    client 7, and [BEGIN], [COMMIT] and [ROLLBACK] succeed. *)
Definition user : EntityMeta :=
  Index (Some true) None "email"
    (Column "TEXT" "email" (Column "SERIAL PRIMARY KEY" "id" undecorated)).

Definition answering (tableExists : completion bool)
    (currentColumns : completion (list string)) (answers : Answers) : TableEnv :=
  {| begin_env := {| fresh_id := "tx_sync"; now := 100; connect := Return 7%nat;
                     q_begin := Return tt; q_isolation := Return tt;
                     q_readonly := Return tt; now_catch := 150 |};
     table_exists := tableExists; current_columns := currentColumns;
     answers_of := answers;
     commit_env := {| q_end := Return tt; now_end := 200 |};
     rollback_env := {| q_end := Return tt; now_end := 200 |} |}.

(** Code that sends statements and touches no field of the manager. *)
Definition sends {A} (m : M World A) : Prop := ∀ w, tm (m w).2 = tm w.

(** The manager is in a transaction on the client [c]; the world once
    the statements [sqls] have been sent on [c]. *)
Definition in_transaction (c : PoolClient) (w : World) : Prop :=
  client (tm w) = Some c ∧ isTransactionActive (tm w) = true.

Definition sending (c : PoolClient) (sqls : list string) (w : World) : World :=
  {| tm := tm w; calls := (calls w ++ (Query c <$> sqls))%list |}.

End SchemaSync.

(** ** The counters of the connection pool manager

    Notions for what [ConnectionPoolManager] keeps true of its metrics
    from one event to the next. *)

Module PoolCounts.
Import Pool.

(** Code that keeps a property of the state. *)
Definition through (P : State → Prop) {A} (m : M State A) : Prop :=
  ∀ s, P s → P (m s).2.

(** Calls of [resetMetrics()] among the events. *)
Definition is_reset (ev : Event) : bool :=
  match ev with ResetMetrics _ => true | _ => false end.

(** The listeners of a client's ['error'] event that [getConnection]
    added with [client.on]: those that force a release. *)
Definition listeners_of (cl : Client) : nat :=
  length (List.filter persistent (errorHandlers cl)).

Definition forcedReleaseListeners (c : ClientRef) (s : State) : nat :=
  listeners_of (default (blank None) (clients s !! c)).

(** The counters agree with the table of leases and with one another:
    [activeLeasedConnections] is [connectionTimestamps.size], and the
    leases acquired and not yet released are the active ones. *)
Definition exact (s : State) : Prop :=
  (activeLeasedConnections (metrics s) = Z.of_nat (size (connectionTimestamps s)) ∧
   acquiredConnections (metrics s) - releasedConnections (metrics s)
   = activeLeasedConnections (metrics s))%Z.

Section Configured.
Variable max : option nat.

(** What the figures of a summary satisfy at any time: the high-water
    mark is at least the current number of leases and at most the
    capacity, every release has left one duration, no count is negative,
    and the history holds at most [MAX_HISTORY_SIZE] entries. *)
Definition tally (s : State) : Prop :=
  let m := metrics s in
  (0 ≤ activeLeasedConnections m ≤ maxConcurrentLeasedConnections m)%Z ∧
  (maxConcurrentLeasedConnections m ≤ Z.of_nat (capacity max))%Z ∧
  (releasedConnections m = Z.of_nat (length (connectionDurations m)))%Z ∧
  (0 ≤ acquiredConnections m)%Z ∧ (0 ≤ failedAcquisitions m)%Z ∧
  (0 ≤ totalConnectionsCreated m)%Z ∧
  (length (connectionHistory m) ≤ MAX_HISTORY_SIZE)%nat.

(** A sample run: the client of [one_lease] given back and leased
    again. *)
Definition leased_twice : list Event :=
  one_lease ++ [ClientRelease 1 NoArg 200; GetConnection "b" None 300;
                ConnectSettles (Acquiring "conn_b") (Return 1%nat) 305].

(** A sample run: [n] calls of [getConnection], each refused by the
    driver's pool. *)
Definition refused (n : nat) : list Event :=
  ManagerOnError ::
  flat_map (λ i, [GetConnection (pretty i) None (Z.of_nat i);
                  ConnectSettles (Acquiring ("conn_" ++ pretty i))
                    (Throw (Error "connection refused")) (Z.of_nat i + 1)])
    (seq 0 n).

End Configured.
End PoolCounts.

(** * Properties of the transaction manager *)

Module TxnFacts.
Import Txn.

Local Open Scope Z_scope.

(** Unfolds a method body down to the state it is run from. *)
Ltac run_body :=
  repeat (unfold beginTransaction, commit, rollback, releaseClient, resetMetrics,
            query, modify_metrics, assign, call, modify, await, throw, this,
            try_catch, try_finally, mbind, mret, M_bind, M_ret;
          simpl).

(** Splits on every test the body makes. *)
Ltac cases := repeat (case_match; simplify_eq/=).

Lemma slice_last_short {A} (n : nat) (l : list A) :
  (length l ≤ n)%nat → slice_last n l = l.
Proof.
  intros H. unfold slice_last.
  replace (length l - n)%nat with 0%nat by lia. reflexivity.
Qed.

Lemma push_history_spec h m :
  transactionHistory (push_history h m)
  = slice_last 100 (transactionHistory m ++ [h]).
Proof.
  unfold push_history. simpl. case_decide as Hlen; [reflexivity|].
  symmetry. apply slice_last_short. lia.
Qed.

Lemma find_app_some {A} (p : A → bool) (l l' : list A) x :
  List.find p l = Some x → List.find p (l ++ l') = Some x.
Proof.
  induction l as [|y l IH]; simpl; [discriminate|].
  destruct (p y); [trivial | exact IH].
Qed.

(** C1 as amended: on a manager with a transaction in progress,
    [beginTransaction] (any options, any environment) throws
    ['Transaction already in progress'], calls neither the pool nor the
    handle, and leaves the start time, the active flag and the held client
    as they were.  It appends a [failed] entry for the rejected attempt to
    the history, of which the last 100 entries are kept: as long as the
    history held fewer than 100 entries, the entry of the transaction in
    progress is found again, unchanged. *)
Theorem begin_while_active_is_rejected (w : World) (env : BeginEnv)
    (options : option TransactionOptions) :
  isTransactionActive (tm w) = true →
  let r := (beginTransaction env options w).1 in
  let w' := (beginTransaction env options w).2 in
  r = Throw (OrmError "Transaction already in progress") ∧
  transactionStartTime (tm w') = transactionStartTime (tm w) ∧
  isTransactionActive (tm w') = true ∧
  client (tm w') = client (tm w) ∧
  calls w' = calls w ∧
  (∃ rejected,
     status rejected = failed ∧
     transactionHistory (metrics (tm w'))
     = slice_last 100 (transactionHistory (metrics (tm w)) ++ [rejected])) ∧
  ((length (transactionHistory (metrics (tm w))) < 100)%nat →
   ∀ h, find_entry (requestId (tm w)) (metrics (tm w)) = Some h →
        find_entry (requestId (tm w)) (metrics (tm w')) = Some h).
Proof.
  intros Hact. run_body. rewrite Hact. simpl.
  repeat split; try assumption.
  - eexists. split; [|apply push_history_spec]. reflexivity.
  - intros Hlen h Hfind. unfold find_entry. rewrite push_history_spec.
    rewrite slice_last_short by (rewrite length_app; simpl; lia).
    apply find_app_some. exact Hfind.
Qed.

Lemma begin_keeps_balance env options w :
  balance (beginTransaction env options w).2 = balance w.
Proof.
  unfold balance. run_body. cases; reflexivity.
Qed.

Lemma record_completion_counters st i ended started cap m :
  committedTransactions (record_completion st i ended started cap m)
    = committedTransactions m ∧
  rolledBackTransactions (record_completion st i ended started cap m)
    = rolledBackTransactions m ∧
  completedTransactions (record_completion st i ended started cap m)
    = completedTransactions m ∧
  failedTransactions (record_completion st i ended started cap m)
    = failedTransactions m.
Proof.
  unfold record_completion.
  destruct (find_entry i m); [|done].
  destruct started; simpl; done.
Qed.

Ltac completion_counters :=
  match goal with
  | |- context [record_completion ?st ?i ?ended ?started ?cap ?m] =>
      destruct (record_completion_counters st i ended started cap m)
        as (Hcommitted & Hrolled & Hcompleted & Hfailed);
      rewrite ?Hcommitted, ?Hrolled, ?Hcompleted, ?Hfailed
  end.

Lemma commit_keeps_balance env w : balance (commit env w).2 = balance w.
Proof.
  unfold balance. run_body. cases; try reflexivity;
    completion_counters; simpl; lia.
Qed.

Lemma rollback_keeps_balance env w : balance (rollback env w).2 = balance w.
Proof.
  unfold balance. run_body. cases; try reflexivity;
    completion_counters; simpl; lia.
Qed.

Lemma run_balanced ops w : balance w = 0 → balance (run ops w) = 0.
Proof.
  revert w. induction ops as [|op ops IH]; intros w Hw; [exact Hw|].
  simpl. apply IH. unfold after.
  destruct op; simpl.
  - by rewrite begin_keeps_balance.
  - by rewrite commit_keeps_balance.
  - by rewrite rollback_keeps_balance.
  - reflexivity.
Qed.

(** C2 as amended: between calls, on a manager driven by any sequence of
    [beginTransaction], [commit], [rollback] and [resetMetrics] calls with
    any outcomes, the summary satisfies
    [committedTransactions + rolledBackTransactions = completedTransactions];
    [failedTransactions] is counted apart. *)
Theorem committed_plus_rolled_back_is_completed (id : string) (created : Z)
    (ops : list Op) :
  let s := getMetricsSummary (tm (run ops (new_manager id created))) in
  sum_committedTransactions s + sum_rolledBackTransactions s
  = sum_completedTransactions s.
Proof.
  pose proof (run_balanced ops (new_manager id created) eq_refl) as H.
  unfold balance in H. simpl. lia.
Qed.

(** C2 as worded fails after one [commit()] on a new manager: the call is
    rejected, [failedTransactions] becomes 1 and [completedTransactions]
    stays 0. *)
Lemma counts_add_up_counterexample :
  let s := getMetricsSummary
             (tm (run [Commit (statement_ok 5)] (new_manager "txn_0" 0))) in
  sum_failedTransactions s = 1 ∧ sum_completedTransactions s = 0 ∧
  ¬ counts_add_up s.
Proof. vm_compute. repeat split; discriminate. Qed.

(** C1 as worded fails.  On a manager with transaction [txn_1] in
    progress, a rejected [beginTransaction] that generated id [txn_2]
    replaces the stored id and the stored options; and when the history
    already holds 100 entries, the oldest of which is that of [txn_1],
    the rejected call evicts it. *)
Lemma second_begin_counterexample :
  let w' := (beginTransaction (all_ok "txn_2" 20 8%nat) None in_progress).2 in
  let w'' := (beginTransaction (all_ok "txn_3" 30 8%nat) None crowded).2 in
  isTransactionActive (tm in_progress) = true ∧
  requestId (tm in_progress) = "txn_1" ∧ requestId (tm w') = "txn_2" ∧
  currentTransactionOptions (tm in_progress) = Some serializable ∧
  currentTransactionOptions (tm w') = None ∧
  ¬ first_transaction_untouched in_progress w' ∧
  isTransactionActive (tm crowded) = true ∧
  status <$> find_entry "txn_1" (metrics (tm crowded)) = Some active ∧
  find_entry "txn_1" (metrics (tm w'')) = None.
Proof.
  vm_compute. repeat split; try reflexivity.
  intros (H & _). discriminate H.
Qed.

(** What the replaced id leads to: the [commit] that follows a rejected
    [beginTransaction] settles the entry of the rejected attempt and
    leaves the entry of the transaction it commits [active]. *)
Remark commit_after_rejected_begin_settles_the_wrong_entry :
  let w := run [Begin (all_ok "txn_2" 20 8%nat) None; Commit (statement_ok 30)]
             in_progress in
  status <$> find_entry "txn_1" (metrics (tm w)) = Some active ∧
  status <$> find_entry "txn_2" (metrics (tm w)) = Some committed.
Proof. vm_compute. split; reflexivity. Qed.

Lemma begin_while_active_witness :
  isTransactionActive (tm in_progress) = true ∧
  (beginTransaction (all_ok "txn_2" 20 8%nat) None in_progress).1
  = Throw (OrmError "Transaction already in progress").
Proof.
  split; [reflexivity|].
  apply (begin_while_active_is_rejected in_progress (all_ok "txn_2" 20 8%nat) None).
  reflexivity.
Defined.

Lemma update_first_no_match {A} (p : A → bool) (f : A → A) (l : list A) :
  List.find p l = None → update_first p f l = l.
Proof.
  induction l as [|x l IH]; simpl; [reflexivity|].
  destruct (p x); [discriminate|]. intros H. by rewrite IH.
Qed.

(** C3, the part the code misses: when acquisition or a setup statement
    fails, the [catch] clause looks for the history entry of the
    transaction, but the entry is pushed only after the last statement
    that can throw.  The history is left as it was; the failure shows in
    [failedTransactions] alone. *)
Theorem failed_begin_is_not_marked_in_history (w : World) (env : BeginEnv)
    (options : option TransactionOptions) (e : JsError) :
  isTransactionActive (tm w) = false →
  find_entry (fresh_id env) (metrics (tm w)) = None →
  (beginTransaction env options w).1 = Throw e →
  let w' := (beginTransaction env options w).2 in
  transactionHistory (metrics (tm w')) = transactionHistory (metrics (tm w)) ∧
  failedTransactions (metrics (tm w')) = failedTransactions (metrics (tm w)) + 1.
Proof.
  unfold find_entry. intros Hidle Hfresh. run_body. rewrite Hidle. simpl.
  pose proof (λ f, update_first_no_match (has_id (fresh_id env)) f _ Hfresh) as Hkeep.
  cases; intros; simplify_eq; rewrite ?Hkeep; split; reflexivity.
Qed.

Lemma failed_begin_witness :
  let w := new_manager "txn_0" 0 in
  let r := beginTransaction (no_connection "txn_1" 10) None w in
  let r' := beginTransaction (begin_rejected "txn_1" 10 7%nat) None w in
  (isTransactionActive (tm w) = false ∧
   find_entry "txn_1" (metrics (tm w)) = None ∧
   r.1 = Throw (DatabaseConnectionError "Failed to acquire connection: timeout")) ∧
  (transactionHistory (metrics (tm r.2)) = [] ∧
   failedTransactions (metrics (tm r.2)) = 1) ∧
  (transactionHistory (metrics (tm r'.2)) = [] ∧
   failedTransactions (metrics (tm r'.2)) = 1).
Proof.
  split; [repeat split|split].
  - apply (failed_begin_is_not_marked_in_history (new_manager "txn_0" 0)
             (no_connection "txn_1" 10) None
             (DatabaseConnectionError "Failed to acquire connection: timeout"));
      reflexivity.
  - apply (failed_begin_is_not_marked_in_history (new_manager "txn_0" 0)
             (begin_rejected "txn_1" 10 7%nat) None
             (Error "connection terminated"));
      reflexivity.
Defined.

(** C3, the part the code keeps: after a failed [beginTransaction] the
    manager is idle, and a handle that was acquired has been released
    once. *)
Lemma failed_begin_returns_to_idle (w : World) (env : BeginEnv)
    (options : option TransactionOptions) (e : JsError) :
  idle (tm w) →
  (beginTransaction env options w).1 = Throw e →
  let w' := (beginTransaction env options w).2 in
  idle (tm w') ∧
  ∃ added, calls w' = (calls w ++ added)%list ∧
    releases added = (if connect env is Return _ then 1 else 0)%nat.
Proof.
  intros [Hclient Hidle]. unfold idle. run_body. rewrite Hidle. simpl.
  cases; intros; simplify_eq; (split; [done|]);
    rewrite <- ?app_assoc; eexists; (split; [reflexivity|]); reflexivity.
Qed.

(** C6: [commit()] and [rollback()] on a manager with a transaction in
    progress send their statement and then release the held handle exactly
    once, whether the statement resolves or rejects; the manager is idle
    afterwards, and the call settles the way the statement did. *)
Theorem commit_and_rollback_release_once (w : World) (env : EndEnv) (c : PoolClient) :
  isTransactionActive (tm w) = true →
  client (tm w) = Some c →
  (let r := commit env w in
   calls r.2 = (calls w ++ [Query c "COMMIT"; Release c])%list ∧
   releases [Query c "COMMIT"; Release c] = 1%nat ∧
   idle (tm r.2) ∧ r.1 = q_end env) ∧
  (let r := rollback env w in
   calls r.2 = (calls w ++ [Query c "ROLLBACK"; Release c])%list ∧
   releases [Query c "ROLLBACK"; Release c] = 1%nat ∧
   idle (tm r.2) ∧ r.1 = q_end env).
Proof.
  intros Hactive Hclient. unfold idle. run_body. rewrite Hactive, Hclient. simpl.
  destruct (q_end env) as [[]|e]; simpl; rewrite ?Hactive, ?Hclient; simpl;
    rewrite <- ?app_assoc; repeat split; reflexivity.
Qed.

Lemma commit_and_rollback_release_once_witness :
  (isTransactionActive (tm in_progress) = true ∧
   client (tm in_progress) = Some 7%nat) ∧
  calls (commit (statement_fails 40) in_progress).2
  = [GetConnection (Some serializable); Query 7%nat "BEGIN";
     Query 7%nat "SET TRANSACTION ISOLATION LEVEL SERIALIZABLE";
     Query 7%nat "SET TRANSACTION READ WRITE";
     Query 7%nat "COMMIT"; Release 7%nat] ∧
  idle (tm (rollback (statement_ok 40) in_progress).2).
Proof.
  split; [split; reflexivity|].
  pose proof (commit_and_rollback_release_once in_progress (statement_fails 40)
                7%nat eq_refl eq_refl) as [(Hcalls & _) _].
  pose proof (commit_and_rollback_release_once in_progress (statement_ok 40)
                7%nat eq_refl eq_refl) as [_ (_ & _ & Hidle & _)].
  split; [exact Hcalls | exact Hidle].
Defined.

Lemma rollback_guard (w : World) (env : EndEnv) :
  isTransactionActive (tm w) = false ∨ client (tm w) = None →
  rollback env w = (Return tt, w).
Proof.
  intros [H|H]; run_body; rewrite H; [reflexivity|].
  destruct (isTransactionActive (tm w)); reflexivity.
Qed.

(** C8: [rollback()] on a manager without a transaction in progress
    returns normally and changes nothing: no counter, no history entry, no
    duration, no field of the manager, no call to a collaborator. *)
Theorem rollback_when_idle_changes_nothing (w : World) (env : EndEnv) :
  isTransactionActive (tm w) = false ∨ client (tm w) = None →
  rollback env w = (Return tt, w).
Proof. apply rollback_guard. Qed.

Lemma rollback_when_idle_witness :
  isTransactionActive (tm (new_manager "txn_0" 0)) = false ∧
  rollback (statement_ok 5) (new_manager "txn_0" 0) = (Return tt, new_manager "txn_0" 0).
Proof.
  split; [reflexivity|].
  apply (rollback_when_idle_changes_nothing (new_manager "txn_0" 0) (statement_ok 5)).
  left. reflexivity.
Defined.

(** C9: [commit()] on a manager without a transaction in progress throws
    the no-active-transaction error and adds one to [failedTransactions];
    nothing else changes.  [rollback()] from the same state changes
    nothing at all. *)
Theorem commit_when_idle_counts_a_failure (w : World) (env env' : EndEnv) :
  isTransactionActive (tm w) = false ∨ client (tm w) = None →
  let r := commit env w in
  r.1 = Throw (OrmError "No active transaction to commit") ∧
  failedTransactions (metrics (tm r.2)) = failedTransactions (metrics (tm w)) + 1 ∧
  r.2 = {| tm := set_metrics
                   (set_failedTransactions
                      (failedTransactions (metrics (tm w)) + 1) (metrics (tm w)))
                   (tm w);
           calls := calls w |} ∧
  r.2 ≠ w ∧
  (rollback env' w).2 = w.
Proof.
  intros Hidle.
  assert (commit env w
          = (Throw (OrmError "No active transaction to commit"),
             {| tm := set_metrics
                        (set_failedTransactions
                           (failedTransactions (metrics (tm w)) + 1) (metrics (tm w)))
                        (tm w);
                calls := calls w |})) as ->.
  { destruct Hidle as [H|H]; run_body; rewrite H; [reflexivity|].
    destruct (isTransactionActive (tm w)); reflexivity. }
  simpl. repeat split.
  - intros Heq. apply (f_equal (λ w, failedTransactions (metrics (tm w)))) in Heq.
    simpl in Heq. lia.
  - by rewrite rollback_guard.
Qed.

Lemma commit_when_idle_witness :
  isTransactionActive (tm (new_manager "txn_0" 0)) = false ∧
  (commit (statement_ok 5) (new_manager "txn_0" 0)).1
  = Throw (OrmError "No active transaction to commit") ∧
  failedTransactions (metrics (tm (commit (statement_ok 5) (new_manager "txn_0" 0)).2)) = 1.
Proof.
  split; [reflexivity|].
  pose proof (commit_when_idle_counts_a_failure (new_manager "txn_0" 0)
                (statement_ok 5) (statement_ok 5) (or_introl eq_refl))
    as (Hthrow & Hfailed & _).
  split; [exact Hthrow | exact Hfailed].
Defined.
End TxnFacts.

(** * Properties of the connection pool manager *)

Module PoolFacts.
Import Pool.

Local Open Scope Z_scope.

Section Configured.
Context (max : option nat).
Local Abbreviation wf := (Pool.wf max).
Local Abbreviation keeps := (Pool.keeps max).
Local Abbreviation frames := (Pool.frames max).
Local Abbreviation discards := (Pool.discards max).
Local Abbreviation capacity := (Pool.capacity max).
Local Abbreviation can_settle := (Pool.can_settle max).
Local Abbreviation handler := (Pool.handler max).
Local Abbreviation fire := (Pool.fire max).
Local Abbreviation run := (Pool.run max).
Local Abbreviation wf_owner := (Pool.wf_owner max).
Local Abbreviation wf_lease := (Pool.wf_lease max).
Local Abbreviation wf_patched := (Pool.wf_patched max).
Local Abbreviation wf_wrapper := (Pool.wf_wrapper max).
Local Abbreviation wf_pending := (Pool.wf_pending max).
Local Abbreviation wf_timer := (Pool.wf_timer max).

(** Runs a straight-line stretch of the manager's code on a state. *)
Ltac step_body :=
  repeat (unfold performClientRelease, releaseConnection, resetMetrics,
            addHistory, emitConnectionStatus, driver_release, checkout,
            clearTimeout, setTimeout, fresh, read_client, update_client,
            update_acquisition, modify_metrics, log, output, emit_error, lease,
            modify, get, throw, try_catch, mbind, mret, M_bind, M_ret;
          simpl).

Ltac cases := repeat (case_match; simplify_eq/=).

(** Opens the monadic plumbing and nothing else. *)
Ltac open_body :=
  unfold read_client, mbind, mret, M_bind, M_ret, get; simpl.

(** C10: [resetMetrics()] gives every counter, the durations and the
    history their initial values, keeps [maxConcurrentLeasedConnections],
    stamps [lastMetricsResetTime] with the clock, and leaves the table of
    tracked leases (and everything else but the log) alone. *)
Theorem resetMetrics_keeps_high_water_mark (s : State) (now : Z) :
  let r := resetMetrics now s in
  r.1 = Return tt ∧
  metrics r.2
  = {| totalConnectionsCreated := 0; acquiredConnections := 0;
       releasedConnections := 0; failedAcquisitions := 0;
       activeLeasedConnections := 0;
       maxConcurrentLeasedConnections := maxConcurrentLeasedConnections (metrics s);
       connectionDurations := []; connectionHistory := [];
       lastMetricsResetTime := Some now;
       poolTotalCount := Some 0; poolIdleCount := Some 0;
       poolWaitingCount := Some 0 |} ∧
  connectionTimestamps r.2 = connectionTimestamps s ∧
  acquisitions r.2 = acquisitions s ∧ clients r.2 = clients s ∧
  checkedOut r.2 = checkedOut s ∧ timers r.2 = timers s ∧
  out r.2 = (out s ++ [Log INFO "Connection pool metrics reset."])%list.
Proof. step_body. repeat split; reflexivity. Qed.


Lemma reset_client_idle (cl : Client) :
  hasOriginalQuery cl = false → hasOriginalRelease cl = false →
  reset_client (connectionIdSymbol cl) cl = cl.
Proof. destruct cl; simpl; intros -> ->; reflexivity. Qed.

(** What [performClientRelease] does to a client the manager tracks no
    lease for. *)
Lemma release_untracked (s : State) (c : ClientRef) (cl : Client)
    (e : option JsError) (f : option bool) (now : Z) :
  clients s !! c = Some cl →
  tracked s cl = None →
  let r := performClientRelease c e f now s in
  r.1 = Return tt ∧
  metrics r.2 = metrics s ∧
  connectionTimestamps r.2 = connectionTimestamps s ∧
  acquisitions r.2 = acquisitions s ∧
  timers r.2 = timers s ∧ cancellations r.2 = cancellations s ∧
  queries r.2 = queries s ∧ next r.2 = next s ∧
  errorListeners r.2 = errorListeners s ∧
  clients r.2 = <[c := reset_client (connectionIdSymbol cl) cl]> (clients s) ∧
  checkedOut r.2
  = (if hasOriginalRelease cl then checkedOut s ∖ {[c]} else checkedOut s) ∧
  out r.2
  = (out s ++ Log INFO "performClientRelease called on an untracked or already processed client."
       :: if hasOriginalRelease cl then [DriverRelease c (shouldDiscard e f)] else [])%list.
Proof.
  unfold tracked, shouldDiscard. intros Hc Hun.
  assert (Hmiss : ∀ id, connectionIdSymbol cl = Some id →
                        connectionTimestamps s !! id = None).
  { intros id Hid. rewrite Hid in Hun. simpl in Hun.
    destruct (connectionTimestamps s !! id); [discriminate | reflexivity]. }
  step_body. rewrite Hc. simpl.
  destruct cl as [pid [id|] wrap oq rp or eh nh]; simpl in *;
    destruct oq, or; simpl;
    rewrite ?(Hmiss id eq_refl); simpl;
    destruct (bool_decide (is_Some e) || bool_decide (f = Some true)); simpl;
    repeat split; try reflexivity;
    rewrite ?alter_alter_eq; try (by erewrite alter_alt_Some by eassumption);
    try (by rewrite insert_id);
    by rewrite <- ?app_assoc.
Qed.


(** What [performClientRelease] does to a client the manager tracks a
    lease for: the tables. *)
Lemma release_tracked (s : State) (c : ClientRef) (cl : Client) (id : string)
    (d : ConnectionTimestamp) (e : option JsError) (f : option bool) (now : Z) :
  clients s !! c = Some cl →
  tracked s cl = Some (id, d) →
  let r := performClientRelease c e f now s in
  r.1 = Return tt ∧
  connectionTimestamps r.2 = delete id (connectionTimestamps s) ∧
  acquisitions r.2 = acquisitions s ∧
  timers r.2 = (if queryTimeoutTimer d is Some t then delete t (timers s) else timers s) ∧
  cancellations r.2 = cancellations s ∧
  queries r.2 = queries s ∧ next r.2 = next s ∧
  errorListeners r.2 = errorListeners s ∧
  clients r.2 = <[c := reset_client None cl]> (clients s) ∧
  checkedOut r.2
  = (if hasOriginalRelease cl then checkedOut s ∖ {[c]} else checkedOut s) ∧
  destroyed r.2
  = (if hasOriginalRelease cl && shouldDiscard e f then destroyed s ∪ {[c]}
     else destroyed s).
Proof.
  unfold tracked, shouldDiscard. intros Hc Htr.
  destruct (connectionIdSymbol cl) as [id'|] eqn:Hsym; [|discriminate].
  simpl in Htr.
  destruct (connectionTimestamps s !! id') as [d'|] eqn:Hd; [|discriminate].
  simpl in Htr. simplify_eq.
  step_body. rewrite Hc. simpl.
  destruct cl as [pid sym wrap oq rp or eh nh]; simpl in *. subst sym.
  destruct oq, or; simpl; rewrite ?Hd; simpl;
    destruct (queryTimeoutTimer d); simpl;
    destruct (bool_decide (is_Some e) || bool_decide (f = Some true)); simpl;
    repeat split; try reflexivity;
    rewrite ?delete_alter_eq; try reflexivity;
    rewrite ?alter_alter_eq; by erewrite alter_alt_Some by eassumption.
Qed.

(** The same: the counters, the history and what the driver is asked. *)
Lemma release_tracked_record (s : State) (c : ClientRef) (cl : Client) (id : string)
    (d : ConnectionTimestamp) (e : option JsError) (f : option bool) (now : Z) :
  clients s !! c = Some cl →
  tracked s cl = Some (id, d) →
  let r := performClientRelease c e f now s in
  metrics r.2
  = set_connectionHistory
      (pushed (connectionHistory (metrics s)) (release_entry id d e now))
      (set_connectionDurations
         (connectionDurations (metrics s) ++ [now - acquiredAt d])%list
         (set_activeLeasedConnections
            (Z.max 0 (activeLeasedConnections (metrics s) - 1))
            (set_releasedConnections (releasedConnections (metrics s) + 1)
               (metrics s)))) ∧
  out r.2
  = (out s ++ Log INFO "Performing client release."
       :: (if hasOriginalRelease cl then DriverRelease c (shouldDiscard e f)
           else Log ERROR "CRITICAL: Original release function not found on client during performClientRelease.")
       :: [EmitConnectionStatus (Z.max 0 (activeLeasedConnections (metrics s) - 1))])%list.
Proof.
  unfold tracked, shouldDiscard, release_entry. intros Hc Htr.
  destruct (connectionIdSymbol cl) as [id'|] eqn:Hsym; [|discriminate].
  simpl in Htr.
  destruct (connectionTimestamps s !! id') as [d'|] eqn:Hd; [|discriminate].
  simpl in Htr. simplify_eq.
  step_body. rewrite Hc. simpl.
  destruct cl as [pid sym wrap oq rp or eh nh]; simpl in *. subst sym.
  destruct oq, or; simpl; rewrite ?Hd; simpl;
    destruct (queryTimeoutTimer d); simpl;
    destruct (bool_decide (is_Some e) || bool_decide (f = Some true)); simpl;
    (split; [reflexivity|]); by rewrite <- ?app_assoc.
Qed.


(** ** The invariant holds between events *)

Lemma wf_view (s s' : State) : view s = view s' → wf s → wf s'.
Proof.
  unfold view, activeLeased.
  intros [= Ha Hm Hq Hc Ho Ht] [H1 H2 H3 H4 H5 H6 H7 H8 H9].
  split; unfold activeLeased;
    rewrite <- ?Ha, <- ?Hm, <- ?Hq, <- ?Hc, <- ?Ho, <- ?Ht; assumption.
Qed.

Lemma wf_new_pool (created : Z) : wf (new_pool created).
Proof.
  split; unfold activeLeased, capacity; simpl; try done.
  - intros id [x Hx]. by rewrite lookup_empty in Hx.
  - destruct max as [[|n]|]; vm_compute; lia.
Qed.

(** [m] keeps the invariant, however it completes. *)

Lemma keeps_ret {A} (a : A) : keeps (mret a).
Proof. intros s H. exact H. Qed.

Lemma keeps_throw {A} (e : JsError) : keeps (@throw State A e).
Proof. intros s H. exact H. Qed.

Lemma keeps_get : keeps get.
Proof. intros s H. exact H. Qed.

Lemma keeps_bind {A B} (m : M State A) (f : A → M State B) :
  keeps m → (∀ a, keeps (f a)) → keeps (m ≫= f).
Proof.
  intros Hm Hf s H. unfold mbind, M_bind. specialize (Hm s H).
  destruct (m s) as [[a|e] s']; simpl in *; [by apply Hf | exact Hm].
Qed.

(** The same when what follows is only known to keep the invariant from
    the states [m] can end in. *)
Lemma wf_bind {A B} (m : M State A) (f : A → M State B) (s : State) :
  wf (m s).2 →
  (∀ a, (m s).1 = Return a → wf (f a (m s).2).2) →
  wf ((m ≫= f) s).2.
Proof.
  intros Hm Hf. unfold mbind, M_bind.
  destruct (m s) as [[a|e] s']; simpl in *; [by apply Hf | exact Hm].
Qed.

Lemma keeps_try_catch {A} (m : M State A) (h : JsError → M State A) :
  keeps m → (∀ e, keeps (h e)) → keeps (try_catch m h).
Proof.
  intros Hm Hh s H. unfold try_catch. specialize (Hm s H).
  destruct (m s) as [[a|e] s']; simpl in *; [exact Hm | by apply Hh].
Qed.

Lemma keeps_view (f : State → State) :
  (∀ s, view (f s) = view s) → keeps (modify f).
Proof. intros Hf s H. simpl. eapply wf_view; [symmetry; apply Hf | exact H]. Qed.

Lemma keeps_output (o : Output) : keeps (output o).
Proof. by apply keeps_view. Qed.

Lemma keeps_log (level : LogLevel) (msg : string) : keeps (log level msg).
Proof. apply keeps_output. Qed.

Lemma keeps_emit_error (e : JsError) : keeps (emit_error e).
Proof.
  intros s H. unfold emit_error. step_body.
  destruct (errorListeners s); simpl; [exact H|].
  revert H. by apply wf_view.
Qed.

Lemma keeps_fresh : keeps fresh.
Proof. intros s H. unfold fresh. step_body. revert H. by apply wf_view. Qed.

Lemma keeps_driver_query (c : ClientRef) (sql : string) (w : option string)
    (who : option Caller) : keeps (driver_query c sql w who).
Proof.
  intros s H. unfold driver_query, fresh. step_body. revert H. by apply wf_view.
Qed.

Lemma keeps_addHistory ty now id dur err : keeps (addHistory ty now id dur err).
Proof. by apply keeps_view. Qed.

Lemma keeps_settle id r : keeps (settle id r).
Proof. apply keeps_output. Qed.

Lemma keeps_emitConnectionStatus : keeps emitConnectionStatus.
Proof. intros s H. unfold emitConnectionStatus. step_body. revert H. by apply wf_view. Qed.

Lemma keeps_pool_on_connect : keeps pool_on_connect.
Proof.
  intros s H. unfold pool_on_connect. step_body. revert H. by apply wf_view.
Qed.

Lemma keeps_set_cancellations (g : State → gmap TimerId Cancellation) :
  keeps (modify (λ s, set_cancellations (g s) s)).
Proof. by apply keeps_view. Qed.

Lemma keeps_clearTimeout (t : option TimerId) : keeps (clearTimeout t).
Proof.
  intros s [H1 H2 H3 H4 H5 H6 H7 H8 H9]. destruct t as [t|]; [|by split].
  split; simpl; try assumption.
  intros t' cb Ht'. apply lookup_delete_Some in Ht' as [_ Ht']. by apply H9.
Qed.

Lemma keeps_set_stage (id : string) (st : Stage) :
  st ≠ Connecting → keeps (update_acquisition id (set_stage st)).
Proof.
  intros Hst s [H1 H2 H3 H4 H5 H6 H7 H8 H9]. split; simpl; try assumption.
  - intros c cl id' Hc Hsym. destruct (H4 c cl id' Hc Hsym) as (?&?&?&?&Hl).
    repeat split; try assumption.
    rewrite lookup_alter. case_decide; [subst|exact Hl].
    destruct (acquisitions s !! id'); simpl in *; exact Hl.
  - intros id' a. rewrite lookup_alter. case_decide.
    + subst. destruct (acquisitions s !! id'); simpl; [|done].
      intros [= <-]. simpl. done.
    + apply H8.
  - intros t cb Ht. destruct (H9 t cb Ht) as (d & a & ? & ? & Ha & ?).
    rewrite lookup_alter. case_decide.
    + subst. rewrite Ha. simpl. by exists d, (set_stage st a).
    + by exists d, a.
Qed.

Lemma keeps_resetMetrics (now : Z) : keeps (resetMetrics now).
Proof.
  intros s [H1 H2 H3 H4 H5 H6 H7 H8 H9]. unfold resetMetrics. step_body.
  split; simpl; try assumption; unfold activeLeased; simpl; lia.
Qed.


(** Under the invariant a client object has an id exactly when the
    manager tracks its lease. *)
Lemma wf_tracked (s : State) (c : ClientRef) (cl : Client) :
  wf s → clients s !! c = Some cl →
  match connectionIdSymbol cl with
  | Some id => ∃ d, connectionTimestamps s !! id = Some d ∧ tracked s cl = Some (id, d)
  | None => tracked s cl = None
  end.
Proof.
  intros H Hc. unfold tracked. destruct (connectionIdSymbol cl) as [id|] eqn:Hid;
    [|reflexivity].
  destruct (wf_lease s H c cl id Hc Hid) as ([d Hd] & _).
  exists d. simpl. by rewrite Hd.
Qed.

Lemma wf_release_tracked (s s' : State) (c : ClientRef) (cl : Client) (id : string)
    (d : ConnectionTimestamp) :
  wf s →
  clients s !! c = Some cl → connectionIdSymbol cl = Some id →
  connectionTimestamps s !! id = Some d →
  activeLeased s' = Z.max 0 (activeLeased s - 1) →
  connectionTimestamps s' = delete id (connectionTimestamps s) →
  acquisitions s' = acquisitions s →
  timers s' = (if queryTimeoutTimer d is Some t then delete t (timers s) else timers s) →
  clients s' = <[c := reset_client None cl]> (clients s) →
  checkedOut s' = checkedOut s ∖ {[c]} →
  wf s'.
Proof.
  intros [H1 H2 H3 H4 H5 H6 H7 H8 H9] Hc Hid Hd Ea Em Eq Et Ec Eo.
  assert (Hother : ∀ c' cl' id', clients s !! c' = Some cl' →
            connectionIdSymbol cl' = Some id' → c' ≠ c → id' ≠ id).
  { intros c' cl' id' Hc' Hid' Hne ->.
    destruct (H4 c cl id Hc Hid) as (_&_&_&_&Hl).
    destruct (H4 c' cl' id Hc' Hid') as (_&_&_&_&Hl').
    congruence. }
  assert (Hwrap : queryWrapper (reset_client None cl) = None).
  { simpl. destruct (hasOriginalQuery cl) eqn:Hq; [reflexivity|].
    destruct (queryWrapper cl) as [w|] eqn:Hw; [|reflexivity].
    destruct (H6 c cl w Hc Hw) as [_ ?]. congruence. }
  split.
  - rewrite Ea. lia.
  - rewrite Ea, Em, map_size_delete_Some by eauto.
    assert (size (connectionTimestamps s) ≠ 0%nat).
    { intros Hz. apply map_size_empty_inv in Hz. rewrite Hz in Hd.
      by rewrite lookup_empty in Hd. }
    unfold activeLeased in *. lia.
  - intros id'. rewrite Em, lookup_delete_is_Some. intros [Hne Hsome].
    destruct (H3 id' Hsome) as (c' & cl' & Hc' & Hid').
    exists c', cl'. split; [|exact Hid']. rewrite Ec, lookup_insert_ne; [done|].
    intros <-. congruence.
  - intros c' cl' id'. rewrite Ec, lookup_insert_Some.
    intros [[? ?]|[Hne Hc']] Hid'; [by simplify_eq|].
    destruct (H4 c' cl' id' Hc' Hid') as (?&?&?&?&?).
    rewrite Em, Eq, Eo, lookup_delete_is_Some.
    repeat split; try assumption; [|set_solver].
    apply not_eq_sym. by eapply Hother.
  - intros c' cl'. rewrite Ec, lookup_insert_Some.
    intros [[? ?]|[Hne Hc']] Hid'; [by simplify_eq | by eapply H5].
  - intros c' cl' id'. rewrite Ec, lookup_insert_Some.
    intros [[? ?]|[Hne Hc']] Hw; [by simplify_eq | by eapply H6].
  - rewrite Eo. etrans; [|exact H7]. apply subseteq_size. set_solver.
  - intros id' a. rewrite Eq, Em. intros Ha Hst.
    rewrite lookup_delete_None. right. by eapply H8.
  - intros t cb Ht.
    assert (timers s !! t = Some cb ∧ queryTimeoutTimer d ≠ Some t) as [Ht' Hnt].
    { rewrite Et in Ht. destruct (queryTimeoutTimer d) as [t0|].
      - apply lookup_delete_Some in Ht as [? ?]. split; [done|congruence].
      - split; [done|discriminate]. }
    destruct (H9 t cb Ht') as (d' & a & Hd' & Htd & Ha & Hcur).
    exists d', a. rewrite Em, Eq. repeat split; try assumption.
    rewrite lookup_delete_ne; [done|]. intros Heq. rewrite <- Heq in Hd'.
    congruence.
Qed.

Lemma keeps_performClientRelease (c : ClientRef) (e : option JsError)
    (f : option bool) (now : Z) : keeps (performClientRelease c e f now).
Proof.
  intros s H. destruct (clients s !! c) as [cl|] eqn:Hc.
  - pose proof (wf_tracked s c cl H Hc) as Htr.
    destruct (connectionIdSymbol cl) as [id|] eqn:Hid.
    + destruct Htr as (d & Hd & Htr).
      destruct (release_tracked s c cl id d e f now Hc Htr)
        as (_ & Em & Eq & Et & _ & _ & _ & _ & Ec & Eo & _).
      destruct (release_tracked_record s c cl id d e f now Hc Htr) as (Emet & _).
      destruct (wf_lease s H c cl id Hc Hid) as (_&_&_&Horig&_).
      rewrite Horig in Eo.
      eapply (wf_release_tracked s _ c cl id d); try eassumption.
      unfold activeLeased. by rewrite Emet.
    + destruct (release_untracked s c cl e f now Hc Htr)
        as (_ & Emet & Em & Eq & Et & _ & _ & _ & _ & Ec & Eo & _).
      destruct (wf_patched s H c cl Hc Hid) as (Hq & Hr & _).
      rewrite Hr in Eo. rewrite reset_client_idle, insert_id in Ec by done.
      eapply wf_view; [|exact H]. unfold view, activeLeased.
      by rewrite Emet, Em, Eq, Et, Ec, Eo.
  - eapply wf_view; [|exact H]. step_body. rewrite Hc. reflexivity.
Qed.


Lemma map_size_alter `{Countable K} {A} (f : A → A) (i : K) (m : gmap K A) :
  size (alter f i m) = size m.
Proof.
  rewrite alter_alt. destruct (m !! i) eqn:Hi; [|reflexivity].
  by rewrite map_size_insert_Some.
Qed.

(** Changing the listeners of client objects does not touch the
    invariant. *)
Lemma wf_similar (s s' : State) :
  wf s →
  activeLeased s' = activeLeased s →
  connectionTimestamps s' = connectionTimestamps s →
  acquisitions s' = acquisitions s → checkedOut s' = checkedOut s →
  timers s' = timers s →
  (∀ c, patches <$> clients s' !! c = patches <$> clients s !! c) →
  wf s'.
Proof.
  intros [H1 H2 H3 H4 H5 H6 H7 H8 H9] Ea Em Eq Eo Et Ec.
  assert (Hback : ∀ c cl', clients s' !! c = Some cl' →
            ∃ cl, clients s !! c = Some cl ∧ patches cl' = patches cl).
  { intros c cl' Hc'. specialize (Ec c). rewrite Hc' in Ec. simpl in Ec.
    destruct (clients s !! c) as [cl|]; [|discriminate].
    exists cl. split; [done|]. by apply (inj Some). }
  assert (Hforth : ∀ c cl, clients s !! c = Some cl →
            ∃ cl', clients s' !! c = Some cl' ∧ patches cl' = patches cl).
  { intros c cl Hc. specialize (Ec c). rewrite Hc in Ec. simpl in Ec.
    destruct (clients s' !! c) as [cl'|]; [|discriminate].
    exists cl'. split; [done|]. by apply (inj Some). }
  unfold patches in *.
  split; rewrite ?Ea, ?Em, ?Eq, ?Eo, ?Et; try assumption.
  - intros id Hid. destruct (H3 id Hid) as (c & cl & Hc & Hsym).
    destruct (Hforth c cl Hc) as (cl' & Hc' & Hp). exists c, cl'.
    split; [done|]. injection Hp as ? ? ? ? ?. congruence.
  - intros c cl' id Hc' Hsym. destruct (Hback c cl' Hc') as (cl & Hc & Hp).
    injection Hp as ? ? ? ? ?.
    destruct (H4 c cl id Hc) as (?&?&?&?&?); [congruence|].
    repeat split; try assumption; congruence.
  - intros c cl' Hc' Hsym. destruct (Hback c cl' Hc') as (cl & Hc & Hp).
    injection Hp as ? ? ? ? ?.
    destruct (H5 c cl Hc) as (?&?&?); [congruence|].
    repeat split; congruence.
  - intros c cl' id Hc' Hw. destruct (Hback c cl' Hc') as (cl & Hc & Hp).
    injection Hp as ? ? ? ? ?.
    destruct (H6 c cl id Hc) as (?&?); [congruence|].
    split; congruence.
Qed.

(** The wrapper's timer bookkeeping, for a lease the manager tracks. *)
Lemma wf_arm_timer (s : State) (id : string) (a : Acquisition) (c : ClientRef) :
  wf s → acquisitions s !! id = Some a →
  is_Some (connectionTimestamps s !! id) →
  wf (arm_timer id a c s).2.
Proof.
  intros [H1 H2 H3 H4 H5 H6 H7 H8 H9] Ha [d Hd].
  unfold arm_timer. step_body.
  set (old := currentQueryTimeoutTimer a).
  assert (Hold : ∀ t cb, timers s !! t = Some cb → timerLease cb = id → old = Some t).
  { intros t cb Ht Hl. destruct (H9 t cb Ht) as (d' & a' & _ & _ & Ha' & Hcur).
    rewrite Hl, Ha in Ha'. by simplify_eq. }
  destruct old as [t0|] eqn:Hcur; simpl.
  all: split; unfold activeLeased in *; simpl; try assumption.
  all: try (rewrite map_size_alter; assumption).
  all: try (intros id'; rewrite lookup_alter_is_Some; apply H3).
  all: try (intros c' cl' id' Hc' Hsym;
            destruct (H4 c' cl' id' Hc' Hsym) as (?&?&?&?&Hl);
            rewrite lookup_alter_is_Some; repeat split; try assumption;
            rewrite lookup_alter; case_decide; [subst; rewrite Ha in *|]; exact Hl).
  all: try (intros id' a'; rewrite lookup_alter_None, lookup_alter; case_decide;
            [subst; rewrite Ha; simpl; intros [= <-]; simpl; intros Hst; by eapply H8
            | apply H8]).
  all: intros t cb; rewrite lookup_insert_Some;
    (intros [[<- <-]|[Hne Ht]]; simpl;
     [ exists (set_queryTimeoutTimer (Some (next s)) d),
              (set_currentQueryTimeoutTimer (Some (next s)) a);
       rewrite !lookup_alter_eq, Hd, Ha; by repeat split
     | ]).
  - apply lookup_delete_Some in Ht as [Hne0 Ht].
    destruct (H9 t cb Ht) as (d' & a' & Hd' & Htd & Ha' & Hc').
    assert (timerLease cb ≠ id) as Hl.
    { intros Hl. specialize (Hold t cb Ht Hl). congruence. }
    exists d', a'. rewrite !lookup_alter_ne by done. by repeat split.
  - destruct (H9 t cb Ht) as (d' & a' & Hd' & Htd & Ha' & Hc').
    assert (timerLease cb ≠ id) as Hl.
    { intros Hl. specialize (Hold t cb Ht Hl). congruence. }
    exists d', a'. rewrite !lookup_alter_ne by done. by repeat split.
Qed.

Lemma keeps_update_listeners (c : ClientRef) (f : Client → Client) :
  (∀ cl, patches (f cl) = patches cl) → keeps (update_client c f).
Proof.
  intros Hf s H. eapply wf_similar; [exact H|..]; try reflexivity.
  intros c'. simpl. rewrite lookup_alter. case_decide; [subst|reflexivity].
  destruct (clients s !! c'); simpl; [by rewrite Hf|reflexivity].
Qed.

Lemma wf_wrapped_query (s : State) (id sql : string) (thenable : bool)
    (who : option Caller) :
  wf s → is_Some (connectionTimestamps s !! id) →
  wf (wrapped_query id sql thenable who s).2.
Proof.
  intros H Hid. unfold wrapped_query.
  change ((get ≫= _) s) with
    ((match acquisitions s !! id, acquisitions s !! id ≫= leased with
      | Some a, Some c =>
          arm_timer id a c;;
          driver_query c sql (if thenable then Some id else None) who;;
          if thenable then mret tt
          else
            update_client c (λ cl, set_endHandlers (endHandlers cl ++ [id])%list cl);;
            update_client c (λ cl, set_errorHandlers
                                     (errorHandlers cl ++ [ClearTimer id])%list cl)
      | _, _ => mret tt
      end) s).
  destruct (acquisitions s !! id) as [a|] eqn:Ha; simpl; [|exact H].
  destruct (leased a) as [c|]; simpl; [|exact H].
  apply wf_bind; [by apply wf_arm_timer|]. intros _ _.
  apply keeps_bind; [apply keeps_driver_query | | by apply wf_arm_timer].
  intros _. destruct thenable; [apply keeps_ret|].
  apply keeps_bind; [by apply keeps_update_listeners|]. intros _.
  by apply keeps_update_listeners.
Qed.

Lemma keeps_client_query (c : ClientRef) (sql : string) (thenable : bool)
    (who : option Caller) : keeps (client_query c sql thenable who).
Proof.
  intros s H. unfold client_query, read_client. step_body.
  destruct (clients s !! c) as [cl|] eqn:Hc; simpl;
    [|by apply keeps_driver_query].
  destruct (queryWrapper cl) as [id|] eqn:Hw; [|by apply keeps_driver_query].
  apply wf_wrapped_query; [exact H|].
  destruct (wf_wrapper s H c cl id Hc Hw) as [Hsym _].
  by destruct (wf_lease s H c cl id Hc Hsym) as (? & _).
Qed.


Lemma wf_driver_release (s : State) (c : ClientRef) (destroy : bool) :
  wf s →
  (∀ cl, clients s !! c = Some cl → connectionIdSymbol cl = None) →
  wf (driver_release c destroy s).2.
Proof.
  intros [H1 H2 H3 H4 H5 H6 H7 H8 H9] Hc. step_body.
  destruct destroy; simpl; (split; simpl; try assumption).
  all: try (intros c' cl' id Hc' Hsym;
            destruct (H4 c' cl' id Hc' Hsym) as (?&?&?&?&?);
            repeat split; try assumption;
            apply elem_of_difference; split; [assumption|];
            intros ->%elem_of_singleton; specialize (Hc cl' Hc'); congruence).
  all: etrans; [|exact H7]; apply subseteq_size; set_solver.
Qed.

Lemma keeps_client_release (c : ClientRef) (arg : ReleaseArg) (now : Z) :
  keeps (client_release c arg now).
Proof.
  intros s H. unfold client_release. open_body.
  destruct (clients s !! c) as [cl|] eqn:Hc; simpl.
  - destruct (releasePatched cl) eqn:Hp; [by apply keeps_performClientRelease|].
    apply wf_driver_release; [exact H|]. intros cl' Hc'.
    assert (cl' = cl) as -> by congruence.
    destruct (connectionIdSymbol cl) as [id|] eqn:Hid; [|reflexivity].
    destruct (wf_lease s H c cl id Hc Hid) as (_&_&?&_). congruence.
  - apply wf_driver_release; [exact H|]. intros cl'. by rewrite Hc.
Qed.

Lemma keeps_clear_current_timer (id : string) : keeps (clear_current_timer id).
Proof.
  intros s H. unfold clear_current_timer. open_body.
  destruct (acquisitions s !! id); [by apply keeps_clearTimeout | exact H].
Qed.

Lemma keeps_release_timed_out (id : string) (now : Z) : keeps (release_timed_out id now).
Proof.
  intros s H. unfold release_timed_out. open_body.
  destruct (acquisitions s !! id) as [a|]; simpl; [|exact H].
  destruct (leased a); [by apply keeps_performClientRelease | exact H].
Qed.

Lemma wf_checkout (s : State) (c : ClientRef) :
  wf s → c ∉ checkedOut s → (size (checkedOut s) < capacity)%nat →
  wf (checkout c s).2.
Proof.
  intros H Hout Hcap.
  assert (Hsym : ∀ cl, clients s !! c = Some cl → connectionIdSymbol cl = None).
  { intros cl Hc. destruct (connectionIdSymbol cl) as [id|] eqn:Hid; [|reflexivity].
    by destruct (wf_lease s H c cl id Hc Hid) as (_&?&_). }
  destruct H as [H1 H2 H3 H4 H5 H6 H7 H8 H9]. step_body.
  split; simpl; try assumption.
  - intros id Hid. destruct (H3 id Hid) as (c' & cl' & Hc' & Hs).
    destruct (decide (c' = c)) as [->|Hne].
    + specialize (Hsym cl' Hc'). congruence.
    + exists c', cl'. by rewrite lookup_alter_ne.
  - intros c' cl' id. rewrite lookup_alter_Some.
    intros [[-> (cl & Hc & ->)]|[Hne Hc']] Hs; simpl in *.
    + specialize (Hsym cl Hc). congruence.
    + destruct (H4 c' cl' id Hc' Hs) as (?&?&?&?&?).
      repeat split; try assumption. set_solver.
  - intros c' cl'. rewrite lookup_alter_Some.
    intros [[-> (cl & Hc & ->)]|[Hne Hc']] Hs; simpl in *; by eapply H5.
  - intros c' cl' id. rewrite lookup_alter_Some.
    intros [[-> (cl & Hc & ->)]|[Hne Hc']] Hs; simpl in *; by eapply H6.
  - rewrite size_union, size_singleton by set_solver. lia.
Qed.

(** What the lease bookkeeping of [getConnection] does to the tables. *)
Lemma lease_effect (s : State) (id : string) (a : Acquisition) (c : ClientRef)
    (cl : Client) (now : Z) :
  clients s !! c = Some cl →
  let r := lease id a c now s in
  r.1 = Return tt ∧
  activeLeased r.2 = activeLeased s + 1 ∧
  connectionTimestamps r.2
  = <[id := {| acquiredAt := acquisitionStartTime a; options := requested a;
               processID := clientProcessID cl; queryTimeoutTimer := None |}]>
      (connectionTimestamps s) ∧
  acquisitions r.2 = alter (set_leased (Some c)) id (acquisitions s) ∧
  clients r.2 = <[c := leased_client id cl]> (clients s) ∧
  checkedOut r.2 = checkedOut s ∪ {[c]} ∧
  timers r.2 = timers s ∧
  cancellations r.2 = cancellations s ∧ queries r.2 = queries s ∧
  next r.2 = next s ∧ errorListeners r.2 = errorListeners s ∧
  destroyed r.2 = destroyed s.
Proof.
  intros Hc. unfold activeLeased. step_body.
  rewrite !lookup_alter_eq, Hc. simpl.
  destruct cl as [pid sym wrap oq rp or eh nh]; simpl.
  repeat split; try reflexivity.
  - by case_decide.
  - rewrite !alter_alter_eq. by erewrite alter_alt_Some by eassumption.
Qed.

Lemma wf_lease_block (s : State) (id : string) (a a0 : Acquisition) (c : ClientRef)
    (cl : Client) (now : Z) :
  wf s →
  clients s !! c = Some cl → c ∉ checkedOut s →
  (size (checkedOut s) < capacity)%nat →
  acquisitions s !! id = Some a0 → stage a0 ≠ Connecting →
  connectionTimestamps s !! id = None →
  wf (lease id a c now s).2.
Proof.
  intros H Hc Hout Hcap Ha Hst Hfresh.
  pose proof (lease_effect s id a c cl now Hc) as HE. cbv zeta in HE.
  set (s' := (lease id a c now s).2) in *. clearbody s'.
  destruct HE as (_ & Ea & Em & Eq & Ec & Eo & Et & _).
  assert (Hsym : ∀ c' cl' id', clients s !! c' = Some cl' →
            connectionIdSymbol cl' = Some id' → c' ≠ c ∧ id' ≠ id).
  { intros c' cl' id' Hc' Hid'.
    destruct (wf_lease s H c' cl' id' Hc' Hid') as ([d Hd] & ? & _).
    split; congruence. }
  destruct H as [H1 H2 H3 H4 H5 H6 H7 H8 H9].
  split; rewrite ?Ea, ?Em, ?Eq, ?Ec, ?Eo, ?Et.
  - unfold activeLeased in *. lia.
  - rewrite map_size_insert_None by done. unfold activeLeased in *. lia.
  - intros id'. rewrite lookup_insert_is_Some.
    intros [<-|[Hne Hid']].
    + exists c, (leased_client id cl). by rewrite lookup_insert_eq.
    + destruct (H3 id' Hid') as (c' & cl' & Hc' & Hs).
      destruct (Hsym c' cl' id' Hc' Hs) as [? _].
      exists c', cl'. by rewrite lookup_insert_ne.
  - intros c' cl' id'. rewrite lookup_insert_Some.
    intros [[<- <-]|[Hne Hc']]; simpl.
    + intros [= <-]. rewrite lookup_insert_eq, lookup_alter_eq, Ha. simpl.
      repeat split; try done. set_solver.
    + intros Hs. destruct (Hsym c' cl' id' Hc' Hs) as [_ Hne'].
      destruct (H4 c' cl' id' Hc' Hs) as (?&?&?&?&?).
      rewrite lookup_insert_ne, lookup_alter_ne by done.
      repeat split; try assumption. set_solver.
  - intros c' cl'. rewrite lookup_insert_Some.
    intros [[<- <-]|[Hne Hc']]; simpl; [discriminate | by eapply H5].
  - intros c' cl' id'. rewrite lookup_insert_Some.
    intros [[<- <-]|[Hne Hc']]; simpl; [by intros [= <-] | by eapply H6].
  - rewrite size_union, size_singleton by set_solver. lia.
  - intros id' a'. rewrite lookup_alter_Some.
    intros [[<- (a1 & Ha1 & ->)]|[Hne Ha']] Hst'; simpl in *.
    + congruence.
    + rewrite lookup_insert_ne by done. by eapply H8.
  - intros t cb Ht. destruct (H9 t cb Ht) as (d' & a' & Hd' & Htd & Ha' & Hcur).
    assert (id ≠ timerLease cb) by congruence.
    exists d', a'. rewrite lookup_insert_ne, lookup_alter_ne by done.
    by repeat split.
Qed.


Create HintDb keeps.
#[local] Hint Resolve keeps_ret keeps_throw keeps_get keeps_bind keeps_try_catch
  keeps_output keeps_log keeps_emit_error keeps_fresh keeps_driver_query
  keeps_addHistory keeps_settle keeps_emitConnectionStatus keeps_pool_on_connect
  keeps_set_cancellations keeps_clearTimeout keeps_resetMetrics
  keeps_performClientRelease keeps_client_query keeps_client_release
  keeps_clear_current_timer keeps_release_timed_out : keeps.

Lemma keeps_counter (f : ConnectionPoolMetrics → ConnectionPoolMetrics) :
  (∀ m, activeLeasedConnections (f m) = activeLeasedConnections m) →
  keeps (modify_metrics f).
Proof.
  intros Hf. apply keeps_view. intros s. unfold view, activeLeased. simpl.
  by rewrite Hf.
Qed.

Lemma keeps_getConnection_catch id a now e : keeps (getConnection_catch id a now e).
Proof.
  unfold getConnection_catch.
  apply keeps_bind; [by apply keeps_counter|]. intros _. eauto 10 with keeps.
Qed.

Lemma keeps_setup_readOnly id a c : keeps (setup_readOnly id a c).
Proof.
  unfold setup_readOnly. destruct (requested a ≫= readOnly); [|apply keeps_ret].
  apply keeps_bind; [apply keeps_client_query|]. intros _.
  apply keeps_bind; [by apply keeps_set_stage|]. intros _. apply keeps_ret.
Qed.

Lemma keeps_setup_isolation id a c : keeps (setup_isolation id a c).
Proof.
  unfold setup_isolation.
  destruct (requested a ≫= isolationLevel) as [level|];
    [|apply keeps_setup_readOnly].
  destruct (String.eqb level EmptyString); [apply keeps_setup_readOnly|].
  apply keeps_bind; [apply keeps_client_query|]. intros _.
  apply keeps_bind; [by apply keeps_set_stage|]. intros _. apply keeps_ret.
Qed.

(** A stretch of [getConnection] keeps the invariant when its [try]
    block does, run from where the call has left its [await]. *)
Lemma wf_getConnection_run (s : State) id a now (body : M State (option ClientRef)) :
  wf (body (set_acquisitions (alter (set_stage Running) id (acquisitions s)) s)).2 →
  wf (getConnection_run id a now body s).2.
Proof.
  unfold getConnection_run, update_acquisition, modify, try_catch. open_body.
  set (s1 := set_acquisitions _ s). intros H.
  destruct (body s1) as [[[c|]|e] s2]; simpl in *.
  - by apply keeps_settle.
  - exact H.
  - pose proof (keeps_getConnection_catch id a now e s2 H) as H'.
    destruct (getConnection_catch id a now e s2) as [[[c|]|e'] s3]; simpl in *;
      [by apply keeps_settle | exact H' | by apply keeps_settle].
Qed.

Lemma keeps_getConnection_run id a now (body : M State (option ClientRef)) :
  keeps body → keeps (getConnection_run id a now body).
Proof.
  intros Hb s H. apply wf_getConnection_run. apply Hb.
  by apply (keeps_set_stage id Running).
Qed.

Lemma keeps_getConnection_resumed id a r now : keeps (getConnection_resumed id a r now).
Proof.
  unfold getConnection_resumed.
  destruct (leased a) as [c|]; [|apply keeps_ret].
  destruct (stage a); try apply keeps_ret; apply keeps_getConnection_run;
    destruct r; auto using keeps_setup_readOnly with keeps.
Qed.

Lemma keeps_timer_callback t cb now : keeps (timer_callback t cb now).
Proof.
  unfold timer_callback.
  apply keeps_bind; [apply keeps_log|]. intros _.
  apply keeps_bind; [apply keeps_emit_error|]. intros _.
  destruct (currentClientProcessID cb) as [[|n]|];
    try (apply keeps_bind; [apply keeps_log|]; intros _; apply keeps_release_timed_out).
  apply keeps_bind; [apply keeps_log|]. intros _.
  apply keeps_bind; [apply keeps_output|]. intros _. by apply keeps_view.
Qed.

Lemma keeps_cancel_queried t k cc r now : keeps (cancel_queried t k cc r now).
Proof.
  unfold cancel_queried.
  apply keeps_bind; [destruct r; apply keeps_log|]. intros _.
  apply keeps_bind; [apply keeps_client_release|]. intros _.
  apply keeps_bind; [by apply keeps_view|]. intros _.
  apply keeps_release_timed_out.
Qed.

Lemma wf_cancel_connected (s : State) t k r now :
  wf s → can_settle s r = true → wf (cancel_connected t k r now s).2.
Proof.
  intros H Hok. unfold cancel_connected. destruct r as [cc|e].
  - simpl in Hok. apply andb_prop in Hok as [Hok Hcap].
    apply andb_prop in Hok as [Hok Hdes]. apply andb_prop in Hok as [Hin Hout].
    apply bool_decide_eq_true in Hcap, Hout.
    pose proof (wf_checkout s cc H Hout Hcap) as H'.
    apply wf_bind; [exact H'|]. intros _ _.
    revert H'. generalize (checkout cc s).2.
    apply (keeps_bind (client_query cc _ true _)); [apply keeps_client_query|].
    intros _. by apply keeps_view.
  - revert s H Hok. intros s H _. revert s H.
    apply (keeps_bind (log ERROR _)); [apply keeps_log|]. intros _.
    apply keeps_bind; [by apply keeps_view|]. intros _.
    apply keeps_release_timed_out.
Qed.

Lemma keeps_query_settled q info r now : keeps (query_settled q info r now).
Proof.
  unfold query_settled.
  apply keeps_bind; [by apply keeps_view|]. intros _.
  apply keeps_bind; [destruct (viaWrapper info); auto with keeps|]. intros _.
  apply keeps_bind; [apply keeps_get|]. intros s0.
  destruct (awaitedBy info) as [[id|t]|]; [| |apply keeps_ret].
  - destruct (acquisitions s0 !! id); [apply keeps_getConnection_resumed|apply keeps_ret].
  - destruct (cancellations s0 !! t) as [k|]; [|apply keeps_ret].
    destruct (cancelStage k); [apply keeps_ret|apply keeps_cancel_queried].
Qed.

Lemma keeps_each {A} (f : A → M State unit) (l : list A) :
  (∀ x, keeps (f x)) → keeps (each f l).
Proof.
  intros Hf. induction l as [|x l IH]; simpl; [apply keeps_ret|].
  apply keeps_bind; [apply Hf|]. intros _. exact IH.
Qed.

Lemma keeps_client_emits_error c e now : keeps (client_emits_error c e now).
Proof.
  unfold client_emits_error, read_client.
  apply keeps_bind; [auto with keeps|]. intros cl.
  apply keeps_bind; [by apply keeps_update_listeners|]. intros _.
  apply keeps_each. intros [|id]; simpl; auto with keeps.
Qed.

Lemma keeps_client_emits_end c : keeps (client_emits_end c).
Proof.
  unfold client_emits_end, read_client.
  apply keeps_bind; [auto with keeps|]. intros cl.
  apply keeps_bind; [by apply keeps_update_listeners|]. intros _.
  apply keeps_each. auto with keeps.
Qed.

Lemma wf_known (s : State) (id : string) :
  wf s → is_Some (connectionTimestamps s !! id) → is_Some (acquisitions s !! id).
Proof.
  intros H Hid. destruct (wf_owner s H id Hid) as (c & cl & Hc & Hsym).
  destruct (wf_lease s H c cl id Hc Hsym) as (_&_&_&_&Hl).
  destruct (acquisitions s !! id); [by eexists|discriminate].
Qed.

Lemma wf_getConnection_called (s : State) id opts now :
  wf s → acquisitions s !! id = None → wf (getConnection_called id opts now s).2.
Proof.
  intros H Hnew. unfold getConnection_called.
  assert (Hfresh : connectionTimestamps s !! id = None).
  { destruct (connectionTimestamps s !! id) eqn:Hid; [|reflexivity].
    destruct (wf_known s id H) as [a Ha]; [by eexists|congruence]. }
  match goal with |- wf ((?m ≫= _) s).2 => assert (wf (m s).2) as H' end.
  { destruct H as [H1 H2 H3 H4 H5 H6 H7 H8 H9]. simpl.
    split; simpl; try assumption.
    - intros c cl id' Hc Hsym. destruct (H4 c cl id' Hc Hsym) as (Hs&?&?&?&Hl).
      repeat split; try assumption. rewrite lookup_insert_ne; [done|].
      intros <-. rewrite Hnew in Hl. discriminate.
    - intros id' a. rewrite lookup_insert_Some.
      intros [[<- <-]|[Hne Ha]]; [done | by eapply H8].
    - intros t cb Ht. destruct (H9 t cb Ht) as (d & a & Hd & Htd & Ha & Hcur).
      exists d, a. repeat split; try assumption.
      rewrite lookup_insert_ne; [done|]. intros Heq. congruence. }
  apply wf_bind; [exact H'|]. intros _ _. revert H'.
  match goal with |- wf ?s1 → _ => generalize s1 end.
  apply (keeps_bind (log DEBUG _)); [apply keeps_log|]. intros _.
  apply keeps_output.
Qed.

Lemma wf_new_client (s : State) c pid :
  wf s → clients s !! c = None →
  wf (set_clients (<[c := blank pid]> (clients s)) s).
Proof.
  intros [H1 H2 H3 H4 H5 H6 H7 H8 H9] Hc. split; simpl; try assumption.
  - intros id Hid. destruct (H3 id Hid) as (c' & cl' & Hc' & Hs).
    exists c', cl'. rewrite lookup_insert_ne; [done|]. congruence.
  - intros c' cl' id. rewrite lookup_insert_Some.
    intros [[? ?]|[Hne Hc']] Hs; [by simplify_eq | by eapply H4].
  - intros c' cl'. rewrite lookup_insert_Some.
    intros [[? ?]|[Hne Hc']] Hs; [by simplify_eq | by eapply H5].
  - intros c' cl' id. rewrite lookup_insert_Some.
    intros [[? ?]|[Hne Hc']] Hs; [by simplify_eq | by eapply H6].
Qed.

Lemma wf_exec (m : M State unit) (s : State) : wf (m s).2 → wf (exec m s).
Proof.
  unfold exec. destruct (m s) as [[[]|e] s']; simpl; [done|].
  by apply wf_view.
Qed.


(** Every event keeps the invariant. *)
Lemma fire_wf (ev : Event) (s s' : State) : wf s → fire ev s = Some s' → wf s'.
Proof.
  intros H. unfold Pool.fire.
  destruct (handler ev s) as [m|] eqn:Hm; [|discriminate].
  simpl. intros [= <-]. apply wf_exec.
  destruct ev as [|c pid|suffix opts now|[id|t] r now|c sql thenable|q r now|t now
                  |c arg now|c err force now|c e now|c|now| | |e]; simpl in Hm.
  - injection Hm as <-. revert s H. by apply keeps_view.
  - destruct (clients s !! c) eqn:Hc; [discriminate|]. injection Hm as <-.
    apply wf_bind; [by apply wf_new_client|]. intros _ _.
    apply keeps_pool_on_connect. by apply wf_new_client.
  - destruct (acquisitions s !! ("conn_" ++ suffix)) eqn:Ha; [discriminate|].
    injection Hm as <-. by apply wf_getConnection_called.
  - destruct (acquisitions s !! id) as [a|] eqn:Ha; [|discriminate].
    destruct (stage a) eqn:Hst; try discriminate.
    destruct (can_settle s r) eqn:Hok; [|discriminate]. injection Hm as <-.
    apply wf_getConnection_run.
    pose proof (keeps_set_stage id Running ltac:(done) s H) as H1. simpl in H1.
    destruct r as [c|e]; [|exact H1].
    simpl in Hok. apply andb_prop in Hok as [Hok Hcap].
    apply andb_prop in Hok as [Hok Hdes]. apply andb_prop in Hok as [Hin Hout].
    apply bool_decide_eq_true in Hcap, Hout, Hin. destruct Hin as [cl Hcl].
    unfold getConnection_connected.
    assert (wf (lease id a c now
                 (set_acquisitions (alter (set_stage Running) id (acquisitions s)) s)).2)
      as H2.
    { eapply (wf_lease_block _ id a (set_stage Running a) c cl); try done.
      - simpl. by rewrite lookup_alter_eq, Ha.
      - simpl. by eapply wf_pending. }
    apply wf_bind; [exact H2|]. intros _ _. by apply keeps_setup_isolation.
  - destruct (cancellations s !! t) as [k|] eqn:Hk; [|discriminate].
    destruct (cancelStage k); [|discriminate].
    destruct (can_settle s r) eqn:Hok; [|discriminate]. injection Hm as <-.
    by apply wf_cancel_connected.
  - destruct (clients s !! c); [|discriminate]. injection Hm as <-.
    by apply keeps_client_query.
  - destruct (queries s !! q) as [info|]; [|discriminate]. injection Hm as <-.
    by apply keeps_query_settled.
  - destruct (timers s !! t) as [cb|]; [|discriminate]. injection Hm as <-.
    revert s H. apply (keeps_bind (clearTimeout (Some t))); [apply keeps_clearTimeout|].
    intros _. apply keeps_timer_callback.
  - destruct (clients s !! c); [|discriminate]. injection Hm as <-.
    by apply keeps_client_release.
  - destruct (clients s !! c); [|discriminate]. injection Hm as <-.
    revert s H. apply (keeps_bind (log DEBUG _)); [apply keeps_log|].
    intros _. apply keeps_performClientRelease.
  - destruct (clients s !! c); [|discriminate]. injection Hm as <-.
    by apply keeps_client_emits_error.
  - destruct (clients s !! c); [|discriminate]. injection Hm as <-.
    by apply keeps_client_emits_end.
  - injection Hm as <-. by apply keeps_resetMetrics.
  - injection Hm as <-. by apply keeps_log.
  - injection Hm as <-. by apply keeps_log.
  - injection Hm as <-. revert s H.
    apply (keeps_bind (log ERROR _)); [apply keeps_log|]. intros _. apply keeps_emit_error.
Qed.

Lemma run_wf (evs : list Event) (s s' : State) : wf s → run evs s = Some s' → wf s'.
Proof.
  revert s. induction evs as [|ev evs IH]; intros s H; simpl.
  - by intros [= <-].
  - destruct (fire ev s) as [s1|] eqn:Hf; [|discriminate]. simpl.
    apply IH. by eapply fire_wf.
Qed.

(** A table whose keys map one-to-one into a set is no larger than the
    set. *)
Lemma size_le_injection {V} (m : gmap string V) (X : gset ClientRef)
    (R : string → ClientRef → Prop) :
  (∀ id, is_Some (m !! id) → ∃ c, c ∈ X ∧ R id c) →
  (∀ id id' c, R id c → R id' c → id = id') →
  (size m ≤ size X)%nat.
Proof.
  intros Hex Hinj. revert X Hex.
  induction m as [|i x m Hi IH] using map_ind; intros X Hex.
  - rewrite map_size_empty. lia.
  - destruct (Hex i) as (c & Hc & Hr); [by rewrite lookup_insert_eq|].
    rewrite map_size_insert_None by done.
    assert (size m ≤ size (X ∖ {[c]}))%nat as Hle.
    { apply IH. intros id Hid.
      assert (id ≠ i) as Hne by (intros ->; rewrite Hi in Hid; by destruct Hid).
      destruct (Hex id) as (c' & Hc' & Hr'); [by rewrite lookup_insert_ne|].
      exists c'. split; [|done]. apply elem_of_difference. split; [done|].
      intros ->%elem_of_singleton. apply Hne. by eapply Hinj. }
    assert (size X = size (X ∖ {[c]}) + 1)%nat as ->; [|lia].
    rewrite size_difference by set_solver. rewrite size_singleton.
    assert (size X ≠ 0)%nat; [|lia].
    intros Hz. apply size_empty_inv in Hz. set_solver.
Qed.

Lemma tracked_le_checked_out (s : State) :
  wf s → (size (connectionTimestamps s) ≤ size (checkedOut s))%nat.
Proof.
  intros H.
  apply (size_le_injection _ _
           (λ id c, ∃ cl, clients s !! c = Some cl ∧ connectionIdSymbol cl = Some id)).
  - intros id Hid. destruct (wf_owner s H id Hid) as (c & cl & Hc & Hsym).
    exists c. split; [|by exists cl].
    by destruct (wf_lease s H c cl id Hc Hsym) as (_&?&_).
  - intros id id' c (cl & Hc & Hs) (cl' & Hc' & Hs'). congruence.
Qed.

(** C4: whatever sequence of events led to it from a new manager
    (calls of [getConnection], of [release] and [releaseConnection], of
    [query], settled promises, fired timers, client errors, metric
    resets), the state has [0 ≤ activeLeasedConnections ≤ capacity]. *)
Theorem active_leases_within_bounds (created : Z) (evs : list Event) (s : State) :
  run evs (new_pool created) = Some s →
  0 ≤ activeLeasedConnections (metrics s) ≤ Z.of_nat capacity.
Proof.
  intros Hrun. pose proof (run_wf evs _ s (wf_new_pool created) Hrun) as H.
  pose proof (tracked_le_checked_out s H) as Hle.
  destruct H as [H1 H2 _ _ _ _ H7 _ _]. unfold activeLeased in *. lia.
Qed.


(** ** Release *)

(** On a client object that carries no id and no saved original,
    [performClientRelease] only logs. *)
Lemma release_idle (s : State) (c : ClientRef) (cl : Client)
    (e : option JsError) (f : option bool) (now : Z) :
  clients s !! c = Some cl →
  connectionIdSymbol cl = None →
  hasOriginalQuery cl = false → hasOriginalRelease cl = false →
  performClientRelease c e f now s
  = (Return tt,
     set_out (out s ++ [Log INFO "performClientRelease called on an untracked or already processed client."])%list s).
Proof.
  intros Hc Hsym Hq Hr. step_body. rewrite Hc. simpl.
  rewrite Hq, Hsym, Hr. reflexivity.
Qed.

(** C7: on every state a new manager can reach, releasing a handle
    returns normally.  For a handle the manager tracks no lease for
    (released already, or never leased) the release is a logged no-op:
    nothing but the log changes.  For a tracked handle it subtracts one
    from [activeLeasedConnections], not below zero, counts the release,
    removes the lease from the table and leaves no timer of that lease
    pending; a second release of the same handle is the logged no-op.
    [releaseConnection] is the same release after one more log line.
    And on any state whatever, reachable or not, releasing a handle
    without a tracked lease returns normally, logs, and leaves the
    counters, the table and the timers alone; the driver gets the client
    only if the client still carries a saved [_originalRelease]. *)
Theorem release_is_idempotent (created : Z) (evs : list Event) (s : State)
    (c : ClientRef) (cl : Client) (e : option JsError) (f : option bool) (now : Z) :
  run evs (new_pool created) = Some s →
  clients s !! c = Some cl →
  let noop s0 :=
    set_out (out s0 ++ [Log INFO "performClientRelease called on an untracked or already processed client."])%list s0 in
  let r := performClientRelease c e f now s in
  r.1 = Return tt ∧
  releaseConnection c e f now s
  = performClientRelease c e f now
      (set_out (out s ++ [Log DEBUG "Explicit public releaseConnection called."])%list s) ∧
  match tracked s cl with
  | None => r.2 = noop s
  | Some (id, d) =>
      activeLeasedConnections (metrics r.2)
      = Z.max 0 (activeLeasedConnections (metrics s) - 1) ∧
      releasedConnections (metrics r.2) = releasedConnections (metrics s) + 1 ∧
      connectionTimestamps r.2 = delete id (connectionTimestamps s) ∧
      (∀ t cb, timers r.2 !! t = Some cb → timerLease cb ≠ id) ∧
      ∀ e' f' now', performClientRelease c e' f' now' r.2 = (Return tt, noop r.2)
  end ∧
  ∀ s0 cl0, clients s0 !! c = Some cl0 → tracked s0 cl0 = None →
    let r0 := performClientRelease c e f now s0 in
    r0.1 = Return tt ∧ metrics r0.2 = metrics s0 ∧
    connectionTimestamps r0.2 = connectionTimestamps s0 ∧ timers r0.2 = timers s0 ∧
    out r0.2
    = (out s0 ++ Log INFO "performClientRelease called on an untracked or already processed client."
         :: if hasOriginalRelease cl0 then [DriverRelease c (shouldDiscard e f)] else [])%list.
Proof.
  intros Hrun Hc noop r.
  pose proof (run_wf evs _ s (wf_new_pool created) Hrun) as H.
  pose proof (wf_tracked s c cl H Hc) as Htr.
  split; [|split; [reflexivity|split]].
  3: { intros s0 cl0 Hc0 Hun.
       by destruct (release_untracked s0 c cl0 e f now Hc0 Hun)
         as (? & ? & ? & _ & ? & _ & _ & _ & _ & _ & _ & ?). }
  - destruct (connectionIdSymbol cl) as [id|] eqn:Hid.
    + destruct Htr as (d & Hd & Htr).
      by destruct (release_tracked s c cl id d e f now Hc Htr) as (? & _).
    + by destruct (release_untracked s c cl e f now Hc Htr) as (? & _).
  - destruct (connectionIdSymbol cl) as [id|] eqn:Hid.
    + destruct Htr as (d & Hd & Htr). rewrite Htr.
      pose proof (release_tracked s c cl id d e f now Hc Htr) as HE.
      pose proof (release_tracked_record s c cl id d e f now Hc Htr) as HR.
      cbv zeta in HE, HR. fold r in HE, HR.
      destruct HE as (_ & Em & Eq & Et & _ & _ & _ & _ & Ec & _).
      destruct HR as (Emet & _).
      repeat split.
      * by rewrite Emet.
      * by rewrite Emet.
      * exact Em.
      * intros t cb Ht Hl.
        assert (timers s !! t = Some cb ∧ queryTimeoutTimer d ≠ Some t) as [Ht' Hnt].
        { rewrite Et in Ht. destruct (queryTimeoutTimer d) as [t0|].
          - apply lookup_delete_Some in Ht as [? ?]. split; [done|congruence].
          - split; [done|discriminate]. }
        destruct (wf_timer s H t cb Ht') as (d' & a & Hd' & Htd & _).
        rewrite Hl in Hd'. congruence.
      * intros e' f' now'. apply (release_idle _ c (reset_client None cl)); try done.
        rewrite Ec. by rewrite lookup_insert_eq.
    + rewrite Htr. destruct (wf_patched s H c cl Hc Hid) as (Hq & Hr & _).
      unfold r. by rewrite (release_idle s c cl e f now Hc Hid Hq Hr).
Qed.

(** ** The query timeout *)

Lemma last_pushed (h : list HistoryEvent) (x : HistoryEvent) :
  last (pushed h x) = Some x.
Proof.
  unfold pushed. case_decide as Hlen; [|apply last_snoc].
  destruct h as [|y h]; [simpl in Hlen; unfold MAX_HISTORY_SIZE in Hlen; lia|].
  simpl. apply last_snoc.
Qed.

(** The last statement of the timer callback, on a lease that is still
    tracked: the release is recorded as [client_error_released] with the
    timeout message and the driver is told to destroy the client. *)
Lemma timed_out_lease_is_discarded (s : State) (id : string) (a : Acquisition)
    (c : ClientRef) (cl : Client) (d : ConnectionTimestamp) (now : Z) :
  wf s →
  acquisitions s !! id = Some a → leased a = Some c →
  clients s !! c = Some cl → tracked s cl = Some (id, d) →
  let r := release_timed_out id now s in
  last (connectionHistory (metrics r.2))
  = Some {| type := client_error_released; timestamp := now;
            connectionId := Some id; durationMs := Some (now - acquiredAt d);
            error := Some "Query timed out after 10000ms. Cancellation attempted." |} ∧
  out r.2 = (out s ++ [Log INFO "Performing client release."; DriverRelease c true;
                       EmitConnectionStatus
                         (Z.max 0 (activeLeasedConnections (metrics s) - 1))])%list ∧
  c ∈ destroyed r.2 ∧ (c ∉ checkedOut r.2) ∧
  connectionTimestamps r.2 !! id = None.
Proof.
  intros H Ha Hl Hc Htr. unfold release_timed_out. open_body.
  rewrite Ha. simpl. rewrite Hl.
  assert (connectionIdSymbol cl = Some id) as Hid.
  { unfold tracked in Htr. destruct (connectionIdSymbol cl) as [id'|]; [|done].
    simpl in Htr. destruct (connectionTimestamps s !! id'); [|done].
    simpl in Htr. congruence. }
  destruct (wf_lease s H c cl id Hc Hid) as (_&_&_&Horig&_).
  pose proof (release_tracked s c cl id d (Some timeout_error) None now Hc Htr) as HE.
  pose proof (release_tracked_record s c cl id d (Some timeout_error) None now Hc Htr)
    as HR.
  cbv zeta in HE, HR.
  destruct HE as (_ & Em & _ & _ & _ & _ & _ & _ & _ & Eo & Ed).
  destruct HR as (Emet & Eout).
  rewrite Horig in *. simpl in Ed, Eout.
  rewrite Emet, Eout, Ed, Eo, Em. simpl. rewrite last_pushed.
  repeat split; try done; [set_solver | set_solver | apply lookup_delete_eq].
Qed.


(** *** At most one cancellation statement per timer *)

Lemma cancel_wf_view (s s' : State) :
  cancel_view s = cancel_view s' → cancel_wf s → cancel_wf s'.
Proof.
  unfold cancel_view. intros [= Ht Hk Hn Ho] [H1 H2 H3 H4].
  split; unfold attempts in *; rewrite <- ?Ht, <- ?Hk, <- ?Hn, <- ?Ho; assumption.
Qed.

Lemma cancel_wf_new_pool (created : Z) : cancel_wf (new_pool created).
Proof. split; simpl; try done. intros t. unfold attempts. simpl. lia. Qed.


Lemma ckeeps_ret {A} (a : A) : ckeeps (mret a).
Proof. intros s H. exact H. Qed.

Lemma ckeeps_throw {A} (e : JsError) : ckeeps (@throw State A e).
Proof. intros s H. exact H. Qed.

Lemma ckeeps_get : ckeeps get.
Proof. intros s H. exact H. Qed.

Lemma ckeeps_bind {A B} (m : M State A) (f : A → M State B) :
  ckeeps m → (∀ a, ckeeps (f a)) → ckeeps (m ≫= f).
Proof.
  intros Hm Hf s H. unfold mbind, M_bind. specialize (Hm s H).
  destruct (m s) as [[a|e] s']; simpl in *; [by apply Hf | exact Hm].
Qed.

Lemma ckeeps_try_catch {A} (m : M State A) (h : JsError → M State A) :
  ckeeps m → (∀ e, ckeeps (h e)) → ckeeps (try_catch m h).
Proof.
  intros Hm Hh s H. unfold try_catch. specialize (Hm s H).
  destruct (m s) as [[a|e] s']; simpl in *; [exact Hm | by apply Hh].
Qed.

Lemma ckeeps_neutral (f : State → State) :
  (∀ s, cancel_view (f s) = cancel_view s) → ckeeps (modify f).
Proof. intros Hf s H. simpl. eapply cancel_wf_view; [symmetry; apply Hf | exact H]. Qed.

Lemma ckeeps_output (o : Output) : cancel_of o = None → ckeeps (output o).
Proof.
  intros Ho. apply ckeeps_neutral. intros s. unfold cancel_view. simpl.
  by rewrite omap_app; simpl; rewrite Ho, app_nil_r.
Qed.

Lemma ckeeps_log level msg : ckeeps (log level msg).
Proof. by apply ckeeps_output. Qed.

Lemma ckeeps_emit_error e : ckeeps (emit_error e).
Proof.
  unfold emit_error. apply ckeeps_bind; [apply ckeeps_get|]. intros s0.
  destruct (errorListeners s0); [apply ckeeps_throw | by apply ckeeps_output].
Qed.

Lemma ckeeps_modify_metrics f : ckeeps (modify_metrics f).
Proof. by apply ckeeps_neutral. Qed.

Lemma ckeeps_update_client c f : ckeeps (update_client c f).
Proof. by apply ckeeps_neutral. Qed.

Lemma ckeeps_update_acquisition id f : ckeeps (update_acquisition id f).
Proof. by apply ckeeps_neutral. Qed.

Lemma ckeeps_read_client c : ckeeps (read_client c).
Proof.
  unfold read_client. apply ckeeps_bind; [apply ckeeps_get|]. intros ?.
  apply ckeeps_ret.
Qed.

Lemma ckeeps_fresh : ckeeps fresh.
Proof.
  intros s [H1 H2 H3 H4]. unfold fresh. step_body. split; simpl; try assumption.
  intros t Ht. apply H1. lia.
Qed.

Lemma ckeeps_clearTimeout t : ckeeps (clearTimeout t).
Proof.
  intros s [H1 H2 H3 H4]. destruct t as [t|]; [|by split].
  split; simpl; try assumption.
  - intros t' Ht'. destruct (H1 t' Ht') as (?&?&?).
    repeat split; try assumption. rewrite lookup_delete_None. by right.
  - intros t' [cb Ht']. apply lookup_delete_Some in Ht' as [_ Ht']. apply H2. by eexists.
Qed.

Lemma ckeeps_setTimeout cb : ckeeps (setTimeout cb).
Proof.
  intros s [H1 H2 H3 H4]. unfold setTimeout. step_body. split; simpl; try assumption.
  - intros t Ht. destruct (H1 t) as (?&?&?); [lia|].
    repeat split; try assumption. rewrite lookup_insert_ne; [done|lia].
  - intros t. rewrite lookup_insert_is_Some.
    intros [<-|[Hne Ht]]; [|by apply H2].
    destruct (H1 (next s)) as (?&?&?); [lia|done].
Qed.

Lemma ckeeps_driver_query c sql w who :
  (∀ t, who ≠ Some (Cancelling t)) → ckeeps (driver_query c sql w who).
Proof.
  intros Hwho. unfold driver_query.
  apply ckeeps_bind.
  { apply ckeeps_output. destruct who as [[id|t]|]; try reflexivity.
    by destruct (Hwho t). }
  intros _. apply ckeeps_bind; [apply ckeeps_fresh|]. intros q.
  by apply ckeeps_neutral.
Qed.

Lemma ckeeps_cancel_done t :
  ckeeps (modify (λ s, set_cancellations (delete t (cancellations s)) s)).
Proof.
  intros s [H1 H2 H3 H4]. split; simpl; try assumption.
  - intros t' Ht'. destruct (H1 t' Ht') as (?&?&?).
    repeat split; try assumption. rewrite lookup_delete_None. by right.
  - intros t' Ht'. destruct (H2 t' Ht') as (?&?).
    split; [assumption|]. rewrite lookup_delete_None. by right.
  - intros t' k Hk. apply lookup_delete_Some in Hk as [_ Hk]. by apply H3.
Qed.

Create HintDb ckeeps.
#[local] Hint Resolve ckeeps_ret ckeeps_throw ckeeps_get ckeeps_log ckeeps_emit_error
  ckeeps_modify_metrics ckeeps_update_client ckeeps_update_acquisition
  ckeeps_read_client ckeeps_fresh ckeeps_clearTimeout ckeeps_setTimeout
  ckeeps_cancel_done : ckeeps.

(** Walks through a method body made of steps that keep the
    bookkeeping. *)
Ltac ck :=
  repeat first
    [ solve [auto with ckeeps]
    | apply ckeeps_bind; [|intros ?]
    | apply ckeeps_try_catch; [|intros ?]
    | apply ckeeps_output; reflexivity
    | apply ckeeps_neutral; intros ?; reflexivity
    | apply ckeeps_driver_query; intros ?; discriminate
    | match goal with |- ckeeps (match ?x with _ => _ end) => destruct x end ].

Lemma ckeeps_performClientRelease c e f now : ckeeps (performClientRelease c e f now).
Proof.
  unfold performClientRelease, addHistory, emitConnectionStatus, driver_release. ck.
Qed.

Lemma ckeeps_client_release c arg now : ckeeps (client_release c arg now).
Proof.
  unfold client_release, driver_release. pose proof ckeeps_performClientRelease. ck.
Qed.

Lemma ckeeps_clear_current_timer id : ckeeps (clear_current_timer id).
Proof. unfold clear_current_timer. ck. Qed.

Lemma ckeeps_release_timed_out id now : ckeeps (release_timed_out id now).
Proof. unfold release_timed_out. pose proof ckeeps_performClientRelease. ck. Qed.

Lemma ckeeps_wrapped_query id sql thenable who :
  (∀ t, who ≠ Some (Cancelling t)) → ckeeps (wrapped_query id sql thenable who).
Proof.
  intros Hwho. pose proof (λ c w, ckeeps_driver_query c sql w who Hwho).
  unfold wrapped_query, arm_timer. ck.
Qed.

Lemma ckeeps_client_query c sql thenable who :
  (∀ t, who ≠ Some (Cancelling t)) → ckeeps (client_query c sql thenable who).
Proof.
  intros Hwho. pose proof (λ c w, ckeeps_driver_query c sql w who Hwho).
  pose proof (λ id, ckeeps_wrapped_query id sql thenable who Hwho).
  unfold client_query. ck.
Qed.

Lemma ckeeps_getConnection_run id a now (body : M State (option ClientRef)) :
  ckeeps body → ckeeps (getConnection_run id a now body).
Proof.
  intros Hb. unfold getConnection_run. apply ckeeps_bind; [ck|]. intros _ s H.
  assert (ckeeps (try_catch body (getConnection_catch id a now))) as Hc.
  { apply ckeeps_try_catch; [exact Hb|]. intros e.
    unfold getConnection_catch, addHistory. ck. }
  specialize (Hc s H).
  destruct (try_catch body (getConnection_catch id a now) s) as [[[c|]|e] s'];
    simpl in *; try exact Hc; revert Hc; by apply ckeeps_output.
Qed.

Lemma ckeeps_setup_readOnly id a c : ckeeps (setup_readOnly id a c).
Proof.
  unfold setup_readOnly.
  pose proof (λ sql, ckeeps_client_query c sql true (Some (Acquiring id))
                       ltac:(intros ?; discriminate)).
  ck.
Qed.

Lemma ckeeps_setup_isolation id a c : ckeeps (setup_isolation id a c).
Proof.
  unfold setup_isolation.
  pose proof (λ sql, ckeeps_client_query c sql true (Some (Acquiring id))
                       ltac:(intros ?; discriminate)).
  pose proof (ckeeps_setup_readOnly id a c).
  ck.
Qed.

Lemma ckeeps_getConnection_connected id a c now :
  ckeeps (getConnection_connected id a c now).
Proof.
  unfold getConnection_connected, lease, checkout, addHistory.
  pose proof (ckeeps_setup_isolation id a c). ck.
Qed.

Lemma ckeeps_getConnection_resumed id a r now :
  ckeeps (getConnection_resumed id a r now).
Proof.
  unfold getConnection_resumed.
  destruct (leased a) as [c|]; [|apply ckeeps_ret].
  destruct (stage a); try apply ckeeps_ret; apply ckeeps_getConnection_run;
    destruct r; auto using ckeeps_setup_readOnly with ckeeps.
Qed.

Lemma ckeeps_cancel_queried t k cc r now : ckeeps (cancel_queried t k cc r now).
Proof.
  unfold cancel_queried.
  pose proof ckeeps_client_release. pose proof ckeeps_release_timed_out. ck.
Qed.

Lemma ckeeps_query_settled q info r now : ckeeps (query_settled q info r now).
Proof.
  unfold query_settled.
  pose proof ckeeps_clear_current_timer. pose proof ckeeps_getConnection_resumed.
  pose proof ckeeps_cancel_queried. ck.
Qed.

Lemma ckeeps_each {A} (f : A → M State unit) (l : list A) :
  (∀ x, ckeeps (f x)) → ckeeps (each f l).
Proof.
  intros Hf. induction l as [|x l IH]; simpl; [apply ckeeps_ret|].
  apply ckeeps_bind; [apply Hf|]. intros _. exact IH.
Qed.

Lemma ckeeps_client_emits_error c e now : ckeeps (client_emits_error c e now).
Proof.
  unfold client_emits_error.
  apply ckeeps_bind; [ck|]. intros cl. apply ckeeps_bind; [ck|]. intros _.
  apply ckeeps_each. intros [|id]; simpl;
    pose proof ckeeps_performClientRelease; pose proof ckeeps_clear_current_timer; ck.
Qed.

Lemma ckeeps_client_emits_end c : ckeeps (client_emits_end c).
Proof.
  unfold client_emits_end.
  apply ckeeps_bind; [ck|]. intros cl. apply ckeeps_bind; [ck|]. intros _.
  apply ckeeps_each. apply ckeeps_clear_current_timer.
Qed.


Lemma attempts_app (t : TimerId) (o1 o2 : list Output) :
  attempts t (o1 ++ o2) = (attempts t o1 + attempts t o2)%nat.
Proof. unfold attempts. by rewrite omap_app, filter_app, length_app. Qed.

Lemma attempts_cancel (t t' : TimerId) c sql :
  attempts t' [DriverQuery c sql (Some (Cancelling t))]
  = if decide (t = t') then 1%nat else 0%nat.
Proof.
  unfold attempts. simpl. rewrite filter_cons. simpl.
  by repeat case_decide.
Qed.

Lemma cancel_wf_timer_fires (s : State) t cb now :
  cancel_wf s → timers s !! t = Some cb →
  cancel_wf ((modify (λ s, set_timers (delete t (timers s)) s);;
              timer_callback t cb now) s).2.
Proof.
  intros H Ht.
  destruct (errorListeners s) as [|n] eqn:Hl;
    [|destruct (currentClientProcessID cb) as [[|pid]|] eqn:Hpid].
  4: { revert s H Ht Hl. intros s H _ _. revert s H.
       apply (ckeeps_bind (clearTimeout (Some t))); [ck|]. intros _.
       unfold timer_callback. rewrite Hpid.
       pose proof ckeeps_release_timed_out. ck. }
  2: { revert s H Ht Hl. intros s H _ _. revert s H.
       apply (ckeeps_bind (clearTimeout (Some t))); [ck|]. intros _.
       unfold timer_callback. rewrite Hpid.
       pose proof ckeeps_release_timed_out. ck. }
  - unfold timer_callback, emit_error. step_body. rewrite Hl. simpl.
    exact (ckeeps_log WARNING _ _ (ckeeps_clearTimeout (Some t) s H)).
  - destruct H as [H1 H2 H3 H4].
    destruct (H2 t) as [Hat Hnone]; [by eexists|].
    assert (t < next s)%nat as Hlt.
    { destruct (decide (t < next s)%nat); [done|].
      destruct (H1 t) as (_ & Hno & _); [lia|congruence]. }
    unfold timer_callback. rewrite Hpid. step_body. rewrite Hl. simpl.
    split; simpl; intros t'; rewrite <- ?app_assoc, ?attempts_app; simpl.
    + intros Hn. destruct (H1 t' Hn) as (-> & ? & ?).
      split; [reflexivity|]. split.
      * rewrite lookup_delete_None. by right.
      * rewrite lookup_insert_ne; [done|lia].
    + intros [cb' Hcb']. apply lookup_delete_Some in Hcb' as [Hne Hcb'].
      destruct (H2 t') as [-> ?]; [by eexists|].
      split; [reflexivity|]. by rewrite lookup_insert_ne.
    + intros k. rewrite lookup_insert_Some.
      intros [[<- <-]|[Hne Hk]] Hst.
      * by rewrite Hat.
      * by rewrite (H3 t' k Hk Hst).
    + specialize (H4 t').
      change (attempts t' [PoolConnect (Cancelling t)]) with 0%nat. lia.
Qed.

Lemma cancel_wf_cancel_connected (s : State) t k r now :
  wf s → cancel_wf s →
  cancellations s !! t = Some k → cancelStage k = CancelConnecting →
  can_settle s r = true →
  cancel_wf (cancel_connected t k r now s).2.
Proof.
  intros H Hcw Hk Hst Hok. unfold cancel_connected. destruct r as [cc|e].
  2: { revert s Hcw H Hk Hok. intros s Hcw _ _ _. revert s Hcw.
       pose proof ckeeps_release_timed_out. ck. }
  simpl in Hok. apply andb_prop in Hok as [Hok Hcap].
  apply andb_prop in Hok as [Hok Hdes]. apply andb_prop in Hok as [Hin Hout].
  apply bool_decide_eq_true in Hout, Hin. destruct Hin as [cl Hcl].
  assert (queryWrapper cl = None) as Hw.
  { destruct (connectionIdSymbol cl) as [id|] eqn:Hid.
    - by destruct (wf_lease s H cc cl id Hcl Hid) as (_&?&_).
    - by destruct (wf_patched s H cc cl Hcl Hid) as (_&_&?). }
  unfold checkout, client_query, driver_query, fresh. step_body.
  rewrite lookup_alter_eq, Hcl. simpl. rewrite Hw. simpl.
  destruct Hcw as [H1 H2 H3 H4].
  assert (t < next s)%nat as Hlt.
  { destruct (decide (t < next s)%nat); [done|].
    destruct (H1 t) as (_ & _ & Hno); [lia|congruence]. }
  pose proof (H3 t k Hk Hst) as Hzero.
  split; simpl; intros t'; rewrite ?attempts_app, ?attempts_cancel.
  - intros Hn. destruct (H1 t') as (-> & ? & ?); [lia|].
    rewrite decide_False by lia.
    repeat split; try done. rewrite lookup_insert_ne; [done|lia].
  - intros Hp. destruct (H2 t' Hp) as [-> Hno].
    assert (t ≠ t') by congruence. rewrite decide_False by done.
    split; [reflexivity|]. by rewrite lookup_insert_ne.
  - intros k'. rewrite lookup_insert_Some.
    intros [[<- <-]|[Hne Hk']] Hst'; [discriminate|].
    rewrite (H3 t' k' Hk' Hst'). by rewrite decide_False.
  - destruct (decide (t = t')) as [<-|]; [lia|]. specialize (H4 t'). lia.
Qed.

Lemma cancel_wf_exec (m : M State unit) (s : State) :
  cancel_wf (m s).2 → cancel_wf (exec m s).
Proof.
  unfold exec. destruct (m s) as [[[]|e] s']; simpl; [done|].
  apply cancel_wf_view. unfold cancel_view. simpl.
  by rewrite omap_app; simpl; rewrite app_nil_r.
Qed.

Lemma fire_cancel_wf (ev : Event) (s s' : State) :
  wf s → cancel_wf s → fire ev s = Some s' → cancel_wf s'.
Proof.
  intros H Hc. unfold Pool.fire.
  destruct (handler ev s) as [m|] eqn:Hm; [|discriminate].
  simpl. intros [= <-]. apply cancel_wf_exec.
  destruct ev as [|c pid|suffix opts now|[id|t] r now|c sql thenable|q r now|t now
                  |c arg now|c err force now|c e now|c|now| | |e]; simpl in Hm.
  - injection Hm as <-. revert s Hc H. intros s Hc _. revert s Hc. ck.
  - destruct (clients s !! c); [discriminate|]. injection Hm as <-.
    revert s Hc H. intros s Hc _. revert s Hc. unfold pool_on_connect. ck.
  - destruct (acquisitions s !! ("conn_" ++ suffix)); [discriminate|].
    injection Hm as <-. revert s Hc H. intros s Hc _. revert s Hc.
    unfold getConnection_called. ck.
  - destruct (acquisitions s !! id) as [a|]; [|discriminate].
    destruct (stage a); try discriminate.
    destruct (can_settle s r); [|discriminate]. injection Hm as <-.
    revert s Hc H. intros s Hc _. revert s Hc.
    apply ckeeps_getConnection_run.
    destruct r; [apply ckeeps_getConnection_connected | apply ckeeps_throw].
  - destruct (cancellations s !! t) as [k|] eqn:Hk; [|discriminate].
    destruct (cancelStage k) eqn:Hst; [|discriminate].
    destruct (can_settle s r) eqn:Hok; [|discriminate]. injection Hm as <-.
    by apply cancel_wf_cancel_connected.
  - destruct (clients s !! c); [|discriminate]. injection Hm as <-.
    by apply ckeeps_client_query.
  - destruct (queries s !! q) as [info|]; [|discriminate]. injection Hm as <-.
    by apply ckeeps_query_settled.
  - destruct (timers s !! t) as [cb|] eqn:Ht; [|discriminate]. injection Hm as <-.
    by apply cancel_wf_timer_fires.
  - destruct (clients s !! c); [|discriminate]. injection Hm as <-.
    by apply ckeeps_client_release.
  - destruct (clients s !! c); [|discriminate]. injection Hm as <-.
    revert s Hc H. intros s Hc _. revert s Hc.
    unfold releaseConnection. pose proof ckeeps_performClientRelease. ck.
  - destruct (clients s !! c); [|discriminate]. injection Hm as <-.
    by apply ckeeps_client_emits_error.
  - destruct (clients s !! c); [|discriminate]. injection Hm as <-.
    by apply ckeeps_client_emits_end.
  - injection Hm as <-. revert s Hc H. intros s Hc _. revert s Hc.
    unfold resetMetrics. ck.
  - injection Hm as <-. by apply ckeeps_log.
  - injection Hm as <-. by apply ckeeps_log.
  - injection Hm as <-. revert s Hc H. intros s Hc _. revert s Hc.
    unfold pool_on_error. ck.
Qed.

Lemma run_invariants (evs : list Event) (s s' : State) :
  wf s → cancel_wf s → run evs s = Some s' → wf s' ∧ cancel_wf s'.
Proof.
  revert s. induction evs as [|ev evs IH]; intros s H Hc; simpl.
  - by intros [= <-].
  - destruct (fire ev s) as [s1|] eqn:Hf; [|discriminate]. simpl.
    apply IH; [by eapply fire_wf | by eapply fire_cancel_wf].
Qed.

(** *** The timer callback, end to end *)

Lemma tracked_Some (s : State) (cl : Client) (id : string) (d : ConnectionTimestamp) :
  tracked s cl = Some (id, d) ↔
  connectionIdSymbol cl = Some id ∧ connectionTimestamps s !! id = Some d.
Proof.
  unfold tracked. destruct (connectionIdSymbol cl) as [id'|]; simpl.
  - destruct (connectionTimestamps s !! id') as [d'|] eqn:E; simpl; split.
    + by intros [= -> ->].
    + intros [[= ->] Hd]. congruence.
    + done.
    + intros [[= ->] Hd]. congruence.
  - split; [done|]. by intros [? _].
Qed.

Lemma holds_lease (s : State) id c d :
  wf s → holds id c d s →
  ∃ a cl, acquisitions s !! id = Some a ∧ leased a = Some c ∧
          clients s !! c = Some cl ∧ tracked s cl = Some (id, d).
Proof.
  intros H (cl & Hc & Htr). pose proof Htr as Htr'.
  apply tracked_Some in Htr' as [Hid _].
  destruct (wf_lease s H c cl id Hc Hid) as (_&_&_&_&Ha).
  destruct (acquisitions s !! id) as [a|] eqn:E; [|discriminate].
  simpl in Ha. by exists a, cl.
Qed.

Lemma release_timed_out_discards (s : State) id c d now :
  wf s → holds id c d s →
  let r := release_timed_out id now s in
  r.1 = Return tt ∧ discarded id c d now r.2.
Proof.
  intros H Hh.
  destruct (holds_lease s id c d H Hh) as (a & cl & Ha & Hl & Hc & Htr).
  destruct (timed_out_lease_is_discarded s id a c cl d now H Ha Hl Hc Htr)
    as (Hh' & Ho & Hd & Hco & Hm).
  cbv zeta. split.
  - unfold release_timed_out. open_body. rewrite Ha. simpl. rewrite Hl.
    by destruct (release_tracked s c cl id d (Some timeout_error) None now Hc Htr)
      as (? & _).
  - split; [exact Hh'|]. split; [|done].
    rewrite Ho, filter_app, last_app. reflexivity.
Qed.

Lemma frames_bind {A B} id c d (m : M State A) (f : A → M State B) :
  frames id c d m → (∀ a, frames id c d (f a)) → frames id c d (m ≫= f).
Proof.
  intros Hm Hf s H Hh. destruct (Hm s H Hh) as ((a & Ha) & H' & Hh').
  unfold mbind, M_bind. destruct (m s) as [[a'|e] s1]; simpl in *; [|discriminate].
  by apply Hf.
Qed.

Lemma frames_plain {A} id c d (m : M State A) :
  keeps m →
  (∀ s, (∃ a, (m s).1 = Return a) ∧ clients (m s).2 = clients s ∧
        connectionTimestamps (m s).2 = connectionTimestamps s) →
  frames id c d m.
Proof.
  intros Hk Hm s H (cl & Hc & Htr). destruct (Hm s) as (Hr & Ec & Et).
  split; [exact Hr|]. split; [by apply Hk|].
  exists cl. rewrite Ec. split; [exact Hc|].
  apply tracked_Some. apply tracked_Some in Htr. by rewrite Et.
Qed.

Lemma frames_log id c d level msg : frames id c d (log level msg).
Proof. apply frames_plain; [apply keeps_log|]. intros s. by repeat split; [eexists|..]. Qed.

Lemma frames_clearTimeout id c d t : frames id c d (clearTimeout t).
Proof.
  apply frames_plain; [apply keeps_clearTimeout|].
  intros s. destruct t; by repeat split; [eexists|..].
Qed.

Lemma frames_clear_current_timer id c d id' : frames id c d (clear_current_timer id').
Proof.
  apply frames_plain; [apply keeps_clear_current_timer|].
  intros s. unfold clear_current_timer. open_body.
  destruct (acquisitions s !! id') as [a|]; [|by repeat split; [eexists|..]].
  destruct (currentQueryTimeoutTimer a); by repeat split; [eexists|..].
Qed.

Lemma frames_cancel_done id c d t :
  frames id c d (modify (λ s, set_cancellations (delete t (cancellations s)) s)).
Proof.
  apply frames_plain; [by apply keeps_view|].
  intros s. by repeat split; [eexists|..].
Qed.

Lemma frames_query_done id c d q :
  frames id c d (modify (λ s, set_queries (delete q (queries s)) s)).
Proof.
  apply frames_plain; [by apply keeps_view|].
  intros s. by repeat split; [eexists|..].
Qed.

Lemma frames_performClientRelease id c d cc e f now :
  cc ≠ c → frames id c d (performClientRelease cc e f now).
Proof.
  intros Hne s H (cl & Hc & Htr).
  pose proof (keeps_performClientRelease cc e f now s H) as H'.
  pose proof Htr as Htr'. apply tracked_Some in Htr' as [Hid Hd].
  destruct (clients s !! cc) as [clc|] eqn:Hcc.
  - destruct (tracked s clc) as [[id' d']|] eqn:Htc.
    + destruct (release_tracked s cc clc id' d' e f now Hcc Htc)
        as (Hr & Em & _ & _ & _ & _ & _ & _ & Ec & _).
      split; [by eexists|]. split; [exact H'|].
      exists cl. rewrite Ec, lookup_insert_ne by done. split; [done|].
      apply tracked_Some. split; [done|].
      rewrite Em, lookup_delete_ne; [done|].
      intros ->. apply tracked_Some in Htc as [Hidc _].
      destruct (wf_lease s H cc clc id Hcc Hidc) as (_&_&_&_&E1).
      destruct (wf_lease s H c cl id Hc Hid) as (_&_&_&_&E2). congruence.
    + destruct (release_untracked s cc clc e f now Hcc Htc)
        as (Hr & _ & Em & _ & _ & _ & _ & _ & _ & Ec & _).
      split; [by eexists|]. split; [exact H'|].
      exists cl. rewrite Ec, lookup_insert_ne by done. split; [done|].
      apply tracked_Some. by rewrite Em.
  - revert H'. step_body. rewrite Hcc. simpl. intros H'.
    split; [by eexists|]. split; [exact H'|]. by exists cl.
Qed.

Lemma frames_client_release id c d cc arg now :
  cc ≠ c → frames id c d (client_release cc arg now).
Proof.
  intros Hne s H Hh. pose proof (keeps_client_release cc arg now s H) as H'.
  revert H'. unfold client_release. open_body.
  destruct (releasePatched (default (blank None) (clients s !! cc))).
  - intros _. by apply frames_performClientRelease.
  - destruct Hh as (cl & Hc & Htr). intros H'.
    split; [|split; [exact H'|exists cl]];
      by destruct arg as [| |[]]; step_body; eauto.
Qed.

Lemma discards_release id c d now : discards id c d now (release_timed_out id now).
Proof. intros s H Hh. by apply release_timed_out_discards. Qed.

Lemma discards_bind {A} id c d now (m : M State A) (f : A → M State unit) :
  frames id c d m → (∀ a, discards id c d now (f a)) → discards id c d now (m ≫= f).
Proof.
  intros Hm Hf s H Hh. destruct (Hm s H Hh) as ((a & Ha) & H' & Hh').
  unfold mbind, M_bind. destruct (m s) as [[a'|e] s1]; simpl in *; [|discriminate].
  by apply Hf.
Qed.

Lemma exec_returns (m : M State unit) (s : State) :
  (m s).1 = Return tt → exec m s = (m s).2.
Proof. unfold exec. destruct (m s) as [[[]|e] s']; simpl; [done|discriminate]. Qed.

(** The start of the callback on a manager somebody listens to. *)
Lemma timer_callback_heard (s : State) t cb now :
  errorListeners s ≠ 0%nat →
  timer_callback t cb now s
  = match currentClientProcessID cb with
    | Some (S pid) =>
        (Return tt,
         set_cancellations
           (<[t := {| cancelLease := timerLease cb; cancelPID := S pid;
                      cancelStage := CancelConnecting |}]> (cancellations s))
           (set_out
              (out s ++ [Log WARNING "Query timeout detected. Attempting pg_cancel_backend...";
                         EmitError (DatabaseConnectionError "Query timeout detected");
                         Log INFO ("Attempting to acquire separate client to cancel PID: "
                                   ++ pretty (S pid));
                         PoolConnect (Cancelling t)])%list s))
    | _ =>
        (log WARNING "Cannot attempt pg_cancel_backend: client.processID is not available.";;
         release_timed_out (timerLease cb) now)
          (set_out
             (out s ++ [Log WARNING "Query timeout detected. Attempting pg_cancel_backend...";
                        EmitError (DatabaseConnectionError "Query timeout detected")])%list s)
    end.
Proof.
  intros Hl. unfold timer_callback, emit_error.
  destruct (errorListeners s) as [|n] eqn:E; [done|].
  destruct (currentClientProcessID cb) as [[|pid]|]; step_body; rewrite E; simpl;
    by rewrite <- ?app_assoc.
Qed.

Lemma frames_ret {A} id c d (a : A) : frames id c d (mret a).
Proof. intros s H Hh. split; [by eexists|]. by split. Qed.

(** The deadline passes on a manager somebody listens to.  A pending
    timer belongs to a tracked lease.  With the client's process id at
    hand the callback asks the pool for a separate client and waits, the
    lease untouched; without it the callback gives the lease up at once. *)
Lemma timer_fires_effect (s s' : State) t cb now :
  wf s → timers s !! t = Some cb → errorListeners s ≠ 0%nat →
  fire (TimerFires t now) s = Some s' →
  ∃ c d, holds (timerLease cb) c d s ∧
    match currentClientProcessID cb with
    | Some (S pid) =>
        timers s' = delete t (timers s) ∧
        out s' = (out s ++ [Log WARNING "Query timeout detected. Attempting pg_cancel_backend...";
                            EmitError (DatabaseConnectionError "Query timeout detected");
                            Log INFO ("Attempting to acquire separate client to cancel PID: "
                                      ++ pretty (S pid));
                            PoolConnect (Cancelling t)])%list ∧
        cancellations s'
        = <[t := {| cancelLease := timerLease cb; cancelPID := S pid;
                    cancelStage := CancelConnecting |}]> (cancellations s) ∧
        holds (timerLease cb) c d s'
    | _ => discarded (timerLease cb) c d now s'
    end.
Proof.
  intros H Ht Hl. unfold Pool.fire. simpl. rewrite Ht. simpl. intros [= <-].
  destruct (wf_timer s H t cb Ht) as (d & a & Hd & _).
  destruct (wf_owner s H (timerLease cb)) as (c & cl & Hc & Hid); [by eexists|].
  assert (holds (timerLease cb) c d s) as Hh.
  { exists cl. split; [done|]. by apply tracked_Some. }
  exists c, d. split; [exact Hh|].
  pose proof (keeps_clearTimeout (Some t) s H) as Hwf1. simpl in Hwf1.
  unfold exec.
  change ((modify (λ s0, set_timers (delete t (timers s0)) s0);; timer_callback t cb now) s)
    with (timer_callback t cb now (set_timers (delete t (timers s)) s)).
  rewrite timer_callback_heard by done.
  set (s1 := set_out _ _).
  assert (wf s1) as Hwf2 by (eapply wf_view; [|exact Hwf1]; reflexivity).
  assert (holds (timerLease cb) c d s1) as Hh1.
  { exists cl. split; [exact Hc|]. apply tracked_Some. split; [exact Hid|exact Hd]. }
  assert (discards (timerLease cb) c d now
            (log WARNING "Cannot attempt pg_cancel_backend: client.processID is not available.";;
             release_timed_out (timerLease cb) now)) as Hdis.
  { apply discards_bind; [apply frames_log|]. intros _. apply discards_release. }
  destruct (Hdis s1 Hwf2 Hh1) as [Hr Hd1]. revert Hr Hd1.
  generalize ((log WARNING "Cannot attempt pg_cancel_backend: client.processID is not available.";;
               release_timed_out (timerLease cb) now) s1).
  intros [r s2]. simpl. intros -> Hd1.
  destruct (currentClientProcessID cb) as [[|pid]|]; [exact Hd1| |exact Hd1].
  simpl. by repeat split.
Qed.

(** The same deadline, the client's process id unknown: what the
    callback writes and asks for, from the warning to the release. *)
Lemma timer_fires_without_pid (s s' : State) t cb now c d :
  wf s → timers s !! t = Some cb → errorListeners s ≠ 0%nat →
  holds (timerLease cb) c d s →
  (∀ pid, currentClientProcessID cb ≠ Some (S pid)) →
  fire (TimerFires t now) s = Some s' →
  out s'
  = (out s ++ [Log WARNING "Query timeout detected. Attempting pg_cancel_backend...";
               EmitError (DatabaseConnectionError "Query timeout detected");
               Log WARNING "Cannot attempt pg_cancel_backend: client.processID is not available.";
               Log INFO "Performing client release."; DriverRelease c true;
               EmitConnectionStatus
                 (Z.max 0 (activeLeasedConnections (metrics s) - 1))])%list.
Proof.
  intros H Ht Hl Hh Hpid. unfold Pool.fire. simpl. rewrite Ht. simpl. intros [= <-].
  pose proof (keeps_clearTimeout (Some t) s H) as Hwf1. simpl in Hwf1.
  unfold exec.
  change ((modify (λ s0, set_timers (delete t (timers s0)) s0);; timer_callback t cb now) s)
    with (timer_callback t cb now (set_timers (delete t (timers s)) s)).
  rewrite timer_callback_heard by done.
  set (s1 := set_out _ (set_timers _ s)).
  set (s2 := set_out (out s1 ++ [Log WARNING "Cannot attempt pg_cancel_backend: client.processID is not available."])%list s1).
  assert (wf s2) as Hwf2 by (eapply wf_view; [|exact Hwf1]; reflexivity).
  destruct Hh as (cl & Hc & Htr).
  assert (holds (timerLease cb) c d s2) as Hh2 by (by exists cl).
  destruct (holds_lease s2 _ c d Hwf2 Hh2) as (a & cl' & Ha & Hle & Hc' & Htr').
  destruct (timed_out_lease_is_discarded s2 _ a c cl' d now Hwf2 Ha Hle Hc' Htr')
    as (_ & Ho & _).
  destruct (release_timed_out_discards s2 _ c d now Hwf2 Hh2) as [Hr _].
  change ((log WARNING "Cannot attempt pg_cancel_backend: client.processID is not available.";;
           release_timed_out (timerLease cb) now) s1)
    with (release_timed_out (timerLease cb) now s2).
  assert (match currentClientProcessID cb with
          | Some (S pid) =>
              (Return tt,
               set_cancellations
                 (<[t := {| cancelLease := timerLease cb; cancelPID := S pid;
                            cancelStage := CancelConnecting |}]>
                    (cancellations (set_timers (delete t (timers s)) s)))
                 (set_out
                    (out (set_timers (delete t (timers s)) s) ++
                     [Log WARNING "Query timeout detected. Attempting pg_cancel_backend...";
                      EmitError (DatabaseConnectionError "Query timeout detected");
                      Log INFO ("Attempting to acquire separate client to cancel PID: "
                                ++ pretty (S pid));
                      PoolConnect (Cancelling t)])%list
                    (set_timers (delete t (timers s)) s)))
          | _ => release_timed_out (timerLease cb) now s2
          end = release_timed_out (timerLease cb) now s2) as ->.
  { destruct (currentClientProcessID cb) as [[|pid]|];
      [done | by destruct (Hpid pid) | done]. }
  revert Hr Ho. generalize (release_timed_out (timerLease cb) now s2).
  intros [r s3]. simpl. intros -> ->. by rewrite <- !app_assoc.
Qed.

(** The pool refuses the separate client: the callback gives up the
    lease, if it is still tracked, and sends no cancellation. *)
Lemma cancel_refused_effect (s s' : State) t k e now c d :
  wf s → cancellations s !! t = Some k → cancelStage k = CancelConnecting →
  holds (cancelLease k) c d s →
  fire (ConnectSettles (Cancelling t) (Throw e) now) s = Some s' →
  discarded (cancelLease k) c d now s'.
Proof.
  intros H Hk Hst Hh. unfold Pool.fire. simpl. rewrite Hk. simpl. rewrite Hst. simpl.
  intros [= <-].
  assert (discards (cancelLease k) c d now (cancel_connected t k (Throw e) now)) as Hd.
  { unfold cancel_connected. apply discards_bind; [apply frames_log|]. intros _.
    apply discards_bind; [apply frames_cancel_done|]. intros _. apply discards_release. }
  destruct (Hd s H Hh) as [Hr Hdis]. by rewrite exec_returns.
Qed.

(** The cancellation statement settles, either way: the callback hands
    its separate client back and gives up the lease, if it is still
    tracked. *)
Lemma cancel_settled_effect (s s' : State) q info r now t k cc c d :
  wf s → queries s !! q = Some info → awaitedBy info = Some (Cancelling t) →
  cancellations s !! t = Some k → cancelStage k = CancelQuerying cc →
  holds (cancelLease k) c d s → cc ≠ c →
  fire (QuerySettles q r now) s = Some s' →
  discarded (cancelLease k) c d now s'.
Proof.
  intros H Hq Haw Hk Hst Hh Hne. unfold Pool.fire. simpl. rewrite Hq. simpl.
  intros [= <-].
  set (prefix := (modify (λ s, set_queries (delete q (queries s)) s);;
                  match viaWrapper info with
                  | Some id => clear_current_timer id
                  | None => mret tt
                  end) : M State unit).
  assert (frames (cancelLease k) c d prefix) as Hf.
  { apply frames_bind; [apply frames_query_done|]. intros _.
    destruct (viaWrapper info); [apply frames_clear_current_timer|apply frames_ret]. }
  assert (cancellations (prefix s).2 = cancellations s) as Hc.
  { unfold prefix, clear_current_timer. step_body.
    destruct (viaWrapper info) as [id|]; simpl; [|done].
    destruct (acquisitions s !! id) as [a|]; simpl; [|done].
    by destruct (currentQueryTimeoutTimer a). }
  assert (discards (cancelLease k) c d now (cancel_queried t k cc r now)) as Hd.
  { unfold cancel_queried. apply discards_bind; [destruct r; apply frames_log|].
    intros _. apply discards_bind; [by apply frames_client_release|]. intros _.
    apply discards_bind; [apply frames_cancel_done|]. intros _. apply discards_release. }
  destruct (Hf s H Hh) as ((u & Hu) & H1 & Hh1).
  destruct (Hd _ H1 Hh1) as [Hr Hdis].
  assert (query_settled q info r now s = cancel_queried t k cc r now (prefix s).2) as E.
  { unfold query_settled.
    change ((modify (λ s0, set_queries (delete q (queries s0)) s0);;
             match viaWrapper info with
             | Some id => clear_current_timer id
             | None => mret tt
             end;; ?rest) s)
      with (match prefix s with
            | (Return _, s1) => rest s1
            | (Throw e, s1) => (Throw e, s1)
            end).
    destruct (prefix s) as [[[]|e] s1]; simpl in *; [|discriminate].
    unfold mbind, M_bind, get. rewrite Haw, Hc, Hk, Hst. reflexivity. }
  rewrite exec_returns; rewrite E; done.
Qed.

(** A statement the caller sent through the wrapper, and which returned
    a promise, settles: whatever timer the lease had pending is cleared,
    and nothing is sent, logged or counted. *)
Lemma settled_in_time (s s' : State) q info id r now :
  wf s → queries s !! q = Some info →
  viaWrapper info = Some id → awaitedBy info = None →
  fire (QuerySettles q r now) s = Some s' →
  out s' = out s ∧ cancellations s' = cancellations s ∧ metrics s' = metrics s ∧
  connectionTimestamps s' = connectionTimestamps s ∧
  ∀ t cb, timers s' !! t = Some cb → timerLease cb ≠ id.
Proof.
  intros H Hq Hv Ha. unfold Pool.fire. simpl. rewrite Hq. simpl. intros [= <-].
  unfold exec, query_settled, clear_current_timer. rewrite Hv, Ha. step_body.
  destruct (acquisitions s !! id) as [a|] eqn:E; simpl.
  - destruct (currentQueryTimeoutTimer a) as [t0|] eqn:Et; simpl;
      repeat split; try done; intros t cb Ht Hl.
    + apply lookup_delete_Some in Ht as [Hne Ht].
      destruct (wf_timer s H t cb Ht) as (d & a' & _ & _ & Ha' & Hcur).
      rewrite Hl in Ha'. congruence.
    + destruct (wf_timer s H t cb Ht) as (d & a' & _ & _ & Ha' & Hcur).
      rewrite Hl in Ha'. congruence.
  - repeat split; try done. intros t cb Ht Hl.
    destruct (wf_timer s H t cb Ht) as (d & a' & _ & _ & Ha' & Hcur).
    rewrite Hl in Ha'. congruence.
Qed.

(** C5, as amended.  On every state a new manager can reach:
    no timer callback has sent more than one cancellation statement;
    when a pending timer fires on a manager with an ['error'] listener, the
    lease of the timer is still tracked, and the callback logs the
    timeout, emits the error and either (the client's process id known)
    asks the pool for a separate client and waits, the timer off the table
    and the lease untouched, or (process id unknown) logs that it cannot
    cancel and gives the lease up at once;
    when the pool refuses the separate client, or when the cancellation
    statement settles either way, the callback gives the lease up,
    provided a client other than the separate one still carries it;
    and when a statement that the caller sent through the wrapper and that
    returned a promise settles, either way, the lease has no timer pending
    any more and nothing is logged, emitted, sent or counted.  A lease
    given up ([discarded]) has the error release with the timeout message
    as last history entry, its client destroyed by the last release the
    driver was asked for and back with the driver, and its row off the
    table. *)
Theorem query_timeout_handling (created : Z) (evs : list Event) (s : State) :
  run evs (new_pool created) = Some s →
  (∀ t : TimerId, (attempts t (out s) ≤ 1)%nat) ∧
  (∀ t cb now s',
     timers s !! t = Some cb → errorListeners s ≠ 0%nat →
     fire (TimerFires t now) s = Some s' →
     ∃ c d, holds (timerLease cb) c d s ∧
       match currentClientProcessID cb with
       | Some (S pid) =>
           timers s' = delete t (timers s) ∧
           out s' = (out s ++ [Log WARNING "Query timeout detected. Attempting pg_cancel_backend...";
                               EmitError (DatabaseConnectionError "Query timeout detected");
                               Log INFO ("Attempting to acquire separate client to cancel PID: "
                                         ++ pretty (S pid));
                               PoolConnect (Cancelling t)])%list ∧
           cancellations s'
           = <[t := {| cancelLease := timerLease cb; cancelPID := S pid;
                       cancelStage := CancelConnecting |}]> (cancellations s) ∧
           holds (timerLease cb) c d s'
       | _ =>
           out s' = (out s ++ [Log WARNING "Query timeout detected. Attempting pg_cancel_backend...";
                               EmitError (DatabaseConnectionError "Query timeout detected");
                               Log WARNING "Cannot attempt pg_cancel_backend: client.processID is not available.";
                               Log INFO "Performing client release."; DriverRelease c true;
                               EmitConnectionStatus
                                 (Z.max 0 (activeLeasedConnections (metrics s) - 1))])%list ∧
           discarded (timerLease cb) c d now s'
       end) ∧
  (∀ t k e now c d s',
     cancellations s !! t = Some k → cancelStage k = CancelConnecting →
     holds (cancelLease k) c d s →
     fire (ConnectSettles (Cancelling t) (Throw e) now) s = Some s' →
     discarded (cancelLease k) c d now s') ∧
  (∀ q info r now t k cc c d s',
     queries s !! q = Some info → awaitedBy info = Some (Cancelling t) →
     cancellations s !! t = Some k → cancelStage k = CancelQuerying cc →
     holds (cancelLease k) c d s → cc ≠ c →
     fire (QuerySettles q r now) s = Some s' →
     discarded (cancelLease k) c d now s') ∧
  (∀ q info id r now s',
     queries s !! q = Some info →
     viaWrapper info = Some id → awaitedBy info = None →
     fire (QuerySettles q r now) s = Some s' →
     out s' = out s ∧ cancellations s' = cancellations s ∧ metrics s' = metrics s ∧
     connectionTimestamps s' = connectionTimestamps s ∧
     ∀ t cb, timers s' !! t = Some cb → timerLease cb ≠ id).
Proof.
  intros Hrun.
  destruct (run_invariants evs _ s (wf_new_pool created) (cancel_wf_new_pool created) Hrun)
    as [H Hc].
  split; [exact (c_once s Hc)|]. split; [|split; [|split]].
  - intros t cb now s' Ht Hl Hf.
    destruct (timer_fires_effect s s' t cb now H Ht Hl Hf) as (c & d & Hh & Hm).
    exists c, d. split; [exact Hh|].
    pose proof (timer_fires_without_pid s s' t cb now c d H Ht Hl Hh) as Ho.
    destruct (currentClientProcessID cb) as [[|pid]|]; [|exact Hm|];
      (split; [apply Ho; [intros pid'; discriminate | exact Hf] | exact Hm]).
  - intros t k e now c d s'. by apply cancel_refused_effect.
  - intros q info r now t k cc c d s'. by apply cancel_settled_effect.
  - intros q info id r now s'. by apply settled_in_time.
Qed.

End Configured.

(** ** Sample runs *)

(** A pool of one client, the client leased: the counter is at the
    pool's capacity. *)
Lemma active_leases_within_bounds_witness :
  let s := after (Some 1%nat) one_lease in
  run (Some 1%nat) one_lease (new_pool 0) = Some s ∧
  activeLeasedConnections (metrics s) = 1 ∧
  0 ≤ activeLeasedConnections (metrics s) ≤ Z.of_nat (capacity (Some 1%nat)).
Proof.
  split; [vm_compute; reflexivity|]. split; [vm_compute; reflexivity|].
  apply (active_leases_within_bounds (Some 1%nat) 0 one_lease).
  vm_compute; reflexivity.
Defined.

(** The same lease released, and released again. *)
Lemma release_is_idempotent_witness :
  let s := after (Some 1%nat) one_lease in
  let r := performClientRelease 1%nat None None 200 s in
  run (Some 1%nat) one_lease (new_pool 0) = Some s ∧
  activeLeasedConnections (metrics s) = 1 ∧
  r.1 = Return tt ∧
  activeLeasedConnections (metrics r.2) = 0 ∧
  releasedConnections (metrics r.2) = 1 ∧
  connectionTimestamps r.2 = ∅ ∧
  performClientRelease 1%nat None None 300 r.2
  = (Return tt,
     set_out (out r.2 ++ [Log INFO "performClientRelease called on an untracked or already processed client."])%list r.2).
Proof.
  intros s r. subst r.
  assert (run (Some 1%nat) one_lease (new_pool 0) = Some s) as Hrun
    by (vm_compute; reflexivity).
  assert (clients s !! 1%nat = Some (default (blank None) (clients s !! 1%nat))) as Hcl
    by (vm_compute; reflexivity).
  pose proof (release_is_idempotent (Some 1%nat) 0 one_lease s 1%nat _ None None 200
                Hrun Hcl) as (Hr & _ & Htr & _).
  assert (tracked s (default (blank None) (clients s !! 1%nat))
          = Some ("conn_a", {| acquiredAt := 100; options := None;
                               processID := Some 4242%nat;
                               queryTimeoutTimer := None |})) as Et
    by (vm_compute; reflexivity).
  rewrite Et in Htr. destruct Htr as (Ha & Hn & Hd & _ & Hagain).
  split; [exact Hrun|]. split; [vm_compute; reflexivity|]. split; [exact Hr|].
  split; [rewrite Ha; vm_compute; reflexivity|].
  split; [rewrite Hn; vm_compute; reflexivity|].
  split; [rewrite Hd; vm_compute; reflexivity|].
  apply Hagain.
Defined.

(** A pool of two clients: the statement on the first times out, the
    callback sends the cancellation through the second, and once that
    statement settles the lease is given up. *)
Lemma query_timeout_handling_witness :
  let s := after (Some 2%nat) timing_out in
  run (Some 2%nat) timing_out (new_pool 0) = Some s ∧
  fire (Some 2%nat) (QuerySettles 2%nat (Return tt) 10130) s
  = Some (after (Some 2%nat) timed_out) ∧
  discarded "conn_a" 1%nat
    {| acquiredAt := 100; options := None; processID := Some 4242%nat;
       queryTimeoutTimer := Some 0%nat |}
    10130 (after (Some 2%nat) timed_out) ∧
  attempts 0%nat (out (after (Some 2%nat) timed_out)) = 1%nat.
Proof.
  intros s.
  assert (run (Some 2%nat) timing_out (new_pool 0) = Some s) as Hrun
    by (vm_compute; reflexivity).
  assert (fire (Some 2%nat) (QuerySettles 2%nat (Return tt) 10130) s
          = Some (after (Some 2%nat) timed_out)) as Hfire
    by (vm_compute; reflexivity).
  destruct (query_timeout_handling (Some 2%nat) 0 timing_out s Hrun)
    as (_ & _ & _ & Hsettled & _).
  split; [exact Hrun|]. split; [exact Hfire|]. split; [|vm_compute; reflexivity].
  apply (Hsettled 2%nat {| viaWrapper := None; awaitedBy := Some (Cancelling 0%nat) |}
           (Return tt) 10130 0%nat
           {| cancelLease := "conn_a"; cancelPID := 4242%nat;
              cancelStage := CancelQuerying 2%nat |} 2%nat 1%nat);
    [vm_compute; reflexivity | reflexivity | vm_compute; reflexivity | reflexivity
    | | discriminate | exact Hfire].
  exists (default (blank None) (clients s !! 1%nat)).
  split; vm_compute; reflexivity.
Defined.

(** What C5 says and the code does not do.  A statement sent with a
    callback completes, its timer stays pending, fires, and a
    cancellation is under way.  A caller releases its handle while the
    callback of the fired timer waits for its separate client: the lease
    is recorded as an ordinary release, the client goes back to the pool
    twice and is never destroyed, and the cancellation is sent all the
    same.  On a manager nobody listens to, the callback dies emitting the
    error: nothing is released. *)
Lemma query_timeout_counterexample :
  let completed :=
    after (Some 1%nat)
      (one_lease ++ [ClientQuery 1%nat "SELECT 1" false; QuerySettles 1%nat (Return tt) 200]) in
  let fired := after (Some 1%nat) callback_style in
  let late := after (Some 1%nat) released_meanwhile in
  let deaf := after None unheard in
  (queries completed = ∅ ∧
   timerLease <$> timers completed !! 0%nat = Some "conn_a") ∧
  (run (Some 1%nat) callback_style (new_pool 0) = Some fired ∧
   last (out fired) = Some (PoolConnect (Cancelling 0%nat)) ∧
   cancelPID <$> cancellations fired !! 0%nat = Some 4242%nat) ∧
  (run (Some 1%nat) released_meanwhile (new_pool 0) = Some late ∧
   type <$> connectionHistory (metrics late) = [acquired; released] ∧
   filter (λ o, is_driver_release o = true) (out late)
   = [DriverRelease 1%nat false; DriverRelease 1%nat false] ∧
   destroyed late = ∅ ∧ attempts 0%nat (out late) = 1%nat) ∧
  (run None unheard (new_pool 0) = Some deaf ∧
   last (out deaf) = Some (Unhandled (DatabaseConnectionError "Query timeout detected")) ∧
   filter (λ o, is_driver_release o = true) (out deaf) = [] ∧
   activeLeasedConnections (metrics deaf) = 1 ∧
   connectionHistory (metrics deaf)
   = [{| type := acquired; timestamp := 105; connectionId := Some "conn_a";
         durationMs := Some 5; error := None |}]).
Proof. vm_compute. repeat split; reflexivity. Qed.

(** [getConnection] itself, when one of its own setup statements fails:
    the promise is rejected and the client stays leased, with the driver
    never asked to take it back. *)
Remark getConnection_keeps_the_client_when_setup_fails :
  let s := after (Some 1%nat) setup_fails in
  run (Some 1%nat) setup_fails (new_pool 0) = Some s ∧
  last (out s)
  = Some (Settled "conn_a"
            (Throw (DatabaseConnectionError
                      "Failed to acquire connection: syntax error at or near REPEATABLE_READ"))) ∧
  filter (λ o, is_driver_release o = true) (out s) = [] ∧
  elements (checkedOut s) = [1%nat] ∧
  activeLeasedConnections (metrics s) = 1 ∧
  failedAcquisitions (metrics s) = 1 ∧
  is_Some (connectionTimestamps s !! "conn_a").
Proof. vm_compute. repeat split; try reflexivity. by eexists. Qed.

End PoolFacts.

(** * Properties of the accessors of the transaction manager *)

Module TxnAccessFacts.
Import Txn TxnAccess.
Local Open Scope Z_scope.

Ltac run_body :=
  repeat (unfold beginTransaction, commit, rollback, releaseClient, resetMetrics,
            getClient, getStandaloneClient, query,
            modify_metrics, assign, call, this, await,
            try_catch, try_finally, throw, modify, get, mbind, mret, M_bind, M_ret;
          simpl).

Ltac cases := repeat (case_match; simplify_eq/=).

Lemma update_first_length {A} (p : A → bool) (f : A → A) (l : list A) :
  length (update_first p f l) = length l.
Proof.
  induction l as [|x l IH]; simpl; [done|]. destruct (p x); simpl; by rewrite ?IH.
Qed.

Lemma record_completion_rest st i ended started cap m :
  activeTransactions (record_completion st i ended started cap m)
    = activeTransactions m ∧
  totalTransactions (record_completion st i ended started cap m)
    = totalTransactions m ∧
  length (transactionHistory (record_completion st i ended started cap m))
    = length (transactionHistory m).
Proof.
  unfold record_completion.
  destruct (find_entry i m); [|done].
  destruct started; simpl; by rewrite update_first_length.
Qed.

Ltac completion_rest :=
  match goal with
  | |- context [record_completion ?st ?i ?ended ?started ?cap ?m] =>
      destruct (record_completion_rest st i ended started cap m)
        as (Hactive & Htotal & Hlength);
      rewrite ?Hactive, ?Htotal, ?Hlength
  end.

Lemma begin_coherent env options w :
  coherent (tm w) → coherent (tm (beginTransaction env options w).2).
Proof.
  unfold coherent. destruct (client (tm w)) as [c|] eqn:Hc; intros [Hact Ha];
    run_body; rewrite Hact; simpl; cases; simpl; rewrite ?Hc, ?Ha; done.
Qed.

Lemma commit_coherent env w : coherent (tm w) → coherent (tm (commit env w).2).
Proof.
  unfold coherent. destruct (client (tm w)) as [c|] eqn:Hc; intros [Hact Ha];
    run_body; rewrite Hact, ?Hc; simpl; cases; simpl; try congruence;
    try completion_rest; simpl; rewrite ?Hc, ?Ha; done.
Qed.

Lemma rollback_coherent env w : coherent (tm w) → coherent (tm (rollback env w).2).
Proof.
  unfold coherent. destruct (client (tm w)) as [c|] eqn:Hc; intros [Hact Ha];
    run_body; rewrite Hact, ?Hc; simpl; cases; simpl; try congruence;
    try completion_rest; simpl; rewrite ?Hc, ?Ha; done.
Qed.

Lemma run_coherent ops w : coherent (tm w) → coherent (tm (run ops w)).
Proof.
  revert w. induction ops as [|op ops IH]; intros w Hw; [exact Hw|].
  simpl. apply IH. unfold after. destruct op; simpl.
  - by apply begin_coherent.
  - by apply commit_coherent.
  - by apply rollback_coherent.
  - exact Hw.
Qed.

Lemma slice_last_length {A} (n : nat) (l : list A) :
  (length (slice_last n l) ≤ n)%nat.
Proof. unfold slice_last. rewrite length_drop. lia. Qed.

Lemma push_history_bounded h m :
  (length (transactionHistory (push_history h m)) ≤ 100)%nat.
Proof.
  unfold push_history. simpl. case_decide; [apply slice_last_length | lia].
Qed.

Lemma begin_bounded env options w :
  bounded (tm w) → bounded (tm (beginTransaction env options w).2).
Proof.
  unfold bounded. intros Hb. run_body.
  cases; simpl; rewrite ?update_first_length; try done;
    try apply slice_last_length; lia.
Qed.

Lemma commit_bounded env w : bounded (tm w) → bounded (tm (commit env w).2).
Proof.
  unfold bounded. intros Hb. run_body.
  cases; simpl; try completion_rest; rewrite ?update_first_length; done.
Qed.

Lemma rollback_bounded env w : bounded (tm w) → bounded (tm (rollback env w).2).
Proof.
  unfold bounded. intros Hb. run_body.
  cases; simpl; try completion_rest; rewrite ?update_first_length; done.
Qed.

Lemma reset_bounded reset_at w :
  bounded (tm w) → bounded (tm (resetMetrics reset_at w).2).
Proof.
  unfold bounded. intros Hb. run_body.
  etrans; [apply List.filter_length_le|exact Hb].
Qed.

Lemma run_bounded ops w : bounded (tm w) → bounded (tm (run ops w)).
Proof.
  revert w. induction ops as [|op ops IH]; intros w Hw; [exact Hw|].
  simpl. apply IH. unfold after. destruct op; simpl.
  - by apply begin_bounded.
  - by apply commit_bounded.
  - by apply rollback_bounded.
  - by apply reset_bounded.
Qed.

Lemma find_filter {A} (p q : A → bool) (l : list A) (x : A) :
  List.find p l = Some x → q x = true → List.find p (List.filter q l) = Some x.
Proof.
  induction l as [|y l IH]; simpl; [done|]. intros Hfind Hq.
  destruct (p y) eqn:Hp.
  - injection Hfind as ->. rewrite Hq. simpl. by rewrite Hp.
  - destruct (q y); simpl; rewrite ?Hp; by apply IH.
Qed.

Lemma find_update_first {A} (p : A → bool) (f : A → A) (l : list A) (x : A) :
  List.find p l = Some x → p (f x) = true →
  List.find p (update_first p f l) = Some (f x).
Proof.
  induction l as [|y l IH]; simpl; [done|]. intros Hfind Hp.
  destruct (p y) eqn:Hy.
  - injection Hfind as ->. simpl. by rewrite Hp.
  - simpl. rewrite Hy. by apply IH.
Qed.

(** Whatever calls a manager has served one after the other, each
    settled before the next was made (calls made while one is pending are
    not covered: the flag is set only at the end of [beginTransaction]), it
    holds a client exactly while a transaction is in progress,
    [activeTransactions] is 1 then and 0 otherwise, and [getClient()]
    hands out that client or throws. *)
Theorem client_is_held_exactly_during_a_transaction
    (ops : list Op) (id : string) (created : Z) :
  let w := run ops (new_manager id created) in
  match client (tm w) with
  | Some c =>
      isActive (tm w) = true ∧ activeTransactions (metrics (tm w)) = 1 ∧
      getClient w = (Return c, w)
  | None =>
      isActive (tm w) = false ∧ activeTransactions (metrics (tm w)) = 0 ∧
      getClient w = (Throw (OrmError "No active transaction client"), w)
  end.
Proof.
  intros w. assert (coherent (tm w)) as H by (by apply run_coherent).
  unfold coherent, isActive in *. run_body.
  destruct (client (tm w)); destruct H as [-> ->]; done.
Qed.

(** Whatever calls a manager has served, its history holds at most 100
    entries. *)
Theorem history_holds_at_most_100_entries
    (ops : list Op) (id : string) (created : Z) :
  (length (transactionHistory (metrics (tm (run ops (new_manager id created))))) ≤ 100)%nat.
Proof. apply (run_bounded ops (new_manager id created)). unfold bounded. simpl. lia. Qed.

(** A [COMMIT] or [ROLLBACK] statement that fails: the driver's error is
    rethrown as it is; the calls made are the statement and the release of
    the client, and the manager is idle; the first history entry that
    carries the manager's stored id, if there is one, is marked [failed]
    with the prefixed message and no other entry changes (that entry is
    the one [beginTransaction] pushed for the transaction as long as the
    stored id is still the one it generated); and no counter but
    [activeTransactions] moves, [failedTransactions] included. *)
Theorem failed_statement_is_counted_nowhere (w : World) (env : EndEnv)
    (c : PoolClient) (e : JsError) :
  isTransactionActive (tm w) = true → client (tm w) = Some c →
  q_end env = Throw e →
  let mark prefix :=
    settle_entry failed (now_end env)
      (bool_decide (is_Some (transactionStartTime (tm w))))
      (Some (prefix ++ message e)) in
  let ended (r : completion unit * World) prefix sql :=
    r.1 = Throw e ∧
    calls r.2 = (calls w ++ [Query c sql; Release c])%list ∧ idle (tm r.2) ∧
    same_counters (metrics (tm w)) (metrics (tm r.2)) ∧
    transactionHistory (metrics (tm r.2))
    = update_first (has_id (requestId (tm w))) (mark prefix)
        (transactionHistory (metrics (tm w))) in
  ended (commit env w) "Commit failed: " "COMMIT" ∧
  ended (rollback env w) "Rollback failed: " "ROLLBACK".
Proof.
  intros Hact Hc He mark ended. unfold ended, mark, same_counters, idle.
  split; run_body; repeat (progress (rewrite ?Hact, ?Hc, ?He; simpl));
    rewrite <- ?app_assoc; done.
Qed.

Lemma failed_statement_witness :
  let r := commit (statement_fails 40) in_progress in
  r.1 = Throw (Error "server closed the connection") ∧
  calls r.2 = (calls in_progress ++ [Query 7%nat "COMMIT"; Release 7%nat])%list ∧
  failedTransactions (metrics (tm r.2)) = 0 ∧
  completedTransactions (metrics (tm r.2)) = 0 ∧
  (status <$> transactionHistory (metrics (tm r.2))) = [failed].
Proof.
  destruct (failed_statement_is_counted_nowhere in_progress (statement_fails 40)
              7%nat (Error "server closed the connection") eq_refl eq_refl eq_refl)
    as [(Hr & Hcalls & _ & (_ & Hcompleted & _ & _ & Hfailed & _) & Hhistory) _].
  split; [exact Hr|]. split; [exact Hcalls|].
  split; [by rewrite Hfailed|]. split; [by rewrite Hcompleted|].
  by rewrite Hhistory.
Defined.

(** [resetMetrics()] on a manager whose stored id finds an entry of
    status [active] in the history (the first entry that carries the id:
    the entry of the transaction in progress, as long as the stored id is
    still the one its [beginTransaction] generated): the manager keeps its
    client, its flag and [activeTransactions], the history keeps exactly
    its [active] entries, and the stored id finds the same entry as
    before, so that a [COMMIT] that succeeds afterwards still marks it
    [committed]. *)
Theorem reset_keeps_the_transaction_in_progress (w : World) (reset_at : Z)
    (h : HistoryEntry) :
  find_entry (requestId (tm w)) (metrics (tm w)) = Some h → status h = active →
  let w' := (resetMetrics reset_at w).2 in
  client (tm w') = client (tm w) ∧
  isTransactionActive (tm w') = isTransactionActive (tm w) ∧
  activeTransactions (metrics (tm w')) = activeTransactions (metrics (tm w)) ∧
  transactionHistory (metrics (tm w'))
  = List.filter is_active (transactionHistory (metrics (tm w))) ∧
  find_entry (requestId (tm w')) (metrics (tm w')) = Some h ∧
  ∀ env c, isTransactionActive (tm w) = true → client (tm w) = Some c →
    q_end env = Return tt →
    find_entry (requestId (tm w)) (metrics (tm (commit env w').2))
    = Some (settle_entry committed (now_end env)
              (bool_decide (is_Some (transactionStartTime (tm w)))) None h).
Proof.
  intros Hfind Hst w'.
  assert (find_entry (requestId (tm w')) (metrics (tm w')) = Some h) as Hfind'.
  { unfold find_entry, w'. simpl. apply find_filter; [exact Hfind|].
    unfold is_active. by rewrite Hst. }
  repeat split; try done.
  intros env c Hact Hc Hq. revert Hfind'. unfold w'. run_body.
  repeat (progress (rewrite ?Hact, ?Hc, ?Hq; simpl)). unfold record_completion.
  intros Hfind'. unfold find_entry in *. simpl in *. rewrite Hfind'.
  assert (has_id (requestId (tm w))
            (settle_entry committed (now_end env)
               (bool_decide (is_Some (transactionStartTime (tm w)))) None h) = true)
    as Hid.
  { apply find_some in Hfind as [_ Hid]. exact Hid. }
  destruct (transactionStartTime (tm w)); simpl; by apply find_update_first.
Qed.

Lemma reset_keeps_the_transaction_witness :
  let w' := (resetMetrics 30 in_progress).2 in
  (status <$> find_entry "txn_1" (metrics (tm in_progress))) = Some active ∧
  (status <$> find_entry "txn_1" (metrics (tm w'))) = Some active ∧
  (status <$> find_entry "txn_1" (metrics (tm (commit (statement_ok 40) w').2)))
  = Some committed.
Proof.
  assert (∃ h, find_entry (requestId (tm in_progress)) (metrics (tm in_progress)) = Some h
               ∧ status h = active) as (h & Hfind & Hst)
    by (eexists; split; [vm_compute; reflexivity | reflexivity]).
  destruct (reset_keeps_the_transaction_in_progress in_progress 30 h Hfind Hst)
    as (_ & _ & _ & _ & Hfind' & Hcommit).
  split; [vm_compute; reflexivity|]. split.
  - change "txn_1" with (requestId (tm (resetMetrics 30 in_progress).2)).
    rewrite Hfind'. simpl. by rewrite Hst.
  - change "txn_1" with (requestId (tm in_progress)).
    by rewrite (Hcommit (statement_ok 40) 7%nat eq_refl eq_refl eq_refl).
Defined.

End TxnAccessFacts.

(** * Properties of the repository and of the entity metadata *)

Module RepoFacts.
Import Repo.

Lemma getEntityColumns_fold (entity : Entity) (r : EntityColumns) (k : nat) :
  foldl (λ (acc : EntityColumns * nat) (kv : string * Value),
           let (r, parameterIndex) := acc in
           if is_undefined kv.2 then acc
           else ({| columns := (columns r ++ [kv.1])%list;
                    values := (values r ++ [kv.2])%list;
                    placeholders := (placeholders r ++ [placeholder parameterIndex])%list |},
                 S parameterIndex))
    (r, k) entity
  = ({| columns := (columns r ++ (List.filter is_defined entity).*1)%list;
        values := (values r ++ (List.filter is_defined entity).*2)%list;
        placeholders := (placeholders r
                         ++ (placeholder <$> seq k (length (List.filter is_defined entity))))%list |},
     (k + length (List.filter is_defined entity))%nat).
Proof.
  revert r k. induction entity as [|[key v] entity IH]; intros r k; simpl.
  - rewrite !app_nil_r, Nat.add_0_r. by destruct r.
  - destruct v; simpl; rewrite IH; simpl; rewrite <- ?app_assoc; simpl;
      by rewrite ?Nat.add_succ_r.
Qed.

Lemma placeholder_inj : Inj (=) (=) placeholder.
Proof.
  intros i j H. unfold placeholder in H. simpl in H. injection H as H.
  by apply (inj pretty).
Qed.

(** [getEntityColumns] lists the properties that are not [undefined],
    in order of appearance, and pairs the i-th of them with the
    placeholder [$i]: the three arrays have one length, and no placeholder
    occurs twice. *)
Theorem getEntityColumns_binds_the_defined_properties (entity : Entity) :
  let defined := List.filter is_defined entity in
  let r := getEntityColumns entity in
  columns r = defined.*1 ∧ values r = defined.*2 ∧
  placeholders r = placeholder <$> seq 1 (length defined) ∧
  NoDup (placeholders r).
Proof.
  intros defined r. unfold r, getEntityColumns. rewrite getEntityColumns_fold. simpl.
  repeat split; try done.
  apply (NoDup_fmap_2 _). apply NoDup_seq.
Qed.

Lemma conditions_fold (predicate : Entity) (conditions : list string)
    (vals : list Value) (k : nat) :
  foldl (λ (acc : list string * list Value * nat) (kv : string * Value),
           let '(conditions, vals, parameterIndex) := acc in
           ((conditions ++ [assignment kv.1 parameterIndex])%list, (vals ++ [kv.2])%list,
            S parameterIndex))
    (conditions, vals, k) predicate
  = ((conditions ++ imap (λ i kv, assignment kv.1 (k + i)) predicate)%list,
     (vals ++ predicate.*2)%list, (k + length predicate)%nat).
Proof.
  revert conditions vals k.
  induction predicate as [|[key v] predicate IH]; intros conditions vals k; simpl.
  - by rewrite !app_nil_r, Nat.add_0_r.
  - rewrite IH. simpl. rewrite <- !app_assoc. simpl. rewrite Nat.add_0_r, Nat.add_succ_r.
    do 4 f_equal. apply imap_ext. intros i x _. simpl. by rewrite Nat.add_succ_r.
Qed.

(** [buildWhereClause] makes one condition per property, [undefined]
    ones included (unlike [getEntityColumns]), numbered from [$1] in
    order, and binds the values in the same order; an empty predicate
    gives the empty clause. *)
Theorem buildWhereClause_binds_every_property (predicate : Entity) :
  let r := buildWhereClause predicate in
  whereValues r = predicate.*2 ∧
  whereClause r
  = match predicate with
    | [] => EmptyString
    | _ => "WHERE " ++ join " AND " (imap (λ i kv, assignment kv.1 (S i)) predicate)
    end.
Proof.
  unfold buildWhereClause. rewrite conditions_fold. simpl.
  split; [done|]. rewrite length_imap.
  destruct predicate; [done|]. simpl. done.
Qed.

Lemma updates_fold (entity : Entity) (updates : list string)
    (vals : list Value) (k : nat) :
  foldl (λ (acc : list string * list Value * nat) (kv : string * Value),
           let '(updates, vals, parameterIndex) := acc in
           if is_update_field kv
           then ((updates ++ [assignment kv.1 parameterIndex])%list, (vals ++ [kv.2])%list,
                 S parameterIndex)
           else acc)
    (updates, vals, k) entity
  = ((updates ++ imap (λ i kv, assignment kv.1 (k + i)) (List.filter is_update_field entity))%list,
     (vals ++ (List.filter is_update_field entity).*2)%list,
     (k + length (List.filter is_update_field entity))%nat).
Proof.
  revert updates vals k.
  induction entity as [|kv entity IH]; intros updates vals k; simpl.
  - by rewrite !app_nil_r, Nat.add_0_r.
  - destruct (is_update_field kv); [|apply IH].
    rewrite IH. simpl. rewrite <- !app_assoc. simpl. rewrite Nat.add_0_r, Nat.add_succ_r.
    do 4 f_equal. apply imap_ext. intros i x _. simpl. by rewrite Nat.add_succ_r.
Qed.

(** [buildUpdateSet] assigns the properties other than [id] and [_id]
    that are not [undefined], numbered from [$1] in order, and binds
    their values in the same order: [id] and [_id] are never assigned. *)
Theorem buildUpdateSet_never_assigns_the_id (entity : Entity) :
  let kept := List.filter is_update_field entity in
  let r := buildUpdateSet entity in
  setValues r = kept.*2 ∧
  setClause r = join ", " (imap (λ i kv, assignment kv.1 (S i)) kept) ∧
  ∀ kv, kv ∈ kept → kv ∈ entity ∧ kv.1 ≠ "id" ∧ kv.1 ≠ "_id" ∧ kv.2 ≠ Undefined.
Proof.
  intros kept r. unfold r, buildUpdateSet. rewrite updates_fold. simpl.
  split; [done|]. split; [done|].
  intros kv Hkv. apply list_elem_of_In, filter_In in Hkv as [Hin Hf].
  split; [by apply list_elem_of_In|]. unfold is_update_field in Hf.
  apply andb_prop in Hf as [Hf Hdef]. apply andb_prop in Hf as [Hid H_id].
  repeat split.
  - intros E. by rewrite E in Hid.
  - intros E. by rewrite E in H_id.
  - intros E. by rewrite E in Hdef.
Qed.

Lemma imap_seq_placeholder {A} (a : nat) (l : list A) :
  imap (λ i _, placeholder (a + i)) l = placeholder <$> seq a (length l).
Proof.
  revert a. induction l as [|x l IH]; intros a; simpl; [done|].
  rewrite Nat.add_0_r. f_equal. rewrite <- IH. apply imap_ext.
  intros i y _. simpl. by rewrite Nat.add_succ_r.
Qed.

Lemma rows_fold (cols : list string) (entities : list Instance)
    (vals : list Value) (valueSets : list string) (k : nat) :
  foldl (λ (acc : list Value * list string * nat) (entity : Instance),
           let '(vals, valueSets, entityIndex) := acc in
           let entityValues := (λ column, prop column entity) <$> cols in
           let row :=
             join ", " (imap (λ i _, placeholder (entityIndex * length cols + i + 1))
                          entityValues) in
           ((vals ++ entityValues)%list, (valueSets ++ [("(" ++ row ++ ")")%string])%list,
            S entityIndex))
    (vals, valueSets, k) entities
  = ((vals ++ entities ≫= (λ entity, (λ column, prop column entity) <$> cols))%list,
     (valueSets
      ++ imap (λ j _, ("(" ++ join ", " (placeholder <$> seq ((k + j) * length cols + 1)
                                                          (length cols)) ++ ")")%string)
           entities)%list,
     (k + length entities)%nat).
Proof.
  revert vals valueSets k.
  induction entities as [|entity entities IH]; intros vals valueSets k; simpl.
  - by rewrite !app_nil_r, Nat.add_0_r.
  - rewrite IH. rewrite <- !app_assoc. simpl.
    assert (imap (λ i (_ : Value), placeholder (k * length cols + i + 1))
              ((λ column, prop column entity) <$> cols)
            = placeholder <$> seq ((k + 0) * length cols + 1) (length cols)) as ->.
    { rewrite <- (length_fmap (λ column, prop column entity) cols) at 2.
      rewrite <- imap_seq_placeholder. apply imap_ext. intros i x _. simpl.
      f_equal. lia. }
    do 4 f_equal; try lia. apply imap_ext. intros j x _. simpl.
    by replace ((k + S j) * length cols)%nat
      with (length cols + (k + j) * length cols)%nat by lia.
Qed.

Lemma length_rows (cols : list string) (entities : list Instance) :
  length (entities ≫= (λ entity : Instance, (λ column, prop column entity) <$> cols))
  = (length entities * length cols)%nat.
Proof.
  induction entities as [|entity entities IH]; simpl; [done|].
  rewrite length_app, length_fmap. f_equal. exact IH.
Qed.

(** [buildBulkInsertClause] takes its columns from the first entity
    (the own enumerable properties of it that are not [undefined]), binds
    for every entity what property access gives at each of those columns
    (for a column the entity does not have itself: what it inherits under
    that name, else [undefined]), and numbers the placeholders [$1], [$2],
    ... row by row, one per value; no entity, and everything is empty. *)
Theorem buildBulkInsertClause_numbers_row_by_row (entities : list Instance) :
  let r := buildBulkInsertClause entities in
  match entities with
  | [] => valuesClause r = EmptyString ∧ insertValues r = [] ∧ insertColumns r = []
  | firstEntity :: _ =>
      let cols := columns (getEntityColumns (own firstEntity)) in
      insertColumns r = cols ∧
      insertValues r = entities ≫= (λ entity, (λ column, prop column entity) <$> cols) ∧
      length (insertValues r) = (length entities * length cols)%nat ∧
      valuesClause r
      = join ", "
          (imap (λ k _, "(" ++ join ", " (placeholder <$> seq (k * length cols + 1)
                                                          (length cols)) ++ ")")
             entities)
  end.
Proof.
  destruct entities as [|firstEntity rest]; [done|].
  intros r cols. unfold r, buildBulkInsertClause. fold cols.
  rewrite rows_fold. cbn [insertColumns insertValues valuesClause app].
  split; [done|]. split; [done|].
  split; [apply (length_rows cols (firstEntity :: rest)) | done].
Qed.

(** A column that only the first entity has itself: for the second
    one the builder binds the function it inherits under that name. *)
Remark bulk_insert_binds_an_inherited_member :
  insertValues
    (buildBulkInsertClause
       [literal [("id", Num 1); ("constructor", Str "x")]; literal [("id", Num 2)]])
  = [Num 1; Str "x"; Num 2; Ref 0].
Proof. reflexivity. Qed.

Lemma prop_entry (entity : Instance) (key : string) (v : Value) :
  NoDup (own entity).*1 → (key, v) ∈ own entity → prop key entity = v.
Proof.
  unfold prop. generalize (inherited entity key). intros other.
  induction (own entity) as [|[k' v'] entries IH]; simpl.
  - intros _ H. by apply elem_of_nil in H.
  - intros Hnd Hin. apply NoDup_cons in Hnd as [Hk' Hnd].
    destruct (String.eqb k' key) eqn:E.
    + apply String.eqb_eq in E as ->. simpl.
      apply elem_of_cons in Hin as [[= ->]|Hin]; [done|].
      exfalso. apply Hk'. apply list_elem_of_fmap. by exists (key, v).
    + apply elem_of_cons in Hin as [[= -> ->]|Hin].
      * by rewrite String.eqb_refl in E.
      * by apply IH.
Qed.

(** Inserting one entity in bulk is inserting it: the columns, the
    values and the placeholders of [buildBulkInsertClause [entity]] are
    those of [getEntityColumns entity], whatever the entity inherits. *)
Theorem bulk_insert_of_one_entity (entity : Instance) :
  NoDup (own entity).*1 →
  let one := getEntityColumns (own entity) in
  let r := buildBulkInsertClause [entity] in
  insertColumns r = columns one ∧ insertValues r = values one ∧
  valuesClause r = "(" ++ join ", " (placeholders one) ++ ")".
Proof.
  intros Hnd one r. unfold r, one, buildBulkInsertClause.
  rewrite rows_fold. cbn [insertColumns insertValues valuesClause app].
  unfold getEntityColumns. rewrite getEntityColumns_fold. simpl.
  split; [done|]. rewrite app_nil_r, length_fmap. split; [|done].
  assert (∀ kv, kv ∈ List.filter is_defined (own entity) → prop kv.1 entity = kv.2)
    as Hall.
  { intros [k v] Hin. apply list_elem_of_In, filter_In in Hin as [Hin _].
    apply prop_entry; [done|]. by apply list_elem_of_In. }
  induction (List.filter is_defined (own entity)) as [|kv l IH]; simpl; [done|].
  rewrite Hall by left. f_equal. apply IH. intros kv' Hin. apply Hall. by right.
Qed.

Lemma bulk_insert_of_one_entity_witness :
  let user := literal [("id", Num 7); ("name", Str "Ann"); ("age", Undefined)] in
  NoDup (own user).*1 ∧
  insertValues (buildBulkInsertClause [user]) = [Num 7; Str "Ann"] ∧
  valuesClause (buildBulkInsertClause [user]) = "($1, $2)".
Proof.
  intros user.
  assert (NoDup (own user).*1) as Hnd
    by (apply (bool_decide_unpack _); vm_compute; exact I).
  pose proof (bulk_insert_of_one_entity user Hnd) as H. cbv zeta in H.
  destruct H as (_ & Hv & Hc).
  split; [exact Hnd|].
  split; [etrans; [exact Hv|reflexivity] | etrans; [exact Hc|reflexivity]].
Defined.

Lemma whens_S (start n : nat) :
  whens start (S n)
  = ("WHEN _id = " ++ placeholder start ++ " THEN " ++ placeholder (start + 1))
    :: whens (start + 2) n.
Proof.
  unfold whens. simpl. rewrite Nat.add_0_r. f_equal.
  rewrite <- fmap_S_seq, <- list_fmap_compose. apply list_fmap_ext.
  intros _ j _. simpl. by replace (start + S (j + S (j + 0)))%nat
    with (start + 2 + (j + (j + 0)))%nat by lia.
Qed.

Lemma whens_fold (field : string) (entities : list Instance)
    (caseStatements : list string) (vals : list Value) (k : nat) :
  foldl (λ (acc : list string * list Value * nat) (entity : Instance),
           let '(caseStatements, vals, parameterIndex) := acc in
           let id := identifier entity in
           if negb (is_undefined id) && negb (is_undefined (prop field entity))
           then ((caseStatements ++ [("WHEN _id = " ++ placeholder parameterIndex
                                      ++ " THEN "
                                      ++ placeholder (parameterIndex + 1))%string])%list,
                 (vals ++ [id; prop field entity])%list, (parameterIndex + 2)%nat)
           else acc)
    (caseStatements, vals, k) entities
  = ((caseStatements ++ whens k (length (List.filter (eligible field) entities)))%list,
     (vals ++ bound entities field)%list,
     (k + 2 * length (List.filter (eligible field) entities))%nat).
Proof.
  revert caseStatements vals k. unfold bound.
  induction entities as [|entity entities IH]; intros caseStatements vals k; simpl.
  - by rewrite !app_nil_r, Nat.add_0_r.
  - fold (eligible field entity). destruct (eligible field entity); [|apply IH].
    rewrite IH. cbn [length]. rewrite whens_S, <- !app_assoc. simpl.
    f_equal. lia.
Qed.

Lemma cases_fold (entities : list Instance) (fields : list string)
    (cases : list string) (vals : list Value) (k : nat) :
  foldl (λ (acc : list string * list Value * nat) (field : string),
           let '(cases, vals, parameterIndex) := acc in
           let '(caseStatements, vals', parameterIndex') :=
             foldl (λ (acc : list string * list Value * nat) (entity : Instance),
                      let '(caseStatements, vals, parameterIndex) := acc in
                      let id := identifier entity in
                      if negb (is_undefined id) && negb (is_undefined (prop field entity))
                      then ((caseStatements
                             ++ [("WHEN _id = " ++ placeholder parameterIndex
                                  ++ " THEN "
                                  ++ placeholder (parameterIndex + 1))%string])%list,
                            (vals ++ [id; prop field entity])%list,
                            (parameterIndex + 2)%nat)
                      else acc)
               ([], vals, parameterIndex) entities in
           (if decide (0 < length caseStatements)%nat
            then (cases ++ [(field ++ " = (CASE " ++ join " " caseStatements
                             ++ " ELSE " ++ field ++ " END)")%string])%list
            else cases,
            vals', parameterIndex'))
    (cases, vals, k) fields
  = ((cases ++ cases_from entities k fields)%list,
     (vals ++ fields ≫= bound entities)%list,
     (k + length (fields ≫= bound entities))%nat).
Proof.
  revert cases vals k.
  induction fields as [|field fields IH]; intros cases vals k.
  - simpl. by rewrite !app_nil_r, Nat.add_0_r.
  - cbn [foldl]. rewrite whens_fold. cbn beta iota. rewrite IH.
    assert (length ([] ++ whens k (length (List.filter (eligible field) entities)))
            = length (List.filter (eligible field) entities)) as ->
      by (cbn [app]; unfold whens; by rewrite length_fmap, length_seq).
    assert (length (bound entities field)
            = (2 * length (List.filter (eligible field) entities))%nat) as Hlen.
    { unfold bound. induction (List.filter (eligible field) entities) as [|e l IHl];
        [done|]. rewrite bind_cons, length_app, IHl. simpl. lia. }
    rewrite bind_cons, length_app, Hlen, <- !app_assoc. cbn [cases_from].
    f_equal; [f_equal|lia].
    case_decide; simpl; by rewrite <- ?app_assoc.
Qed.

(** [buildBulkUpdateClause] fails on an empty array.  Otherwise its
    fields are the own enumerable keys of the first entity other than
    [id] and [_id]; a field gets one [WHEN] per entity for which property
    access gives an identifier ([_id], or [id] when [_id] is falsy) and a
    value of that field that are not [undefined], be they the entity's own
    or inherited, always against the column [_id], and no [CASE] at all
    when there is no such entity; the placeholders are numbered from [$1]
    in steps of two across the fields, and the identifier and the value of
    each [WHEN] are bound in that order. *)
Theorem buildBulkUpdateClause_binds_in_pairs (entities : list Instance) :
  match entities with
  | [] => buildBulkUpdateClause entities = None
  | firstEntity :: _ =>
      let fields := List.filter is_data_field (own firstEntity).*1 in
      buildBulkUpdateClause entities
      = Some {| updateClause := join ", " (cases_from entities 1 fields);
                updateValues := fields ≫= bound entities |}
  end.
Proof.
  destruct entities as [|firstEntity rest]; [done|].
  intros fields. unfold buildBulkUpdateClause. fold fields.
  by rewrite cases_fold.
Qed.

(** *** [executeQuery] *)



(** [executeRawQuery] returns what the driver returns, and reports every
    failure, be it of the driver, of a constraint or of a missing
    transaction, as a [DatabaseQueryError] that carries the statement and
    its values; it sends the statement at most once, and only to the
    client of the transaction. *)
Theorem executeRawQuery_reports_every_failure_as_a_query_error {R}
    (query : string) (values : list Value) (outcome : PgError + R) (w : Txn.World) :
  let r := executeRawQuery query values outcome w in
  Txn.tm r.2 = Txn.tm w ∧
  match r.1 with
  | inr result =>
      outcome = inr result ∧
      ∃ c, Txn.client (Txn.tm w) = Some c ∧
           Txn.calls r.2 = (Txn.calls w ++ [Txn.Query c query])%list
  | inl error =>
      (∃ m, error = DatabaseQueryError ("Failed to execute raw query: " ++ m) query values) ∧
      (Txn.calls r.2 = Txn.calls w ∨
       ∃ c, Txn.client (Txn.tm w) = Some c ∧
            Txn.calls r.2 = (Txn.calls w ++ [Txn.Query c query])%list)
  end.
Proof.
  unfold executeRawQuery, executeQuery, TxnAccess.getClient, Txn.this, Txn.call,
    throw, modify, mbind, mret, M_bind, M_ret. simpl.
  destruct (Txn.client (Txn.tm w)) as [c|]; [destruct (Txn.isTransactionActive (Txn.tm w))|];
    [destruct outcome| |]; simpl; (split; [done|]); eauto 10.
Qed.

End RepoFacts.

Module SchemaFacts.
Import Schema.

Lemma read_back (n t : string) :
  let read := without_quotes (before_space (n ++ String quote_char (String space_char t))) in
  if plain n then read = n else (String.length read < String.length n)%nat.
Proof.
  induction n as [|c n IH]; [done|]. simpl in *.
  destruct (Ascii.eqb c space_char) eqn:Hs; simpl; [lia|].
  destruct (Ascii.eqb c quote_char) eqn:Hq; simpl.
  - destruct (plain n); [rewrite IH|]; lia.
  - destruct (plain n); [by rewrite IH | lia].
Qed.

Lemma columnName_definition (col : ColumnMeta) :
  columnName (columnDefinition col)
  = without_quotes
      (before_space (name col ++ String quote_char (String space_char (type col)))).
Proof. reflexivity. Qed.

Lemma plain_name_is_read_back (col : ColumnMeta) :
  plain (name col) = true → columnName (columnDefinition col) = name col.
Proof.
  intros Hp. rewrite columnName_definition.
  pose proof (read_back (name col) (type col)) as H. cbv zeta in H. by rewrite Hp in H.
Qed.

(** The name [SchemaSync] reads back from a column definition of
    [getEntityMetadata] is the name of the column exactly when that name
    holds no space and no double quote. *)
Theorem column_name_is_read_back_iff_plain (col : ColumnMeta) :
  columnName (columnDefinition col) = name col ↔ plain (name col) = true.
Proof.
  split; [|apply plain_name_is_read_back].
  rewrite columnName_definition.
  pose proof (read_back (name col) (type col)) as H. cbv zeta in H.
  intros E. destruct (plain (name col)); [done|]. rewrite E in H. lia.
Qed.

(** For columns with such names, the definitions [updateTableSchema]
    adds with [ALTER TABLE] are those of the columns whose names the
    table does not have yet, in the order of the metadata. *)
Theorem the_columns_added_are_the_missing_ones (cols : list ColumnMeta)
    (currentColumns : list string) :
  (∀ col, col ∈ cols → plain (name col) = true) →
  columns_to_add (columnDefinition <$> cols) currentColumns
  = columnDefinition
      <$> List.filter (λ col, negb (existsb (String.eqb (name col)) currentColumns)) cols.
Proof.
  unfold columns_to_add. induction cols as [|col cols IH]; intros Hp; [done|].
  cbn [fmap list_fmap List.filter]. rewrite plain_name_is_read_back by (apply Hp; left).
  rewrite IH by (intros c Hc; apply Hp; by right).
  by destruct (negb (existsb (String.eqb (name col)) currentColumns)).
Qed.

Lemma the_columns_added_witness :
  let email := {| name := "email"; type := "varchar(255) NOT NULL" |} in
  let age := {| name := "age"; type := "integer" |} in
  (∀ col, col ∈ [email; age] → plain (name col) = true) ∧
  columns_to_add (columnDefinition <$> [email; age]) ["id"; "email"]
  = [columnDefinition age].
Proof.
  intros email age.
  assert (∀ col, col ∈ [email; age] → plain (name col) = true) as Hp.
  { intros col Hin. apply elem_of_cons in Hin as [->|Hin]; [reflexivity|].
    apply list_elem_of_singleton in Hin as ->. reflexivity. }
  split; [exact Hp|].
  etrans; [exact (the_columns_added_are_the_missing_ones [email; age] ["id"; "email"] Hp)|].
  reflexivity.
Defined.

End SchemaFacts.

(** * Properties of the schema synchronisation *)

Module SchemaSyncFacts.
Import Txn TxnAccess Schema SchemaSync TxnAccessFacts.
Local Open Scope Z_scope.

Ltac run_sync :=
  repeat (unfold beginTransaction, commit, rollback, releaseClient,
            getClient, query, statement, checkTableExists,
            modify_metrics, assign, call, this, await,
            try_catch, try_finally, throw, modify, get, mbind, mret, M_bind, M_ret;
          simpl).

Lemma sends_ret {A} (a : A) : sends (mret a : M World A).
Proof. by intros w. Qed.

Lemma sends_throw {A} (e : JsError) : sends (@throw World A e).
Proof. by intros w. Qed.

Lemma sends_bind {A B} (m : M World A) (f : A → M World B) :
  sends m → (∀ a, sends (f a)) → sends (m ≫= f).
Proof.
  intros Hm Hf w. unfold mbind, M_bind. specialize (Hm w).
  destruct (m w) as [[a|e] w1]; simpl in *; [by rewrite Hf | exact Hm].
Qed.

Lemma sends_try_catch {A} (m : M World A) (h : JsError → M World A) :
  sends m → (∀ e, sends (h e)) → sends (try_catch m h).
Proof.
  intros Hm Hh w. unfold try_catch. specialize (Hm w).
  destruct (m w) as [[a|e] w1]; simpl in *; [exact Hm | by rewrite Hh].
Qed.

Lemma sends_getClient : sends getClient.
Proof. intros w. unfold getClient. run_sync. by cases. Qed.

Lemma sends_call c : sends (call c).
Proof. by intros w. Qed.

Lemma sends_await {A} (o : completion A) : sends (await o : M World A).
Proof. by intros w. Qed.

Lemma sends_query c sql o : sends (query c sql o).
Proof.
  unfold query. apply sends_bind; [apply sends_call|]. intros _. apply sends_await.
Qed.

Lemma sends_statement sql answers : sends (statement sql answers).
Proof.
  unfold statement. apply sends_bind; [apply sends_getClient|]. intros c.
  apply sends_bind; [apply sends_query|]. intros _. apply sends_ret.
Qed.

Lemma sends_statements sqls answers : sends (statements sqls answers).
Proof.
  revert answers. induction sqls as [|sql rest IH]; intros answers; simpl.
  - apply sends_ret.
  - apply sends_bind; [apply sends_statement|]. intros a. apply IH.
Qed.

Lemma sends_addColumns t cols current answers : sends (addColumns t cols current answers).
Proof.
  revert answers. induction cols as [|col rest IH]; intros answers; simpl.
  - apply sends_ret.
  - apply sends_bind; [|intros a; apply IH].
    destruct (negb _); [apply sends_statement | apply sends_ret].
Qed.

Lemma sends_checkTableExists t o : sends (checkTableExists t o).
Proof.
  unfold checkTableExists. apply sends_try_catch; [|intros e; apply sends_throw].
  apply sends_bind; [apply sends_getClient|]. intros c.
  apply sends_bind; [apply sends_call|]. intros _. apply sends_await.
Qed.

Lemma sends_createTable e t answers : sends (createTable e t answers).
Proof.
  unfold createTable. apply sends_try_catch; [|intros err; apply sends_throw].
  apply sends_bind; [apply sends_statement|]. intros a.
  apply sends_bind; [apply sends_statements|]. intros _. apply sends_ret.
Qed.

Lemma sends_updateTableSchema e t current answers :
  sends (updateTableSchema e t current answers).
Proof.
  unfold updateTableSchema. apply sends_try_catch; [|intros err; apply sends_throw].
  apply sends_bind; [apply sends_getClient|]. intros c.
  apply sends_bind; [apply sends_call|]. intros _.
  apply sends_bind; [apply sends_await|]. intros cur.
  apply sends_bind; [apply sends_addColumns|]. intros a.
  apply sends_bind; [apply sends_statements|]. intros _. apply sends_ret.
Qed.

(** [commit] and [rollback] end with the manager idle. *)
Lemma commit_idle env w : coherent (tm w) → idle (tm (commit env w).2).
Proof.
  unfold coherent, idle. destruct (client (tm w)) as [c|] eqn:Hc; intros [Hact Ha];
    run_sync; rewrite Hact, ?Hc; simpl; cases; simpl; by rewrite ?Hc.
Qed.

Lemma rollback_idle env w : coherent (tm w) → idle (tm (rollback env w).2).
Proof.
  unfold coherent, idle. destruct (client (tm w)) as [c|] eqn:Hc; intros [Hact Ha];
    run_sync; rewrite Hact, ?Hc; simpl; cases; simpl; by rewrite ?Hc.
Qed.

(** The [catch] clause of [sync]. *)
Lemma catch_idle env err w :
  coherent (tm w) →
  let r := (try_catch (rollback env) (λ _, mret tt);; throw err : M World unit) w in
  idle (tm r.2) ∧ coherent (tm r.2).
Proof.
  intros Hw. unfold try_catch, mbind, M_bind, throw, mret, M_ret.
  pose proof (rollback_idle env w Hw) as Hi.
  pose proof (rollback_coherent env w Hw) as Hc.
  by destruct (rollback env w) as [[[]|e] w1].
Qed.

Lemma syncTable_idle e t env w :
  coherent (tm w) →
  idle (tm (syncTable e t env w).2) ∧ coherent (tm (syncTable e t env w).2).
Proof.
  intros Hw. unfold syncTable.
  set (handler := λ error : JsError, _).
  assert (Hh : ∀ err w0, coherent (tm w0) →
            idle (tm (handler err w0).2) ∧ coherent (tm (handler err w0).2)).
  { intros err w0. apply catch_idle. }
  clearbody handler. unfold try_catch, mbind, M_bind.
  pose proof (begin_coherent (begin_env env) None w Hw) as H1.
  destruct (beginTransaction (begin_env env) None w) as [[[]|e1] w1]; simpl in *;
    [|by apply Hh].
  pose proof (sends_checkTableExists t (table_exists env) w1) as H2.
  destruct (checkTableExists t (table_exists env) w1) as [[b|e2] w2]; simpl in *;
    [|apply Hh; by rewrite H2].
  set (body := if negb b then _ else _).
  assert (sends body) as Hb.
  { subst body. destruct (negb b); [apply sends_createTable | apply sends_updateTableSchema]. }
  specialize (Hb w2). rewrite H2 in Hb.
  destruct (body w2) as [[[]|e3] w3]; simpl in *; [|apply Hh; by rewrite Hb].
  rewrite <- Hb in H1.
  pose proof (commit_idle (commit_env env) w3 H1) as Hi.
  pose proof (commit_coherent (commit_env env) w3 H1) as Hc.
  destruct (commit (commit_env env) w3) as [[[]|e4] w4]; simpl in *; [done|by apply Hh].
Qed.

Lemma sync_idle entities w :
  coherent (tm w) → idle (tm w) ∨ entities ≠ [] →
  idle (tm (sync entities w).2) ∧ coherent (tm (sync entities w).2).
Proof.
  revert w. induction entities as [|[[e t] env] rest IH]; intros w Hw Hi; simpl.
  - destruct Hi as [Hi|Hi]; done.
  - unfold mbind, M_bind.
    destruct (syncTable_idle e t env w Hw) as [Hi1 Hc1].
    destruct (syncTable e t env w) as [[[]|err] w1]; simpl in *; [|done].
    apply IH; [done | by left].
Qed.

(** Statements that all succeed, on a manager in a transaction. *)
Lemma sending_nil c w : sending c [] w = w.
Proof. unfold sending. simpl. rewrite app_nil_r. by destruct w. Qed.

Lemma sending_app c l1 l2 w : sending c l2 (sending c l1 w) = sending c (l1 ++ l2) w.
Proof. unfold sending. simpl. by rewrite fmap_app, app_assoc. Qed.

Lemma statement_succeeds c sql answers w :
  in_transaction c w → Forall (λ a, a = Return tt) answers →
  statement sql answers w = (Return (tl answers), sending c [sql] w).
Proof.
  intros [Hc Ha] Hall. unfold statement, sending. run_sync. rewrite Hc, Ha. simpl.
  destruct Hall as [|a answers -> Hall]; reflexivity.
Qed.

Lemma Forall_tl {A} (P : A → Prop) (l : list A) : Forall P l → Forall P (tl l).
Proof. intros [|x l' Hx Hl]; [constructor | exact Hl]. Qed.

Lemma statements_succeed c sqls answers w :
  in_transaction c w → Forall (λ a, a = Return tt) answers →
  ∃ answers', Forall (λ a, a = Return tt) answers' ∧
    statements sqls answers w = (Return answers', sending c sqls w).
Proof.
  revert answers w. induction sqls as [|sql rest IH]; intros answers w Hw Hall; simpl.
  - exists answers. by rewrite sending_nil.
  - unfold mbind, M_bind. rewrite (statement_succeeds c) by done.
    destruct (IH (tl answers) (sending c [sql] w)) as (a' & Ha' & E);
      [exact Hw | by apply Forall_tl|].
    exists a'. split; [exact Ha'|]. rewrite E. by rewrite sending_app.
Qed.

Lemma addColumns_succeed c t cols current answers w :
  in_transaction c w → Forall (λ a, a = Return tt) answers →
  ∃ answers', Forall (λ a, a = Return tt) answers' ∧
    addColumns t cols current answers w
    = (Return answers', sending c (addColumnQuery t <$> columns_to_add cols current) w).
Proof.
  revert answers w. induction cols as [|col rest IH]; intros answers w Hw Hall; simpl.
  - exists answers. by rewrite sending_nil.
  - unfold mbind, M_bind.
    destruct (negb (existsb (String.eqb (columnName col)) current)) eqn:Hmiss; simpl.
    + rewrite (statement_succeeds c) by done.
      destruct (IH (tl answers) (sending c [addColumnQuery t col] w)) as (a' & Ha' & E);
        [exact Hw | by apply Forall_tl|].
      exists a'. split; [exact Ha'|]. rewrite E. by rewrite sending_app.
    + destruct (IH answers w Hw Hall) as (a' & Ha' & E). by exists a'.
Qed.

Lemma begin_succeeds env w c :
  isTransactionActive (tm w) = false →
  connect env = Return c → q_begin env = Return tt →
  ∃ w1, beginTransaction env None w = (Return tt, w1) ∧ in_transaction c w1 ∧
    calls w1 = (calls w ++ [GetConnection None; Query c "BEGIN"])%list.
Proof.
  intros Ha Hc Hb. eexists. run_sync. rewrite Ha, Hc. simpl. rewrite Hb. simpl.
  split; [reflexivity|]. split; [by split|]. simpl. by rewrite <- app_assoc.
Qed.

Lemma checkTableExists_succeeds c t b w :
  in_transaction c w →
  checkTableExists t (Return b) w = (Return b, sending c [checkTableExists_query] w).
Proof. intros [Hc Ha]. unfold sending. run_sync. by rewrite Hc, Ha. Qed.

Lemma updateTableSchema_succeeds c e t current answers w :
  in_transaction c w → Forall (λ a, a = Return tt) answers →
  updateTableSchema e t (Return current) answers w
  = (Return tt,
     sending c (currentSchemaQuery ::
                (addColumnQuery t <$> columns_to_add (columnDefinition <$> columns e) current)
                ++ getIndexMetadata e t) w).
Proof.
  intros Hw Hall. unfold updateTableSchema, try_catch, mbind, M_bind.
  assert (getClient w = (Return c, w)) as ->.
  { destruct Hw as [Hc Ha]. unfold getClient. run_sync. by rewrite Hc, Ha. }
  change (call (Query c currentSchemaQuery) w) with (Return tt, sending c [currentSchemaQuery] w).
  unfold await. simpl columnDefinitions.
  destruct (addColumns_succeed c t (columnDefinition <$> columns e) current answers
              (sending c [currentSchemaQuery] w) Hw Hall) as (a1 & Ha1 & ->).
  destruct (statements_succeed c (getIndexMetadata e t) a1
              (sending c (addColumnQuery t
                            <$> columns_to_add (columnDefinition <$> columns e) current)
                 (sending c [currentSchemaQuery] w)) Hw Ha1) as (a2 & _ & ->).
  simpl. by rewrite !sending_app.
Qed.

Lemma commit_succeeds env c w :
  in_transaction c w → q_end env = Return tt →
  ∃ w1, commit env w = (Return tt, w1) ∧ idle (tm w1) ∧
    calls w1 = (calls w ++ [Query c "COMMIT"; Release c])%list.
Proof.
  intros [Hc Ha] Hq. eexists. run_sync. rewrite Ha, Hc. simpl. rewrite Hq. simpl.
  rewrite Hc. simpl. rewrite Ha. simpl.
  split; [reflexivity|]. split; [by split|]. simpl. by rewrite <- app_assoc.
Qed.

(** ** What a user of [sync] can rely on *)

(** Whatever calls the manager has served since it was made, one after
    the other and each settled before the next was made (calls made while
    one is pending are not covered), and however the server answers,
    [sync] on at least one table leaves no transaction open: when it
    returns or throws, the manager holds no client and no transaction is in
    progress. *)
Theorem sync_leaves_no_transaction_open (id : string) (created : Z) (ops : list Op)
    (entities : list (EntityMeta * string * TableEnv)) :
  entities ≠ [] →
  let w := (sync entities (run ops (new_manager id created))).2 in
  client (tm w) = None ∧ isTransactionActive (tm w) = false.
Proof.
  intros Hne. apply sync_idle; [|by right].
  apply run_coherent. by split.
Qed.

(** [sync] called while a transaction is in progress on its manager:
    [beginTransaction] refuses, and the [catch] clause rolls back the
    transaction that was in progress, which is the caller's.  The table is
    not looked at; [sync] throws an [OrmError] that says
    [Transaction already in progress]. *)
Theorem sync_inside_a_transaction_rolls_it_back (w : World) (c : PoolClient)
    (e : EntityMeta) (tableName : string) (env : TableEnv) :
  isTransactionActive (tm w) = true → client (tm w) = Some c →
  let r := syncTable e tableName env w in
  r.1 = Throw (OrmError ("Failed to sync table: " ++ tableName
                         ++ ". Reason: Transaction already in progress")) ∧
  calls r.2 = (calls w ++ [Query c "ROLLBACK"; Release c])%list ∧
  client (tm r.2) = None ∧ isTransactionActive (tm r.2) = false.
Proof.
  intros Ha Hc. unfold syncTable. run_sync. rewrite Ha. simpl. rewrite Ha, Hc. simpl.
  destruct (q_end (rollback_env env)); simpl; rewrite ?Ha, ?Hc; simpl;
    rewrite <- ?app_assoc; done.
Qed.

(** A table that exists, every statement succeeding: between [BEGIN] and
    [COMMIT] the sync asks whether the table exists, reads the names of
    the table's columns, sends one [ALTER TABLE ... ADD COLUMN] for each
    column definition of the entity whose name as [updateTableSchema]
    reads it back ([columnName]: the text before the first space, double
    quotes removed, which is the column's name only when that has neither)
    is not among them, in the order of the entity, and then the index
    statements.  It sends nothing else: no statement alters or drops a
    column.  Then the client is released. *)
Theorem existing_table_gets_the_missing_columns (w : World) (c : PoolClient)
    (e : EntityMeta) (tableName : string) (env : TableEnv) (current : list string) :
  isTransactionActive (tm w) = false →
  connect (begin_env env) = Return c → q_begin (begin_env env) = Return tt →
  table_exists env = Return true → current_columns env = Return current →
  Forall (λ a, a = Return tt) (answers_of env) →
  q_end (commit_env env) = Return tt →
  let r := syncTable e tableName env w in
  r.1 = Return tt ∧
  calls r.2
  = (calls w ++ [GetConnection None; Query c "BEGIN"]
     ++ (Query c <$>
           [checkTableExists_query; currentSchemaQuery]
           ++ (addColumnQuery tableName <$>
                 columns_to_add (columnDefinition <$> columns e) current)
           ++ getIndexMetadata e tableName)
     ++ [Query c "COMMIT"; Release c])%list ∧
  client (tm r.2) = None ∧ isTransactionActive (tm r.2) = false.
Proof.
  intros Ha Hc Hb Hex Hcur Hall Hq.
  destruct (begin_succeeds (begin_env env) w c Ha Hc Hb) as (w1 & E1 & Hw1 & Ec1).
  cut (∃ w2, syncTable e tableName env w = (Return tt, w2) ∧ idle (tm w2) ∧
         calls w2
         = (calls (sending c (currentSchemaQuery ::
                              (addColumnQuery tableName <$>
                                 columns_to_add (columnDefinition <$> columns e) current)
                              ++ getIndexMetadata e tableName)
                     (sending c [checkTableExists_query] w1))
            ++ [Query c "COMMIT"; Release c])%list).
  { intros (w2 & -> & Hi & Ec2). simpl. split; [reflexivity|]. split; [|exact Hi].
    rewrite Ec2. simpl. rewrite Ec1. rewrite <- !app_assoc. reflexivity. }
  unfold syncTable.
  rewrite Hex, Hcur. unfold try_catch at 1. unfold mbind, M_bind. rewrite E1.
  rewrite (checkTableExists_succeeds c) by done. change (negb true) with false.
  cbv iota. rewrite (updateTableSchema_succeeds c) by done.
  destruct (commit_succeeds (commit_env env) c
              (sending c (currentSchemaQuery ::
                          (addColumnQuery tableName <$>
                             columns_to_add (columnDefinition <$> columns e) current)
                          ++ getIndexMetadata e tableName)
                 (sending c [checkTableExists_query] w1)) Hw1 Hq) as (w2 & -> & Hi & Ec2).
  by exists w2.
Qed.

(** A table that does not exist, and [CREATE TABLE] fails with [err]:
    the transaction is rolled back and its client released, no index
    statement and no [COMMIT] is sent, and [sync] throws an [OrmError]
    whose message names the table twice, once for [sync] and once for
    [createTable], before the message of [err]. *)
Theorem failed_create_is_rolled_back (w : World) (c : PoolClient)
    (e : EntityMeta) (tableName : string) (env : TableEnv) (err : JsError)
    (rest : Answers) :
  isTransactionActive (tm w) = false →
  connect (begin_env env) = Return c → q_begin (begin_env env) = Return tt →
  table_exists env = Return false →
  answers_of env = Throw err :: rest →
  let r := syncTable e tableName env w in
  r.1 = Throw (OrmError ("Failed to sync table: " ++ tableName
                         ++ ". Reason: Failed to create table " ++ tableName ++ ": "
                         ++ message err)) ∧
  calls r.2
  = (calls w ++ [GetConnection None; Query c "BEGIN"; Query c checkTableExists_query;
                 Query c (createTableQuery tableName (getEntityMetadata e));
                 Query c "ROLLBACK"; Release c])%list ∧
  client (tm r.2) = None ∧ isTransactionActive (tm r.2) = false.
Proof.
  intros Ha Hc Hb Hex Hans.
  destruct (begin_succeeds (begin_env env) w c Ha Hc Hb) as (w1 & E1 & [Hc1 Ha1] & Ec1).
  cut (∃ w2, syncTable e tableName env w
             = (Throw (OrmError ("Failed to sync table: " ++ tableName
                                 ++ ". Reason: Failed to create table " ++ tableName
                                 ++ ": " ++ message err)), w2) ∧
         idle (tm w2) ∧
         calls w2
         = (calls w1 ++ [Query c checkTableExists_query;
                         Query c (createTableQuery tableName (getEntityMetadata e));
                         Query c "ROLLBACK"; Release c])%list).
  { intros (w2 & -> & Hi & Ec2). simpl. split; [reflexivity|]. split; [|exact Hi].
    rewrite Ec2, Ec1. rewrite <- !app_assoc. reflexivity. }
  unfold syncTable.
  rewrite Hex, Hans. unfold try_catch at 1. unfold mbind at 1 2, M_bind at 1 2.
  rewrite E1.
  rewrite (checkTableExists_succeeds c) by done. change (negb false) with true.
  cbv iota. unfold createTable, sending. run_sync. rewrite Hc1, Ha1. simpl.
  rewrite Ha1, Hc1. simpl.
  destruct (q_end (rollback_env env)); simpl; rewrite ?Hc1, ?Ha1; simpl;
    eexists; (split; [reflexivity|]); simpl; rewrite <- ?app_assoc; done.
Qed.

(** ** Sample runs *)

(** A new manager syncs a table that exists and a table whose
    [CREATE TABLE] fails. *)
Lemma sync_leaves_no_transaction_open_witness :
  let entities :=
    [(user, "users", answering (Return true) (Return ["id"]) []);
     (user, "members", answering (Return false) (Return [])
                         [Throw (Error "permission denied")])] in
  let r := sync entities (new_manager "req" 0) in
  entities ≠ [] ∧
  r.1 = Throw (OrmError "Failed to sync table: members. Reason: Failed to create table members: permission denied") ∧
  length (calls r.2) = 14%nat ∧
  (client (tm r.2) = None ∧ isTransactionActive (tm r.2) = false).
Proof.
  split; [discriminate|]. split; [vm_compute; reflexivity|].
  split; [vm_compute; reflexivity|].
  by apply (sync_leaves_no_transaction_open "req" 0 []).
Defined.

(** A caller in a transaction of its own syncs a table. *)
Lemma sync_inside_a_transaction_witness :
  let env := answering (Return true) (Return ["id"]) [] in
  let w := (beginTransaction (begin_env env) None (new_manager "req" 0)).2 in
  let r := syncTable user "users" env w in
  isTransactionActive (tm w) = true ∧ client (tm w) = Some 7%nat ∧
  rolledBackTransactions (metrics (tm r.2)) = 1 ∧
  (r.1 = Throw (OrmError ("Failed to sync table: " ++ "users"
                          ++ ". Reason: Transaction already in progress")) ∧
   calls r.2 = (calls w ++ [Query 7%nat "ROLLBACK"; Release 7%nat])%list ∧
   client (tm r.2) = None ∧ isTransactionActive (tm r.2) = false).
Proof.
  split; [reflexivity|]. split; [reflexivity|]. split; [vm_compute; reflexivity|].
  apply (sync_inside_a_transaction_rolls_it_back _ 7%nat); reflexivity.
Defined.

(** The table has the column [id] and the entity the columns [id] and
    [email]: one column is added and one index made. *)
Lemma existing_table_witness :
  let env := answering (Return true) (Return ["id"]) [] in
  let w := new_manager "req" 0 in
  let r := syncTable user "users" env w in
  columns_to_add (columnDefinition <$> columns user) ["id"]
  = [columnDefinition {| name := "email"; type := "TEXT" |}] ∧
  length (getIndexMetadata user "users") = 1%nat ∧
  (r.1 = Return tt ∧
   calls r.2
   = (calls w ++ [GetConnection None; Query 7%nat "BEGIN"]
      ++ (Query 7%nat <$>
            [checkTableExists_query; currentSchemaQuery]
            ++ (addColumnQuery "users" <$>
                  columns_to_add (columnDefinition <$> columns user) ["id"])
            ++ getIndexMetadata user "users")
      ++ [Query 7%nat "COMMIT"; Release 7%nat])%list ∧
   client (tm r.2) = None ∧ isTransactionActive (tm r.2) = false).
Proof.
  split; [vm_compute; reflexivity|]. split; [reflexivity|].
  apply (existing_table_gets_the_missing_columns _ 7%nat); try reflexivity.
  constructor.
Defined.

(** The server refuses to create the table. *)
Lemma failed_create_witness :
  let env := answering (Return false) (Return []) [Throw (Error "permission denied")] in
  let w := new_manager "req" 0 in
  let r := syncTable user "members" env w in
  r.1 = Throw (OrmError "Failed to sync table: members. Reason: Failed to create table members: permission denied") ∧
  (r.1 = Throw (OrmError ("Failed to sync table: " ++ "members"
                          ++ ". Reason: Failed to create table " ++ "members" ++ ": "
                          ++ message (Error "permission denied"))) ∧
   calls r.2
   = (calls w ++ [GetConnection None; Query 7%nat "BEGIN"; Query 7%nat checkTableExists_query;
                  Query 7%nat (createTableQuery "members" (getEntityMetadata user));
                  Query 7%nat "ROLLBACK"; Release 7%nat])%list ∧
   client (tm r.2) = None ∧ isTransactionActive (tm r.2) = false).
Proof.
  split; [vm_compute; reflexivity|].
  apply (failed_create_is_rolled_back _ 7%nat _ _ _ _ []); reflexivity.
Defined.

End SchemaSyncFacts.

(** * Properties of the counters of the connection pool manager *)

Module PoolCountFacts.
Import Pool PoolCounts PoolFacts.
Local Open Scope Z_scope.

Ltac run_code :=
  repeat (unfold performClientRelease, releaseConnection, resetMetrics,
            addHistory, emitConnectionStatus, driver_release, checkout,
            clearTimeout, setTimeout, fresh, read_client, update_client,
            update_acquisition, modify_metrics, log, output, emit_error, lease,
            modify, get, throw, try_catch, mbind, mret, M_bind, M_ret;
          simpl).

(** ** Walking through the code with a property of the state *)

Lemma listeners_alter (f : Client → Client) (c c' : ClientRef) (s : State) :
  (∀ cl, listeners_of (f cl) = listeners_of cl) →
  forcedReleaseListeners c' (set_clients (alter f c (clients s)) s)
  = forcedReleaseListeners c' s.
Proof.
  intros Hf. unfold forcedReleaseListeners. simpl.
  destruct (decide (c = c')) as [->|Hne].
  - rewrite lookup_alter_eq. destruct (clients s !! c'); simpl; [apply Hf | reflexivity].
  - by rewrite lookup_alter_ne.
Qed.

Lemma filter_persistent_twice (l : list ErrorListener) :
  List.filter persistent (List.filter persistent l) = List.filter persistent l.
Proof.
  induction l as [|x l IH]; simpl; [reflexivity|].
  destruct (persistent x) eqn:Hx; simpl; rewrite ?Hx, IH; reflexivity.
Qed.

(** A change of a client object that leaves its forced-release
    listeners alone. *)
Ltac same_listeners :=
  let x := fresh "cl" in
  intros x; unfold listeners_of; destruct x; simpl;
  rewrite ?filter_persistent_twice, ?List.filter_app, ?length_app; simpl; lia.

Section Through.
Context (max : option nat) (P : State → Prop) (resets : bool).

(** The property reads the metrics, the size of the table of leases and
    the numbers of forced-release listeners only. *)
Hypothesis P_quiet : ∀ s s',
  metrics s' = metrics s →
  size (connectionTimestamps s') = size (connectionTimestamps s) →
  (∀ c, forcedReleaseListeners c s' = forcedReleaseListeners c s) →
  P s → P s'.
(** The places that write them. *)
Hypothesis P_release : ∀ c e f now, through P (performClientRelease c e f now).
Hypothesis P_catch : ∀ id a now e, through P (getConnection_catch id a now e).
Hypothesis P_connect : through P pool_on_connect.
Hypothesis P_lease : ∀ s id a c now,
  wf max (lease id a c now s).2 → connectionTimestamps s !! id = None →
  is_Some (clients s !! c) →
  P s → P (lease id a c now s).2.
Hypothesis P_reset : resets = true → ∀ now, through P (resetMetrics now).

Lemma through_ret {A} (a : A) : through P (mret a).
Proof. intros s H. exact H. Qed.

Lemma through_throw {A} (e : JsError) : through P (@throw State A e).
Proof. intros s H. exact H. Qed.

Lemma through_get : through P get.
Proof. intros s H. exact H. Qed.

Lemma through_bind {A B} (m : M State A) (f : A → M State B) :
  through P m → (∀ a, through P (f a)) → through P (m ≫= f).
Proof.
  intros Hm Hf s H. unfold mbind, M_bind. specialize (Hm s H).
  destruct (m s) as [[a|e] s']; simpl in *; [by apply Hf | exact Hm].
Qed.

Lemma through_try_catch {A} (m : M State A) (h : JsError → M State A) :
  through P m → (∀ e, through P (h e)) → through P (try_catch m h).
Proof.
  intros Hm Hh s H. unfold try_catch. specialize (Hm s H).
  destruct (m s) as [[a|e] s']; simpl in *; [exact Hm | by apply Hh].
Qed.

Lemma through_quiet (f : State → State) :
  (∀ s, metrics (f s) = metrics s) →
  (∀ s, size (connectionTimestamps (f s)) = size (connectionTimestamps s)) →
  (∀ s c, forcedReleaseListeners c (f s) = forcedReleaseListeners c s) →
  through P (modify f).
Proof.
  intros Hm Ht Hl s H. simpl.
  apply (P_quiet s); [apply Hm | apply Ht | intros c; apply Hl | exact H].
Qed.

Lemma through_output (o : Output) : through P (output o).
Proof. by apply through_quiet. Qed.

Lemma through_log level msg : through P (log level msg).
Proof. apply through_output. Qed.

Lemma through_emit_error e : through P (emit_error e).
Proof.
  unfold emit_error. apply through_bind; [apply through_get|]. intros s0.
  destruct (errorListeners s0); [apply through_throw | apply through_output].
Qed.

Lemma through_update_client c f :
  (∀ cl, listeners_of (f cl) = listeners_of cl) → through P (update_client c f).
Proof.
  intros Hf. apply through_quiet; try done. intros s c'. by apply listeners_alter.
Qed.

Lemma through_update_acquisition id f : through P (update_acquisition id f).
Proof. by apply through_quiet. Qed.

Lemma through_read_client c : through P (read_client c).
Proof.
  unfold read_client. apply through_bind; [apply through_get|]. intros ?.
  apply through_ret.
Qed.

Lemma through_fresh : through P fresh.
Proof. intros s H. unfold fresh. run_code. by apply (P_quiet s). Qed.

Lemma through_clearTimeout t : through P (clearTimeout t).
Proof. destruct t; [by apply through_quiet | apply through_ret]. Qed.

Lemma through_setTimeout cb : through P (setTimeout cb).
Proof. intros s H. unfold setTimeout. run_code. by apply (P_quiet s). Qed.

Lemma through_driver_query c sql w who : through P (driver_query c sql w who).
Proof. intros s H. unfold driver_query. run_code. by apply (P_quiet s). Qed.

Lemma through_driver_release c d : through P (driver_release c d).
Proof. intros s H. run_code. destruct d; by apply (P_quiet s). Qed.

Lemma through_checkout c : through P (checkout c).
Proof.
  unfold checkout. apply through_bind; [by apply through_quiet|]. intros _.
  apply through_update_client. same_listeners.
Qed.

Lemma through_alter (f : ConnectionTimestamp → ConnectionTimestamp) id :
  through P (modify (λ s, set_connectionTimestamps
                           (alter f id (connectionTimestamps s)) s)).
Proof.
  apply through_quiet; try done. intros s. simpl. apply map_size_alter.
Qed.

Lemma through_settle id r : through P (settle id r).
Proof. apply through_output. Qed.

Create HintDb through.
#[local] Hint Resolve through_ret through_throw through_get through_log
  through_emit_error through_update_acquisition
  through_read_client through_fresh through_clearTimeout through_setTimeout
  through_driver_query through_driver_release through_checkout through_alter
  through_settle through_output : through.

Ltac walk :=
  repeat first
    [ solve [auto with through]
    | apply through_bind; [|intros ?]
    | apply through_try_catch; [|intros ?]
    | apply through_quiet; intros; reflexivity
    | apply through_update_client; same_listeners
    | match goal with |- through _ (match ?x with _ => _ end) => destruct x end
    | match goal with |- through _ (if ?x then _ else _) => destruct x end ].

Lemma through_client_release c arg now : through P (client_release c arg now).
Proof. unfold client_release. pose proof P_release. walk. Qed.

Lemma through_clear_current_timer id : through P (clear_current_timer id).
Proof. unfold clear_current_timer. walk. Qed.

Lemma through_release_timed_out id now : through P (release_timed_out id now).
Proof. unfold release_timed_out. pose proof P_release. walk. Qed.

Lemma through_wrapped_query id sql thenable who :
  through P (wrapped_query id sql thenable who).
Proof. unfold wrapped_query, arm_timer. walk. Qed.

Lemma through_client_query c sql thenable who :
  through P (client_query c sql thenable who).
Proof. unfold client_query. pose proof through_wrapped_query. walk. Qed.

Lemma through_getConnection_run id a now (body : M State (option ClientRef)) :
  through P body → through P (getConnection_run id a now body).
Proof.
  intros Hb. unfold getConnection_run. apply through_bind; [walk|]. intros _ s H.
  assert (through P (try_catch body (getConnection_catch id a now))) as Hc.
  { apply through_try_catch; [exact Hb|]. intros e. apply P_catch. }
  specialize (Hc s H).
  destruct (try_catch body (getConnection_catch id a now) s) as [[[c|]|e] s'];
    simpl in *; try exact Hc; revert Hc; apply through_output.
Qed.

Lemma through_setup_readOnly id a c : through P (setup_readOnly id a c).
Proof. unfold setup_readOnly. pose proof through_client_query. walk. Qed.

Lemma through_setup_isolation id a c : through P (setup_isolation id a c).
Proof.
  unfold setup_isolation.
  pose proof through_client_query. pose proof (through_setup_readOnly id a c). walk.
Qed.

Lemma through_getConnection_resumed id a r now :
  through P (getConnection_resumed id a r now).
Proof.
  unfold getConnection_resumed.
  destruct (leased a) as [c|]; [|apply through_ret].
  destruct (stage a); try apply through_ret; apply through_getConnection_run;
    destruct r; auto using through_setup_readOnly with through.
Qed.

Lemma through_cancel_queried t k cc r now : through P (cancel_queried t k cc r now).
Proof.
  unfold cancel_queried.
  pose proof through_client_release. pose proof through_release_timed_out. walk.
Qed.

Lemma through_cancel_connected t k r now : through P (cancel_connected t k r now).
Proof.
  unfold cancel_connected.
  pose proof through_client_query. pose proof through_release_timed_out. walk.
Qed.

Lemma through_timer_callback t cb now : through P (timer_callback t cb now).
Proof. unfold timer_callback. pose proof through_release_timed_out. walk. Qed.

Lemma through_query_settled q info r now : through P (query_settled q info r now).
Proof.
  unfold query_settled.
  pose proof through_clear_current_timer. pose proof through_getConnection_resumed.
  pose proof through_cancel_queried. walk.
Qed.

Lemma through_each {A} (f : A → M State unit) (l : list A) :
  (∀ x, through P (f x)) → through P (each f l).
Proof.
  intros Hf. induction l as [|x l IH]; simpl; [apply through_ret|].
  apply through_bind; [apply Hf|]. intros _. exact IH.
Qed.

Lemma through_client_emits_error c e now : through P (client_emits_error c e now).
Proof.
  unfold client_emits_error.
  apply through_bind; [walk|]. intros cl. apply through_bind; [walk|]. intros _.
  apply through_each. intros [|id]; simpl;
    pose proof P_release; pose proof through_clear_current_timer; walk.
Qed.

Lemma through_client_emits_end c : through P (client_emits_end c).
Proof.
  unfold client_emits_end.
  apply through_bind; [walk|]. intros cl. apply through_bind; [walk|]. intros _.
  apply through_each. apply through_clear_current_timer.
Qed.

Lemma through_bind_at {A B} (m : M State A) (f : A → M State B) (s : State) :
  P (m s).2 → (∀ a, through P (f a)) → P ((m ≫= f) s).2.
Proof.
  intros Hm Hf. unfold mbind, M_bind.
  destruct (m s) as [[a|e] s1]; simpl in *; [by apply Hf | exact Hm].
Qed.

Lemma through_getConnection_run_at (s : State) id a now
    (body : M State (option ClientRef)) :
  P (body (set_acquisitions (alter (set_stage Running) id (acquisitions s)) s)).2 →
  P (getConnection_run id a now body s).2.
Proof.
  unfold getConnection_run, update_acquisition, modify, try_catch.
  unfold mbind, mret, M_bind, M_ret; simpl.
  set (s1 := set_acquisitions _ s). intros H.
  destruct (body s1) as [[[c|]|e] s2]; simpl in *.
  - revert H. apply through_settle.
  - exact H.
  - pose proof (P_catch id a now e s2 H) as H'.
    destruct (getConnection_catch id a now e s2) as [[[c|]|e'] s3]; simpl in *;
      [revert H'; apply through_settle | exact H' | revert H'; apply through_settle].
Qed.

Lemma through_exec (m : M State unit) (s : State) : P (m s).2 → P (exec m s).
Proof.
  unfold exec. destruct (m s) as [[[]|e] s']; simpl; [done|].
  by apply P_quiet.
Qed.

(** Every event keeps the property, on a state that has the invariant;
    a call of [resetMetrics] is among the events only if the property
    survives it. *)
Lemma fire_through (ev : Event) (s s' : State) :
  wf max s → P s → (is_reset ev = true → resets = true) →
  fire max ev s = Some s' → P s'.
Proof.
  intros Hwf H Hres. unfold fire.
  destruct (handler max ev s) as [m|] eqn:Hm; [|discriminate].
  simpl. intros [= <-]. apply through_exec.
  destruct ev as [|c pid|suffix opts now|[id|t] r now|c sql thenable|q r now|t now
                  |c arg now|c err force now|c e now|c|now| | |e]; simpl in Hm.
  - injection Hm as <-. by apply through_quiet.
  - destruct (clients s !! c) eqn:Hc; [discriminate|]. injection Hm as <-.
    apply through_bind_at; [|intros _; apply P_connect].
    simpl. apply (P_quiet s); try done.
    intros c'. unfold forcedReleaseListeners. simpl.
    destruct (decide (c = c')) as [->|Hne];
      [by rewrite lookup_insert_eq, Hc | by rewrite lookup_insert_ne].
  - destruct (acquisitions s !! ("conn_" ++ suffix)) eqn:Ha; [discriminate|].
    injection Hm as <-. revert H. generalize s. unfold getConnection_called. walk.
  - destruct (acquisitions s !! id) as [a|] eqn:Ha; [|discriminate].
    destruct (stage a) eqn:Hst; try discriminate.
    destruct (can_settle max s r) eqn:Hok; [|discriminate]. injection Hm as <-.
    destruct r as [c|e]; [|revert H; generalize s;
                            apply through_getConnection_run, through_throw].
    simpl in Hok. apply andb_prop in Hok as [Hok Hcap].
    apply andb_prop in Hok as [Hok Hdes]. apply andb_prop in Hok as [Hin Hout].
    apply bool_decide_eq_true in Hcap, Hout, Hin. destruct Hin as [cl Hcl].
    apply through_getConnection_run_at. unfold getConnection_connected.
    pose proof (keeps_set_stage max id Running ltac:(done) s Hwf) as H1. simpl in H1.
    apply through_bind_at; [|intros _; apply through_setup_isolation].
    apply P_lease.
    + eapply (wf_lease_block max _ id a (set_stage Running a) c cl); try done.
      * simpl. by rewrite lookup_alter_eq, Ha.
      * simpl. by eapply wf_pending.
    + simpl. by eapply wf_pending.
    + by exists cl.
    + by apply (P_quiet s).
  - destruct (cancellations s !! t) as [k|] eqn:Hk; [|discriminate].
    destruct (cancelStage k); [|discriminate].
    destruct (can_settle max s r) eqn:Hok; [|discriminate]. injection Hm as <-.
    by apply through_cancel_connected.
  - destruct (clients s !! c); [|discriminate]. injection Hm as <-.
    by apply through_client_query.
  - destruct (queries s !! q) as [info|]; [|discriminate]. injection Hm as <-.
    by apply through_query_settled.
  - destruct (timers s !! t) as [cb|]; [|discriminate]. injection Hm as <-.
    revert H. generalize s.
    apply (through_bind (modify _)); [by apply through_quiet|].
    intros _. apply through_timer_callback.
  - destruct (clients s !! c); [|discriminate]. injection Hm as <-.
    by apply through_client_release.
  - destruct (clients s !! c); [|discriminate]. injection Hm as <-.
    revert H. generalize s. apply (through_bind (log DEBUG _)); [apply through_log|].
    intros _. apply P_release.
  - destruct (clients s !! c); [|discriminate]. injection Hm as <-.
    by apply through_client_emits_error.
  - destruct (clients s !! c); [|discriminate]. injection Hm as <-.
    by apply through_client_emits_end.
  - injection Hm as <-. by apply P_reset; [apply Hres|].
  - injection Hm as <-. by apply through_log.
  - injection Hm as <-. by apply through_log.
  - injection Hm as <-. revert H. generalize s.
    apply (through_bind (log ERROR _)); [apply through_log|]. intros _.
    apply through_emit_error.
Qed.

Lemma run_through (evs : list Event) (s s' : State) :
  wf max s → P s → (∀ ev, ev ∈ evs → is_reset ev = true → resets = true) →
  run max evs s = Some s' → P s'.
Proof.
  revert s. induction evs as [|ev evs IH]; intros s Hwf H Hres; simpl.
  - by intros [= <-].
  - destruct (fire max ev s) as [s1|] eqn:Hf; [|discriminate]. simpl.
    apply IH.
    + by eapply fire_wf.
    + eapply fire_through; [exact Hwf | exact H | | exact Hf].
      apply Hres. by left.
    + intros ev' Hin. apply Hres. by right.
Qed.

End Through.

(** ** What the places that write the metrics do to them *)

Lemma release_missing (s : State) (c : ClientRef) (e : option JsError)
    (f : option bool) (now : Z) :
  clients s !! c = None →
  let r := performClientRelease c e f now s in
  metrics r.2 = metrics s ∧ connectionTimestamps r.2 = connectionTimestamps s.
Proof. intros Hc. run_code. rewrite Hc. simpl. by split. Qed.

Lemma tracked_lookup (s : State) (cl : Client) id d :
  tracked s cl = Some (id, d) → connectionTimestamps s !! id = Some d.
Proof.
  unfold tracked. destruct (connectionIdSymbol cl) as [id'|]; [|done]. simpl.
  destruct (connectionTimestamps s !! id') eqn:Hd; [|done]. simpl. congruence.
Qed.

(** The three cases of a release. *)
Lemma release_cases (s : State) (c : ClientRef) (e : option JsError)
    (f : option bool) (now : Z) :
  let r := performClientRelease c e f now s in
  (metrics r.2 = metrics s ∧ connectionTimestamps r.2 = connectionTimestamps s) ∨
  ∃ id d, connectionTimestamps s !! id = Some d ∧
    connectionTimestamps r.2 = delete id (connectionTimestamps s) ∧
    metrics r.2
    = set_connectionHistory
        (pushed (connectionHistory (metrics s)) (release_entry id d e now))
        (set_connectionDurations
           (connectionDurations (metrics s) ++ [now - acquiredAt d])%list
           (set_activeLeasedConnections
              (Z.max 0 (activeLeasedConnections (metrics s) - 1))
              (set_releasedConnections (releasedConnections (metrics s) + 1)
                 (metrics s)))).
Proof.
  intros r. subst r.
  destruct (clients s !! c) as [cl|] eqn:Hc; [|left; by apply release_missing].
  destruct (tracked s cl) as [[id d]|] eqn:Htr.
  - right. exists id, d. split; [by eapply tracked_lookup|].
    destruct (release_tracked s c cl id d e f now Hc Htr) as (_ & Et & _).
    destruct (release_tracked_record s c cl id d e f now Hc Htr) as (Em & _).
    by split.
  - left. by destruct (release_untracked s c cl e f now Hc Htr) as (_ & ? & ? & _).
Qed.

Lemma lease_record (s : State) (id : string) (a : Acquisition) (c : ClientRef)
    (now : Z) :
  let r := lease id a c now s in
  (∃ d, connectionTimestamps r.2 = <[id := d]> (connectionTimestamps s)) ∧
  metrics r.2
  = set_connectionHistory
      (pushed (connectionHistory (metrics s))
         {| type := acquired; timestamp := now; connectionId := Some id;
            durationMs := Some (now - acquisitionStartTime a); error := None |})
      (set_maxConcurrentLeasedConnections
         (Z.max (maxConcurrentLeasedConnections (metrics s))
                (activeLeasedConnections (metrics s) + 1))
         (set_activeLeasedConnections (activeLeasedConnections (metrics s) + 1)
            (set_acquiredConnections (acquiredConnections (metrics s) + 1)
               (metrics s)))).
Proof.
  run_code. split; [by eexists|].
  destruct (metrics s); simpl.
  case_decide; simpl; [rewrite Z.max_r by lia | rewrite Z.max_l by lia]; reflexivity.
Qed.

Lemma catch_record (s : State) id a now e :
  let r := getConnection_catch id a now e s in
  connectionTimestamps r.2 = connectionTimestamps s ∧
  metrics r.2
  = set_connectionHistory
      (pushed (connectionHistory (metrics s))
         {| type := failed_acquire; timestamp := now; connectionId := Some id;
            durationMs := Some (now - acquisitionStartTime a);
            error := Some (message e) |})
      (set_failedAcquisitions (failedAcquisitions (metrics s) + 1) (metrics s)).
Proof.
  unfold getConnection_catch. run_code. by destruct (errorListeners s).
Qed.

Lemma length_pushed (h : list HistoryEvent) (x : HistoryEvent) :
  (length h ≤ MAX_HISTORY_SIZE → length (pushed h x) ≤ MAX_HISTORY_SIZE)%nat.
Proof.
  unfold pushed. intros Hh. case_decide as Hlen.
  - destruct h as [|y h]; simpl in *; [unfold MAX_HISTORY_SIZE; lia|].
    rewrite length_app. simpl. lia.
  - lia.
Qed.

(** ** The figures of a summary *)

Section Configured.
Context (max : option nat).

Lemma tally_new_pool (created : Z) : tally max (new_pool created).
Proof. unfold tally, MAX_HISTORY_SIZE. simpl. lia. Qed.

Lemma run_tally (evs : list Event) (s s' : State) :
  wf max s → tally max s → run max evs s = Some s' → tally max s'.
Proof.
  intros Hwf H. apply (run_through max (tally max) true); try done.
  - unfold tally. intros s0 s1 Hm _ _. by rewrite Hm.
  - intros c e f now s0 H0.
    destruct (release_cases s0 c e f now) as [[Em _]|(id & d & _ & _ & Em)];
      unfold tally in *; rewrite Em; [exact H0|]. simpl.
    destruct H0 as (? & ? & ? & ? & ? & ? & ?).
    repeat split; try lia; [rewrite length_app; simpl; lia | by apply length_pushed].
  - intros id a now e s0 H0. destruct (catch_record s0 id a now e) as [_ Em].
    unfold tally in *. rewrite Em. simpl.
    destruct H0 as (? & ? & ? & ? & ? & ? & ?).
    repeat split; try lia. by apply length_pushed.
  - intros s0 H0. unfold tally in *. simpl. lia.
  - intros s0 id a c now Hwf' _ _ H0. destruct (lease_record s0 id a c now) as [_ Em].
    pose proof (tracked_le_checked_out max _ Hwf') as Hle.
    destruct Hwf' as [_ Hcount _ _ _ _ Hcap _ _]. unfold activeLeased in Hcount.
    unfold tally in *. rewrite Em in *. simpl in *.
    destruct H0 as (? & ? & ? & ? & ? & ? & ?).
    repeat split; try lia. by apply length_pushed.
  - intros _ now s0 H0. unfold tally in *. simpl. unfold MAX_HISTORY_SIZE. lia.
Qed.

Lemma exact_new_pool (created : Z) : exact (new_pool created).
Proof. unfold exact. simpl. by rewrite map_size_empty. Qed.

Lemma run_exact (evs : list Event) (s s' : State) :
  wf max s → exact s → forallb (λ ev, negb (is_reset ev)) evs = true →
  run max evs s = Some s' → exact s'.
Proof.
  intros Hwf H Hres. apply (run_through max exact false); try done.
  - unfold exact. intros s0 s1 Hm Ht _. by rewrite Hm, Ht.
  - intros c e f now s0 H0.
    destruct (release_cases s0 c e f now) as [[Em Et]|(id & d & Hd & Et & Em)];
      unfold exact in *; rewrite Em, Et; [exact H0|]. simpl.
    pose proof (map_size_delete id (connectionTimestamps s0)) as Hs. rewrite Hd in Hs. simpl in Hs.
    assert (size (connectionTimestamps s0) ≠ 0)%nat.
    { intros Hz. apply map_size_empty_inv in Hz. rewrite Hz in Hd. by rewrite lookup_empty in Hd. }
    lia.
  - intros id a now e s0 H0. destruct (catch_record s0 id a now e) as [Et Em].
    unfold exact in *. by rewrite Em, Et.
  - intros s0 H0. exact H0.
  - intros s0 id a c now _ Hfresh _ H0.
    destruct (lease_record s0 id a c now) as [[d Et] Em].
    unfold exact in *. rewrite Em, Et. simpl.
    rewrite map_size_insert_None by done. lia.
  - intros ev Hin Hev. rewrite forallb_forall in Hres.
    apply list_elem_of_In in Hin. specialize (Hres ev Hin). by rewrite Hev in Hres.
Qed.


(** *** The listeners of a client's ['error'] event *)

Lemma release_listeners (s : State) (c c' : ClientRef) e f now :
  forcedReleaseListeners c' (performClientRelease c e f now s).2
  = forcedReleaseListeners c' s.
Proof.
  destruct (clients s !! c) as [cl|] eqn:Hc.
  - assert (∃ sym, clients (performClientRelease c e f now s).2
                   = <[c := reset_client sym cl]> (clients s)) as [sym Ec].
    { destruct (tracked s cl) as [[id d]|] eqn:Htr.
      - exists None.
        by destruct (release_tracked s c cl id d e f now Hc Htr)
          as (_ & _ & _ & _ & _ & _ & _ & _ & ? & _).
      - exists (connectionIdSymbol cl).
        by destruct (release_untracked s c cl e f now Hc Htr)
          as (_ & _ & _ & _ & _ & _ & _ & _ & _ & ? & _). }
    unfold forcedReleaseListeners. rewrite Ec.
    destruct (decide (c = c')) as [<-|Hne];
      [by rewrite lookup_insert_eq, Hc | by rewrite lookup_insert_ne].
  - run_code. rewrite Hc. reflexivity.
Qed.

Lemma lease_listeners (s : State) (id : string) (a : Acquisition) (c c' : ClientRef)
    (now : Z) :
  is_Some (clients s !! c) →
  forcedReleaseListeners c' (lease id a c now s).2
  = (forcedReleaseListeners c' s + if decide (c = c') then 1 else 0)%nat.
Proof.
  intros [cl Hc].
  destruct (lease_effect s id a c cl now Hc) as (_ & _ & _ & _ & Ec & _).
  unfold forcedReleaseListeners. rewrite Ec.
  destruct (decide (c = c')) as [<-|Hne].
  - rewrite lookup_insert_eq, Hc. unfold listeners_of. simpl.
    rewrite List.filter_app, length_app. reflexivity.
  - rewrite lookup_insert_ne by done. lia.
Qed.

Lemma catch_listeners (s : State) id a now e c :
  forcedReleaseListeners c (getConnection_catch id a now e s).2
  = forcedReleaseListeners c s.
Proof. unfold getConnection_catch. run_code. by destruct (errorListeners s). Qed.

Lemma run_listeners (evs : list Event) (s s' : State) (c : ClientRef) :
  wf max s → run max evs s = Some s' →
  (forcedReleaseListeners c s ≤ forcedReleaseListeners c s')%nat.
Proof.
  intros Hwf.
  apply (run_through max (λ x, forcedReleaseListeners c s ≤ forcedReleaseListeners c x)%nat
           true); try done.
  - intros s0 s1 _ _ Hl. by rewrite Hl.
  - intros c0 e f now s0 H0. by rewrite release_listeners.
  - intros id a now e s0 H0. by rewrite catch_listeners.
  - intros s0 H0. exact H0.
  - intros s0 id a c0 now _ _ Hc H0. rewrite lease_listeners by done. lia.
  - intros _ now s0 H0. exact H0.
Qed.

Lemma lease_adds_a_listener (s s1 : State) (id : string) (c : ClientRef) (now : Z) :
  fire max (ConnectSettles (Acquiring id) (Return c) now) s = Some s1 →
  forcedReleaseListeners c s1 = S (forcedReleaseListeners c s).
Proof.
  unfold fire. simpl.
  destruct (acquisitions s !! id) as [a|] eqn:Ha; [|discriminate].
  destruct (stage a) eqn:Hst; try discriminate.
  destruct (_ && _) eqn:Hok; [|discriminate]. simpl. intros [= <-].
  apply andb_prop in Hok as [Hok _]. apply andb_prop in Hok as [Hok _].
  apply andb_prop in Hok as [Hin _]. apply bool_decide_eq_true in Hin.
  set (P := λ x, forcedReleaseListeners c x = S (forcedReleaseListeners c s)).
  assert (Hq : ∀ x x', metrics x' = metrics x →
            size (connectionTimestamps x') = size (connectionTimestamps x) →
            (∀ c0, forcedReleaseListeners c0 x' = forcedReleaseListeners c0 x) →
            P x → P x').
  { intros x x' _ _ Hl. unfold P. by rewrite Hl. }
  assert (Hc : ∀ id a now e, through P (getConnection_catch id a now e)).
  { intros id0 a0 now0 e x. unfold P. by rewrite catch_listeners. }
  apply (through_exec P Hq).
  apply (through_getConnection_run_at P Hq Hc). unfold getConnection_connected.
  apply (through_bind_at P); [|intros _; apply (through_setup_isolation P Hq)].
  unfold P. rewrite lease_listeners by done.
  rewrite decide_True by done. unfold forcedReleaseListeners. simpl. lia.
Qed.


(** ** What a user of the manager can rely on *)

(** Whatever sequence of events led to it from a new manager, the
    high-water mark [maxConcurrentLeasedConnections] is at least the
    current [activeLeasedConnections], which is not negative, and at most
    the capacity of the driver's pool, [poolOptions.max || 10]. *)
Theorem high_water_mark_bounds_the_leases (created : Z) (evs : list Event) (s : State) :
  run max evs (new_pool created) = Some s →
  0 ≤ activeLeasedConnections (metrics s) ≤ maxConcurrentLeasedConnections (metrics s) ∧
  maxConcurrentLeasedConnections (metrics s) ≤ Z.of_nat (capacity max).
Proof.
  intros Hrun.
  pose proof (run_tally evs _ s (wf_new_pool max created) (tally_new_pool created) Hrun)
    as (? & ? & _).
  by split.
Qed.

(** Whatever sequence of events led to it from a new manager,
    [connectionHistory] holds at most [MAX_HISTORY_SIZE] entries, which
    is 200: [addHistory] drops the oldest entry when it adds one too
    many. *)
Theorem connection_history_is_capped (created : Z) (evs : list Event) (s : State) :
  run max evs (new_pool created) = Some s →
  (length (connectionHistory (metrics s)) ≤ MAX_HISTORY_SIZE)%nat.
Proof.
  intros Hrun.
  by pose proof (run_tally evs _ s (wf_new_pool max created) (tally_new_pool created) Hrun)
    as (_ & _ & _ & _ & _ & _ & ?).
Qed.

(** Whatever sequence of events led to it from a new manager,
    [connectionDurations] has exactly one entry for each release counted
    in [releasedConnections]: the array is cut only by [resetMetrics],
    together with the counter, and otherwise grows with every release.
    No counter is negative. *)
Theorem every_counted_release_left_a_duration (created : Z) (evs : list Event)
    (s : State) :
  run max evs (new_pool created) = Some s →
  Z.of_nat (length (connectionDurations (metrics s))) = releasedConnections (metrics s) ∧
  0 ≤ acquiredConnections (metrics s) ∧ 0 ≤ failedAcquisitions (metrics s) ∧
  0 ≤ totalConnectionsCreated (metrics s).
Proof.
  intros Hrun.
  pose proof (run_tally evs _ s (wf_new_pool max created) (tally_new_pool created) Hrun)
    as (_ & _ & ? & ? & ? & ? & _).
  by repeat split.
Qed.

(** As long as [resetMetrics] has not been called, the counters are
    exact: [activeLeasedConnections] is the number of leases in
    [connectionTimestamps], and it is [acquiredConnections] less
    [releasedConnections]. *)
Theorem counters_match_the_leases_until_a_reset (created : Z) (evs : list Event)
    (s : State) :
  run max evs (new_pool created) = Some s →
  forallb (λ ev, negb (is_reset ev)) evs = true →
  activeLeasedConnections (metrics s) = Z.of_nat (size (connectionTimestamps s)) ∧
  acquiredConnections (metrics s) - releasedConnections (metrics s)
  = activeLeasedConnections (metrics s).
Proof.
  intros Hrun Hres.
  exact (run_exact evs _ s (wf_new_pool max created) (exact_new_pool created) Hres Hrun).
Qed.

(** The listeners that [getConnection] adds to a client's ['error']
    event with [client.on] are never removed: from any state a new manager
    can reach, no sequence of events lowers their number on any client
    object, and each time the driver's pool hands the client [c] to
    [getConnection] the client has one more.  A client object that the
    pool hands out again and again so collects one listener per lease. *)
Theorem error_listeners_are_never_removed (created : Z) (evs evs' : list Event)
    (s s' : State) (c : ClientRef) :
  run max evs (new_pool created) = Some s →
  run max evs' s = Some s' →
  (forcedReleaseListeners c s ≤ forcedReleaseListeners c s')%nat ∧
  ∀ id now s1,
    fire max (ConnectSettles (Acquiring id) (Return c) now) s = Some s1 →
    forcedReleaseListeners c s1 = S (forcedReleaseListeners c s).
Proof.
  intros Hrun Hrun'. split.
  - eapply run_listeners; [|exact Hrun']. by eapply run_wf, Hrun; apply wf_new_pool.
  - intros id now s1. apply lease_adds_a_listener.
Qed.

(** A setup statement of [getConnection] ([SET TRANSACTION ISOLATION
    LEVEL ...] or [SET TRANSACTION READ ...]) fails with [e]: the promise
    of the call is rejected, with a [DatabaseConnectionError] whose message
    is [Failed to acquire connection: ] followed by the message of [e]
    (with [e] itself when nobody listens to the manager's ['error'] event,
    because emitting throws then), and [failedAcquisitions] goes up by
    one.  The lease made before the statement stays: the counter of active
    leases, the table of leases, the clients the driver's pool has handed
    out and every client object are as before, so the client is not given
    back to the pool. *)
Theorem failed_setup_statement_keeps_the_lease (s s' : State) (q : QueryId)
    (info : InFlight) (id : string) (a : Acquisition) (c : ClientRef) (e : JsError)
    (now : Z) :
  queries s !! q = Some info → awaitedBy info = Some (Acquiring id) →
  acquisitions s !! id = Some a → leased a = Some c →
  stage a = SettingIsolation ∨ stage a = SettingReadOnly →
  fire max (QuerySettles q (Throw e) now) s = Some s' →
  last (out s')
  = Some (Settled id
            (Throw (if errorListeners s is O then e
                    else DatabaseConnectionError
                           ("Failed to acquire connection: " ++ message e)))) ∧
  failedAcquisitions (metrics s') = failedAcquisitions (metrics s) + 1 ∧
  activeLeasedConnections (metrics s') = activeLeasedConnections (metrics s) ∧
  connectionTimestamps s' = connectionTimestamps s ∧
  checkedOut s' = checkedOut s ∧ destroyed s' = destroyed s ∧
  clients s' = clients s.
Proof.
  intros Hq Haw Ha Hl Hst. unfold fire. simpl. rewrite Hq. simpl. intros [= <-].
  unfold exec, query_settled, clear_current_timer, getConnection_resumed,
    getConnection_run, getConnection_catch, settle. run_code.
  rewrite Haw.
  destruct (viaWrapper info) as [id0|]; simpl;
    [destruct (acquisitions s !! id0) as [a0|]; simpl;
     [destruct (currentQueryTimeoutTimer a0); simpl|]|];
    rewrite Ha; simpl; rewrite Hl;
    destruct Hst as [-> | ->]; simpl;
    destruct (errorListeners s); simpl;
    rewrite ?last_snoc; repeat split; reflexivity.
Qed.

End Configured.

(** ** Sample runs *)

(** One lease: the mark and the counter are both one, in a pool of
    one. *)
Lemma high_water_mark_witness :
  let s := after (Some 1%nat) one_lease in
  run (Some 1%nat) one_lease (new_pool 0) = Some s ∧
  maxConcurrentLeasedConnections (metrics s) = 1 ∧
  (0 ≤ activeLeasedConnections (metrics s) ≤ maxConcurrentLeasedConnections (metrics s) ∧
   maxConcurrentLeasedConnections (metrics s) ≤ Z.of_nat (capacity (Some 1%nat))).
Proof.
  split; [vm_compute; reflexivity|]. split; [vm_compute; reflexivity|].
  apply (high_water_mark_bounds_the_leases (Some 1%nat) 0 one_lease).
  vm_compute; reflexivity.
Defined.

(** 250 refused calls of [getConnection]: all are counted, the last 200
    are in the history. *)
Lemma connection_history_witness :
  let s := after None (refused 250) in
  run None (refused 250) (new_pool 0) = Some s ∧
  failedAcquisitions (metrics s) = 250 ∧
  length (connectionHistory (metrics s)) = 200%nat ∧
  (length (connectionHistory (metrics s)) ≤ MAX_HISTORY_SIZE)%nat.
Proof.
  split; [vm_compute; reflexivity|]. split; [vm_compute; reflexivity|].
  split; [vm_compute; reflexivity|].
  apply (connection_history_is_capped None 0 (refused 250)).
  vm_compute; reflexivity.
Defined.

(** A client leased, given back and leased again: one release, one
    duration. *)
Lemma every_counted_release_witness :
  let s := after (Some 1%nat) leased_twice in
  run (Some 1%nat) leased_twice (new_pool 0) = Some s ∧
  connectionDurations (metrics s) = [100] ∧
  (Z.of_nat (length (connectionDurations (metrics s))) = releasedConnections (metrics s) ∧
   0 ≤ acquiredConnections (metrics s) ∧ 0 ≤ failedAcquisitions (metrics s) ∧
   0 ≤ totalConnectionsCreated (metrics s)).
Proof.
  split; [vm_compute; reflexivity|]. split; [vm_compute; reflexivity|].
  apply (every_counted_release_left_a_duration (Some 1%nat) 0 leased_twice).
  vm_compute; reflexivity.
Defined.

(** The same run: two leases acquired, one released, one active and one
    in the table. *)
Lemma counters_match_the_leases_witness :
  let s := after (Some 1%nat) leased_twice in
  run (Some 1%nat) leased_twice (new_pool 0) = Some s ∧
  forallb (λ ev, negb (is_reset ev)) leased_twice = true ∧
  acquiredConnections (metrics s) = 2 ∧ releasedConnections (metrics s) = 1 ∧
  (activeLeasedConnections (metrics s) = Z.of_nat (size (connectionTimestamps s)) ∧
   acquiredConnections (metrics s) - releasedConnections (metrics s)
   = activeLeasedConnections (metrics s)).
Proof.
  split; [vm_compute; reflexivity|]. split; [reflexivity|].
  split; [vm_compute; reflexivity|]. split; [vm_compute; reflexivity|].
  apply (counters_match_the_leases_until_a_reset (Some 1%nat) 0 leased_twice);
    [vm_compute; reflexivity | reflexivity].
Defined.

(** The same run, from the first lease on: the client has one listener
    after its first lease and two after its second. *)
Lemma error_listeners_witness :
  let s := after (Some 1%nat) one_lease in
  let again := [ClientRelease 1%nat NoArg 200; GetConnection "b" None 300] in
  let s' := after (Some 1%nat) (one_lease ++ again) in
  let s1 := after (Some 1%nat) leased_twice in
  run (Some 1%nat) one_lease (new_pool 0) = Some s ∧
  run (Some 1%nat) again s = Some s' ∧
  fire (Some 1%nat) (ConnectSettles (Acquiring "conn_b") (Return 1%nat) 305) s' = Some s1 ∧
  forcedReleaseListeners 1%nat s = 1%nat ∧
  (forcedReleaseListeners 1%nat s ≤ forcedReleaseListeners 1%nat s')%nat ∧
  forcedReleaseListeners 1%nat s1 = 2%nat.
Proof.
  intros s again s' s1.
  assert (run (Some 1%nat) one_lease (new_pool 0) = Some s) as Hrun
    by (vm_compute; reflexivity).
  assert (run (Some 1%nat) again s = Some s') as Hrun' by (vm_compute; reflexivity).
  assert (run (Some 1%nat) (one_lease ++ again) (new_pool 0) = Some s') as Hboth
    by (vm_compute; reflexivity).
  assert (fire (Some 1%nat) (ConnectSettles (Acquiring "conn_b") (Return 1%nat) 305) s'
          = Some s1) as Hfire by (vm_compute; reflexivity).
  destruct (error_listeners_are_never_removed (Some 1%nat) 0 one_lease again s s' 1%nat
              Hrun Hrun') as [Hle _].
  destruct (error_listeners_are_never_removed (Some 1%nat) 0 (one_lease ++ again) [] s' s'
              1%nat Hboth eq_refl) as [_ Hadd].
  split; [exact Hrun|]. split; [exact Hrun'|]. split; [exact Hfire|].
  split; [vm_compute; reflexivity|]. split; [exact Hle|].
  rewrite (Hadd "conn_b" 305 s1 Hfire). vm_compute; reflexivity.
Defined.

(** The isolation level a caller asked for is refused by the server:
    the call is rejected and its client stays leased. *)
Lemma failed_setup_statement_witness :
  let s := after (Some 1%nat) (take 4 setup_fails) in
  let e := Error "syntax error at or near REPEATABLE_READ" in
  let s' := after (Some 1%nat) setup_fails in
  fire (Some 1%nat) (QuerySettles 1%nat (Throw e) 110) s = Some s' ∧
  activeLeasedConnections (metrics s) = 1 ∧
  is_Some (connectionTimestamps s !! "conn_a") ∧
  elements (checkedOut s) = [1%nat] ∧
  (last (out s')
   = Some (Settled "conn_a"
             (Throw (if errorListeners s is O then e
                     else DatabaseConnectionError
                            ("Failed to acquire connection: " ++ message e)))) ∧
   failedAcquisitions (metrics s') = failedAcquisitions (metrics s) + 1 ∧
   activeLeasedConnections (metrics s') = activeLeasedConnections (metrics s) ∧
   connectionTimestamps s' = connectionTimestamps s ∧
   checkedOut s' = checkedOut s ∧ destroyed s' = destroyed s ∧
   clients s' = clients s).
Proof.
  intros s e s'.
  assert (fire (Some 1%nat) (QuerySettles 1%nat (Throw e) 110) s = Some s') as Hfire
    by (vm_compute; reflexivity).
  split; [exact Hfire|]. split; [vm_compute; reflexivity|].
  split; [vm_compute; by eexists|]. split; [vm_compute; reflexivity|].
  apply (failed_setup_statement_keeps_the_lease (Some 1%nat) s s' 1%nat
           {| viaWrapper := Some "conn_a"; awaitedBy := Some (Acquiring "conn_a") |}
           "conn_a"
           {| acquisitionStartTime := 100;
              requested := Some {| isolationLevel := Some "REPEATABLE_READ";
                                   readOnly := None |};
              stage := SettingIsolation; leased := Some 1%nat;
              currentQueryTimeoutTimer := Some 0%nat |} 1%nat e 110);
    [vm_compute; reflexivity | reflexivity | vm_compute; reflexivity
    | vm_compute; reflexivity | left; vm_compute; reflexivity | exact Hfire].
Defined.

End PoolCountFacts.
